(** * wavepy.grating_interferometry: harmonic localisation and extraction

    A shallow embedding of the frequency-domain pipeline of
    [wavepy/grating_interferometry.py]: the peak index calculator
    ([_idxPeak_ij]), the peak locator ([_idxPeak_ij_exp]), the range
    validator ([_check_harmonic_inside_image]), the harmonic extractor
    ([extract_harmonic]) and the functions built on them.

    Conventions of the embedding:
    - Python integers are [Z]; [//] is [Z.div] (floor division).
    - A numpy 2D array is an [ndarray]: its rows as lists plus the column
      count, so that an array with no rows still has a shape.
    - A float is a [float64]: a rational when finite, or one of the
      special values.  Operations that round (division, subtraction,
      multiplication, [np.abs] and [np.angle] of a complex number) and the
      external transforms are fields of the class [Numerics]; comparisons,
      [np.max] and the product with a 0/1 mask are exact and written out.
    - [np.fft.fft2] and [np.fft.ifft2] raise [ValueError] on an array with
      an axis of length zero ([np_fft_fft2], [np_fft_ifft2]).
    - The range test compares half-integers, on rationals; the double
      precision of the source computes the same for integers below
      [2 ^ 53] ([double_exact], [range_test_exact_in_double]).
    - Exceptions are the left summand of [result].
    - Console messages and plots do not influence any returned value and
      are left out. *)

From Stdlib Require Import ZArith QArith Qabs List Bool Lia Sorted.
Import ListNotations.
Local Open Scope Z_scope.

Set Implicit Arguments.

(** ** Exceptions *)

Inductive exn : Type :=
| ValueError
| SystemExit
| IndexError.

Definition result (A : Type) : Type := (exn + A)%type.

Abbreviation Ok x := (@inr exn _ x).
Abbreviation Err e := (@inl exn _ e).

Definition bind {A B : Type} (m : result A) (k : A -> result B) : result B :=
  match m with
  | inl e => inl e
  | inr x => k x
  end.

Notation "x <- m ;; k" := (bind m (fun x => k))
  (at level 61, m at next level, right associativity).
Notation "' pat <- m ;; k" := (bind m (fun x => match x with pat => k end))
  (at level 61, pat pattern, m at next level, right associativity).

(** ** Floats *)

Inductive float64 : Type :=
| Fin (q : Q)
| PInf
| NInf
| NaN.

(** [a == b] on floats: a NaN is equal to nothing. *)
Definition f_eqb (a b : float64) : bool :=
  match a, b with
  | Fin x, Fin y => Qeq_bool x y
  | PInf, PInf => true
  | NInf, NInf => true
  | _, _ => false
  end.

(** [a <= b] on floats: false as soon as a NaN is involved. *)
Definition f_leb (a b : float64) : bool :=
  match a, b with
  | NaN, _ => false
  | _, NaN => false
  | NInf, _ => true
  | _, PInf => true
  | Fin x, Fin y => Qle_bool x y
  | _, _ => false
  end.

Definition f_isnan (a : float64) : bool :=
  match a with NaN => true | _ => false end.

Definition f_isfinite (a : float64) : bool :=
  match a with Fin _ => true | _ => false end.

(** One step of [np.max]: the maximum, a NaN winning over everything. *)
Definition f_max (a b : float64) : float64 :=
  if f_isnan a then a
  else if f_isnan b then b
  else if f_leb a b then b else a.

(** The product [x * m] where [m] is an entry of a mask, [1.0] ([true]) or
    [0.0] ([false]).  It is exact: [x * 1.0] is [x], a finite [x * 0.0] is
    zero, and an infinity or a NaN times zero is NaN. *)
Definition mul_mask (x : float64) (m : bool) : float64 :=
  if m then x
  else match x with
       | Fin _ => Fin 0
       | _ => NaN
       end.

(** ** Arrays *)

Record ndarray (A : Type) : Type := mk_ndarray {
  ncols : nat;
  rows : list (list A)
}.

Definition nrows {A} (a : ndarray A) : nat := length (rows a).

(** [a.shape] *)
Definition shape {A} (a : ndarray A) : Z * Z :=
  (Z.of_nat (nrows a), Z.of_nat (ncols a)).

(** Every array numpy builds is rectangular. *)
Definition rectangular {A} (a : ndarray A) : bool :=
  forallb (fun r => Nat.eqb (length r) (ncols a)) (rows a).

Definition get2 {A} (a : ndarray A) (i j : nat) : option A :=
  match nth_error (rows a) i with
  | Some r => nth_error r j
  | None => None
  end.

(** [a[i, j]] with integer indices: a negative index counts from the end,
    an index outside the axis raises [IndexError]. *)
Definition getitem {A} (a : ndarray A) (i j : Z) : result A :=
  let i' := if i <? 0 then i + Z.of_nat (nrows a) else i in
  let j' := if j <? 0 then j + Z.of_nat (ncols a) else j in
  if (i' <? 0) || (j' <? 0) then Err IndexError
  else match get2 a (Z.to_nat i') (Z.to_nat j') with
       | Some x => Ok x
       | None => Err IndexError
       end.

(** Where a slice bound [k] lands on an axis of length [n]: a negative
    bound counts from the end, and the outcome is clipped to [0, n]. *)
Definition slice_bound (n k : Z) : Z :=
  if k <? 0 then Z.max (k + n) 0 else Z.min k n.

(** [l[start:stop]] *)
Definition slice {A} (l : list A) (start stop : Z) : list A :=
  let n := Z.of_nat (length l) in
  let lo := slice_bound n start in
  let hi := slice_bound n stop in
  firstn (Z.to_nat (hi - lo)) (skipn (Z.to_nat lo) l).

(** [a[r0:r1, c0:c1]] *)
Definition slice2 {A} (a : ndarray A) (r0 r1 c0 c1 : Z) : ndarray A :=
  let n := Z.of_nat (ncols a) in
  {| ncols := Z.to_nat (slice_bound n c1 - slice_bound n c0);
     rows := map (fun r => slice r c0 c1) (slice (rows a) r0 r1) |}.

Definition arr_map {A B} (f : A -> B) (a : ndarray A) : ndarray B :=
  {| ncols := ncols a; rows := map (map f) (rows a) |}.

Definition zip_with {A B C} (f : A -> B -> C) (l : list A) (l' : list B) : list C :=
  map (fun p => f (fst p) (snd p)) (combine l l').

(** Element-wise combination of two arrays of one shape. *)
Definition arr_map2 {A B C} (f : A -> B -> C) (a : ndarray A) (b : ndarray B)
  : ndarray C :=
  {| ncols := Nat.min (ncols a) (ncols b);
     rows := zip_with (zip_with f) (rows a) (rows b) |}.

(** [np.zeros((r, c))] with [z] for the value zero. *)
Definition np_full {A} (r c : Z) (z : A) : ndarray A :=
  {| ncols := Z.to_nat c;
     rows := repeat (repeat z (Z.to_nat c)) (Z.to_nat r) |}.

(** [l[start:stop] = ...]: the entries of the slice are replaced by [f] of
    them, the others are kept. *)
Definition set_slice {A} (l : list A) (start stop : Z) (f : A -> A) : list A :=
  let n := Z.of_nat (length l) in
  let lo := Z.to_nat (slice_bound n start) in
  let hi := Z.to_nat (slice_bound n stop) in
  firstn lo l ++ map f (firstn (hi - lo) (skipn lo l))
    ++ skipn (lo + (hi - lo)) l.

(** [a[r0:r1, c0:c1] = v] *)
Definition setitem_slice2 {A} (a : ndarray A) (r0 r1 c0 c1 : Z) (v : A)
  : ndarray A :=
  {| ncols := ncols a;
     rows := set_slice (rows a) r0 r1
               (fun row => set_slice row c0 c1 (fun _ => v)) |}.

(** [np.max(a)]: raises on an empty array. *)
Definition np_max (a : ndarray float64) : result float64 :=
  match concat (rows a) with
  | [] => Err ValueError
  | x :: l => Ok (fold_left f_max l x)
  end.

Fixpoint where_row (i j : Z) (r : list bool) : list (Z * Z) :=
  match r with
  | [] => []
  | b :: r' => (if b then [(i, j)] else []) ++ where_row i (j + 1) r'
  end.

Fixpoint where_rows (i : Z) (rs : list (list bool)) : list (Z * Z) :=
  match rs with
  | [] => []
  | r :: rs' => where_row i 0 r ++ where_rows (i + 1) rs'
  end.

(** [np.where(a)]: the coordinates of the true entries in row-major order
    (numpy gives the row and the column coordinates as two arrays; here
    they are paired). *)
Definition np_where (a : ndarray bool) : list (Z * Z) :=
  where_rows 0 (rows a).

(** [np.all(a)] *)
Definition np_all (a : ndarray bool) : bool :=
  forallb (forallb (fun b => b)) (rows a).

(** Broadcasting of one axis: the lengths agree or one of them is 1. *)
Definition bdim (m n : nat) : option nat :=
  if Nat.eqb m n then Some m
  else if Nat.eqb m 1 then Some n
  else if Nat.eqb n 1 then Some m
  else None.

Definition stretch {A} (k : nat) (l : list A) : list A :=
  match l with
  | [x] => repeat x k
  | _ => l
  end.

Definition broadcast_to {A} (r c : nat) (a : ndarray A) : ndarray A :=
  {| ncols := c; rows := stretch r (map (stretch c) (rows a)) |}.

(** A binary element-wise operator of numpy, with broadcasting; shapes that
    do not broadcast raise [ValueError]. *)
Definition np_binop {A B C} (f : A -> B -> C) (a : ndarray A) (b : ndarray B)
  : result (ndarray C) :=
  match bdim (nrows a) (nrows b), bdim (ncols a) (ncols b) with
  | Some r, Some c => Ok (arr_map2 f (broadcast_to r c a) (broadcast_to r c b))
  | _, _ => Err ValueError
  end.

(** An array with an axis of length zero. *)
Definition is_empty {A} (a : ndarray A) : bool :=
  Nat.eqb (nrows a) 0 || Nat.eqb (ncols a) 0.

(** ** The numerical environment

    What the module takes from numpy and scikit-image without any logic of
    its own: the pixel type (a real or complex float), the transforms and
    the rounded float operations. *)

Class Numerics : Type := {
  px : Type;
  px_zero : px;                                  (* the entries of np.zeros *)
  np_exp : px -> px;
  np_abs : px -> float64;
  np_angle : px -> float64;
  np_isfinite : px -> bool;
  fft2 : ndarray px -> ndarray px;               (* np.fft.fft2(., norm='ortho') *)
  fftshift : ndarray px -> ndarray px;
  ifft2 : ndarray px -> ndarray px;              (* np.fft.ifft2(., norm='ortho') *)
  (* the two transforms where numpy computes them; on an array with an axis
     of length zero it raises, see np_fft_fft2 and np_fft_ifft2 *)
  ifftshift : ndarray px -> ndarray px;
  unwrap_phase : ndarray float64 -> ndarray float64;
  f_mul : float64 -> float64 -> float64;
  f_div : float64 -> float64 -> float64;
  f_sub : float64 -> float64 -> float64
}.

(** ** The module's functions *)

Section Program.

Context `{num : Numerics}.

(** [np.fft.fft2] and [np.fft.ifft2] raise [ValueError] (invalid number of
    FFT data points) on an array with an axis of length zero, and transform
    every other array. *)
Definition np_fft_fft2 (a : ndarray px) : result (ndarray px) :=
  if is_empty a then Err ValueError else Ok (fft2 a).

Definition np_fft_ifft2 (a : ndarray px) : result (ndarray px) :=
  if is_empty a then Err ValueError else Ok (ifft2 a).

(** The harmonic index is taken as the pair of integers
    [(int(harmonic_ij[0]), int(harmonic_ij[1]))] the functions compute
    first; the period is the pair [(harmonicPeriod[0], harmonicPeriod[1])]. *)

Definition _idxPeak_ij (harV harH nRows nColumns periodVert periodHor : Z)
  : Z * Z :=
  (nRows / 2 + harV * periodVert, nColumns / 2 + harH * periodHor).

Definition _idxPeak_ij_exp (imgFFT : ndarray px)
    (harV harH periodVert periodHor searchRegion : Z) : result (Z * Z) :=
  let intensity := arr_map np_abs imgFFT in
  let '(nRows, nColumns) := shape imgFFT in
  let idxPeak_ij := _idxPeak_ij harV harH nRows nColumns periodVert periodHor in
  (* a mask entry 1.0 is [true], a mask entry 0.0 is [false] *)
  let maskSearchRegion := np_full nRows nColumns false in
  let maskSearchRegion :=
    setitem_slice2 maskSearchRegion
      (fst idxPeak_ij - searchRegion) (fst idxPeak_ij + searchRegion)
      (snd idxPeak_ij - searchRegion) (snd idxPeak_ij + searchRegion) true in
  let masked := arr_map2 mul_mask intensity maskSearchRegion in
  top <- np_max masked ;;
  match np_where (arr_map (fun v => f_eqb v top) masked) with
  | [] => Err IndexError
  | idxPeak_ij_exp :: _ => Ok idxPeak_ij_exp
  end.

(** [x > y] between the two half-integers of the range test, made on
    rationals.  The source computes [(harV + .5) * periodVert] and
    [nRows / 2] in double precision; the two computations are exact, and
    the comparison is this one, when [2 * harV + 1], the period, their
    product and the extent are at most [2 ^ 53] in absolute value, which
    holds of every image a machine can hold.  The theorems that state the
    verdict as an inequality between integers carry that bound
    ([double_exact]). *)
Definition Qgt_bool (x y : Q) : bool := negb (Qle_bool x y).

Definition _check_harmonic_inside_image
    (harV harH nRows nColumns periodVert periodHor : Z) : result unit :=
  let errFlag := false in
  let errFlag :=
    if Qgt_bool ((inject_Z harV + (1 # 2)) * inject_Z periodVert)%Q
                (inject_Z nRows / 2)%Q
    then true else errFlag in
  let errFlag :=
    if Qgt_bool ((inject_Z harH + (1 # 2)) * inject_Z periodHor)%Q
                (inject_Z nColumns / 2)%Q
    then true else errFlag in
  if errFlag then Err ValueError else Ok tt.

(** The same test with the roundings of the source written out, [rnd]
    standing for the rounding to a double: the conversion of the harmonic
    to a float, the sum with [.5], the conversion of the period, the
    product, and the quotient [nRows / 2] of two integers, which Python
    rounds once. *)
Definition _check_harmonic_inside_image_rounded (rnd : Q -> Q)
    (harV harH nRows nColumns periodVert periodHor : Z) : result unit :=
  let errFlag := false in
  let errFlag :=
    if Qgt_bool (rnd (rnd (rnd (inject_Z harV) + (1 # 2))
                      * rnd (inject_Z periodVert)))%Q
                (rnd (inject_Z nRows / 2))%Q
    then true else errFlag in
  let errFlag :=
    if Qgt_bool (rnd (rnd (rnd (inject_Z harH) + (1 # 2))
                      * rnd (inject_Z periodHor)))%Q
                (rnd (inject_Z nColumns / 2))%Q
    then true else errFlag in
  if errFlag then Err ValueError else Ok tt.

Definition _error_harmonic_peak (imgFFT : ndarray px)
    (harV harH periodVert periodHor searchRegion : Z) : result (Z * Z) :=
  let '(nRows, nColumns) := shape imgFFT in
  let idxPeak_ij := _idxPeak_ij harV harH nRows nColumns periodVert periodHor in
  idxPeak_ij_exp <-
    _idxPeak_ij_exp imgFFT harV harH periodVert periodHor searchRegion ;;
  let del_i := fst idxPeak_ij_exp - fst idxPeak_ij in
  let del_j := snd idxPeak_ij_exp - snd idxPeak_ij in
  Ok (del_i, del_j).

(** The adjustment for a 1D grating, the same lines in every function that
    makes it. *)
Definition resolve_period (period extent : Z) : Z :=
  if period <=? 0 then extent else period.

Definition exp_harm_period (img : ndarray px) (harmonicPeriod harmonic_ij : Z * Z)
    (searchRegion : Z) (isFFT : bool) : result (Z * Z) :=
  let '(nRows, nColumns) := shape img in
  let harV := fst harmonic_ij in
  let harH := snd harmonic_ij in
  let periodVert := resolve_period (fst harmonicPeriod) nRows in
  let periodHor := resolve_period (snd harmonicPeriod) nColumns in
  _ <- _check_harmonic_inside_image harV harH nRows nColumns
         periodVert periodHor ;;
  imgFFT <-
    (if isFFT then Ok img
     else imgFFT <- np_fft_fft2 img ;; Ok (fftshift imgFFT)) ;;
  '(del_i, del_j) <-
    _error_harmonic_peak imgFFT harV harH periodVert periodHor searchRegion ;;
  Ok (periodVert + del_i, periodHor + del_j).

Definition extract_harmonic (img : ndarray px) (harmonicPeriod harmonic_ij : Z * Z)
    (searchRegion : Z) (isFFT : bool) : result (ndarray px) :=
  let '(nRows, nColumns) := shape img in
  let harV := fst harmonic_ij in
  let harH := snd harmonic_ij in
  let periodVert := resolve_period (fst harmonicPeriod) nRows in
  let periodHor := resolve_period (snd harmonicPeriod) nColumns in
  match _check_harmonic_inside_image harV harH nRows nColumns
          periodVert periodHor with
  | inl ValueError => Err SystemExit          (* except ValueError: raise SystemExit *)
  | inl e => Err e
  | inr _ =>
      imgFFT <-
        (if isFFT then Ok img
         else imgFFT <- np_fft_fft2 img ;; Ok (fftshift imgFFT)) ;;
      let idxPeak_ij :=
        _idxPeak_ij harV harH nRows nColumns periodVert periodHor in
      '(del_i, del_j) <-
        _error_harmonic_peak imgFFT harV harH periodVert periodHor
          searchRegion ;;
      (* the deviation only feeds the messages *)
      Ok (slice2 imgFFT
            (fst idxPeak_ij - periodVert / 2) (fst idxPeak_ij + periodVert / 2)
            (snd idxPeak_ij - periodHor / 2) (snd idxPeak_ij + periodHor / 2))
  end.

Definition single_grating_harmonic_images (img : ndarray px)
    (harmonicPeriod : Z * Z) (searchRegion : Z)
  : result (ndarray px * ndarray px * ndarray px) :=
  imgFFT <- np_fft_fft2 img ;;
  let imgFFT := fftshift imgFFT in
  imgFFT00 <- extract_harmonic imgFFT harmonicPeriod (0, 0) searchRegion true ;;
  imgFFT01 <- extract_harmonic imgFFT harmonicPeriod (0, 1) searchRegion true ;;
  imgFFT10 <- extract_harmonic imgFFT harmonicPeriod (1, 0) searchRegion true ;;
  img00 <- np_fft_ifft2 (ifftshift imgFFT00) ;;
  img01 <-
    (if np_all (arr_map np_isfinite imgFFT01)
     then np_fft_ifft2 (ifftshift imgFFT01) else Ok imgFFT01) ;;
  img10 <-
    (if np_all (arr_map np_isfinite imgFFT10)
     then np_fft_ifft2 (ifftshift imgFFT10) else Ok imgFFT10) ;;
  Ok (img00, img01, img10).

(** The result is the Python list
    [[int00, int01, int10, darkField01, darkField10, arg01, arg10]].
    [single_grating_harmonic_images] is called with its default
    [searchRegion=10]. *)
Definition single_2Dgrating_analyses (img : ndarray px)
    (img_ref : option (ndarray px)) (harmonicPeriod : Z * Z) (unwrapFlag : Z)
  : result (list (ndarray float64)) :=
  h_img <- single_grating_harmonic_images img harmonicPeriod 10 ;;
  h_img_ref <-
    match img_ref with
    | Some ref => single_grating_harmonic_images ref harmonicPeriod 10
    | None =>
        let '(r, c) := shape (fst (fst h_img)) in
        let ones := arr_map np_exp (np_full r c px_zero) in
        Ok (ones, ones, ones)
    end ;;
  let '(h0, h1, h2) := h_img in
  let '(r0, r1, r2) := h_img_ref in
  int00 <- np_binop f_div (arr_map np_abs h0) (arr_map np_abs r0) ;;
  int01 <- np_binop f_div (arr_map np_abs h1) (arr_map np_abs r1) ;;
  int10 <- np_binop f_div (arr_map np_abs h2) (arr_map np_abs r2) ;;
  darkField01 <- np_binop f_div int01 int00 ;;
  darkField10 <- np_binop f_div int10 int00 ;;
  arg01 <- np_binop f_sub (arr_map np_angle h1) (arr_map np_angle r1) ;;
  arg10 <- np_binop f_sub (arr_map np_angle h2) (arr_map np_angle r2) ;;
  let arg01 := if unwrapFlag =? 1 then unwrap_phase arg01 else arg01 in
  let arg10 := if unwrapFlag =? 1 then unwrap_phase arg10 else arg10 in
  Ok [int00; int01; int10; darkField01; darkField10; arg01; arg10].

Definition visib_1st_harmonics (img : ndarray px) (harmonicPeriod : Z * Z)
    (searchRegion : Z) : result (float64 * float64) :=
  imgFFT <- np_fft_fft2 img ;;
  let imgFFT := fftshift imgFFT in
  _idxPeak_ij_exp00 <-
    _idxPeak_ij_exp imgFFT 0 0 (fst harmonicPeriod) (snd harmonicPeriod)
      searchRegion ;;
  _idxPeak_ij_exp10 <-
    _idxPeak_ij_exp imgFFT 1 0 (fst harmonicPeriod) (snd harmonicPeriod)
      searchRegion ;;
  _idxPeak_ij_exp01 <-
    _idxPeak_ij_exp imgFFT 0 1 (fst harmonicPeriod) (snd harmonicPeriod)
      searchRegion ;;
  p00 <- getitem imgFFT (fst _idxPeak_ij_exp00) (snd _idxPeak_ij_exp00) ;;
  p10 <- getitem imgFFT (fst _idxPeak_ij_exp10) (snd _idxPeak_ij_exp10) ;;
  p01 <- getitem imgFFT (fst _idxPeak_ij_exp01) (snd _idxPeak_ij_exp01) ;;
  let peak00 := np_abs p00 in
  let peak10 := np_abs p10 in
  let peak01 := np_abs p01 in
  Ok (f_div (f_mul (Fin 2) peak10) peak00,
      f_div (f_mul (Fin 2) peak01) peak00).

End Program.

(** ** An instance: real-valued pixels

    Pixels are real floats, and the rounded operations are the exact ones,
    which is what double precision computes whenever the exact value is a
    double (as for the small dyadic numbers of the examples).  The two
    Fourier transforms are handed to the instance as functions, so that an
    example can supply the transform of the image it is about. *)

Module RealPixels.

Definition r_abs (x : float64) : float64 :=
  match x with
  | Fin q => Fin (Qabs q)
  | PInf | NInf => PInf
  | NaN => NaN
  end.

(** The double nearest to pi. *)
Definition pi64 : Q := 884279719003555 # 281474976710656.

(** The phase of a real number: 0 for a non-negative one, pi otherwise. *)
Definition r_angle (x : float64) : float64 :=
  match x with
  | Fin q => if Qle_bool 0 q then Fin 0 else Fin pi64
  | PInf => Fin 0
  | NInf => Fin pi64
  | NaN => NaN
  end.

(** [exp], exact at zero, the one argument the module gives it; elsewhere
    only the special values are followed. *)
Definition r_exp (x : float64) : float64 :=
  match x with
  | Fin q => if Qeq_bool q 0 then Fin 1 else NaN
  | PInf => PInf
  | NInf => Fin 0
  | NaN => NaN
  end.

Definition Qsign_nonneg (q : Q) : bool := Qle_bool 0 q.

Definition r_mul (x y : float64) : float64 :=
  match x, y with
  | Fin a, Fin b => Fin (Qred (a * b))
  | NaN, _ | _, NaN => NaN
  | Fin a, PInf | PInf, Fin a =>
      if Qeq_bool a 0 then NaN else if Qsign_nonneg a then PInf else NInf
  | Fin a, NInf | NInf, Fin a =>
      if Qeq_bool a 0 then NaN else if Qsign_nonneg a then NInf else PInf
  | PInf, PInf | NInf, NInf => PInf
  | PInf, NInf | NInf, PInf => NInf
  end.

(** [x / 1.0] is [x] for every float, special values included. *)
Definition r_div (x y : float64) : float64 :=
  match y with
  | NaN => NaN
  | Fin b =>
      if Qeq_bool b 1 then x
      else match x with
           | Fin a =>
               if Qeq_bool b 0
               then (if Qeq_bool a 0 then NaN
                     else if Qsign_nonneg a then PInf else NInf)
               else Fin (Qred (a / b))
           | PInf => if Qsign_nonneg b then PInf else NInf
           | NInf => if Qsign_nonneg b then NInf else PInf
           | NaN => NaN
           end
  | PInf | NInf =>
      match x with
      | Fin _ => Fin 0
      | _ => NaN
      end
  end.

(** [x - 0.0] is [x] for every float, special values included. *)
Definition r_sub (x y : float64) : float64 :=
  match y with
  | NaN => NaN
  | Fin b =>
      if Qeq_bool b 0 then x
      else match x with
           | Fin a => Fin (Qred (a - b))
           | _ => x
           end
  | PInf => match x with PInf | NaN => NaN | _ => NInf end
  | NInf => match x with NInf | NaN => NaN | _ => PInf end
  end.

(** [np.fft.fftshift] and [np.fft.ifftshift] along one axis. *)
Definition roll_fwd {A} (l : list A) : list A :=
  let n := length l in
  skipn (n - Nat.div n 2) l ++ firstn (n - Nat.div n 2) l.

Definition roll_bwd {A} (l : list A) : list A :=
  let n := length l in
  skipn (Nat.div n 2) l ++ firstn (Nat.div n 2) l.

Definition r_fftshift {A} (a : ndarray A) : ndarray A :=
  {| ncols := ncols a; rows := roll_fwd (map roll_fwd (rows a)) |}.

Definition r_ifftshift {A} (a : ndarray A) : ndarray A :=
  {| ncols := ncols a; rows := roll_bwd (map roll_bwd (rows a)) |}.

(** A phase map without jumps is left as it is by unwrapping. *)
Definition r_unwrap (a : ndarray float64) : ndarray float64 := a.

Definition numerics (transform inverse : ndarray float64 -> ndarray float64)
  : Numerics :=
  {| px := float64;
     px_zero := Fin 0;
     np_exp := r_exp;
     np_abs := r_abs;
     np_angle := r_angle;
     np_isfinite := f_isfinite;
     fft2 := transform;
     fftshift := @r_fftshift float64;
     ifft2 := inverse;
     ifftshift := @r_ifftshift float64;
     unwrap_phase := r_unwrap;
     f_mul := r_mul;
     f_div := r_div;
     f_sub := r_sub |}.

(** [c * np.ones((r, c))] *)
Definition constant (r c : nat) (v : Q) : ndarray float64 :=
  {| ncols := c; rows := repeat (repeat (Fin v) c) r |}.

(** An array of zeros but for the value [v] at the entry [(i, j)]. *)
Definition spike (r c : nat) (i j : nat) (v : float64) : ndarray float64 :=
  {| ncols := c;
     rows := map (fun i' =>
                    map (fun j' =>
                           if Nat.eqb i' i && Nat.eqb j' j then v else Fin 0)
                        (seq 0 c))
                 (seq 0 r) |}.

(** The unshifted orthonormal transform of the 4 x 4 image of ones: the sum
    of the entries over [sqrt 16] at the zero frequency, nothing elsewhere. *)
Definition fft2_ones44 : ndarray float64 := spike 4 4 0 0 (Fin 4).

Definition table_ones44 (img : ndarray float64) : ndarray float64 := fft2_ones44.

End RealPixels.

(** ** Vocabulary of the statements *)

Section Vocabulary.

Context `{num : Numerics}.

(** Row-major order on coordinates. *)
Definition lex_lt (p q : Z * Z) : Prop :=
  fst p < fst q \/ (fst p = fst q /\ snd p < snd q).

(** Is the index [i] inside the slice [start:stop] of an axis of length [n]? *)
Definition in_slice (n start stop : Z) (i : nat) : bool :=
  (slice_bound n start <=? Z.of_nat i) && (Z.of_nat i <? slice_bound n stop).

(** The entry [(i, j)] of the mask [_idxPeak_ij_exp] builds. *)
Definition search_window (imgFFT : ndarray px)
    (harV harH periodVert periodHor searchRegion : Z) (i j : nat) : bool :=
  let '(nRows, nColumns) := shape imgFFT in
  let idxPeak_ij := _idxPeak_ij harV harH nRows nColumns periodVert periodHor in
  in_slice nRows (fst idxPeak_ij - searchRegion)
           (fst idxPeak_ij + searchRegion) i
  && in_slice nColumns (snd idxPeak_ij - searchRegion)
              (snd idxPeak_ij + searchRegion) j.

(** The array [intensity * maskSearchRegion] of [_idxPeak_ij_exp]. *)
Definition masked_intensity (imgFFT : ndarray px)
    (harV harH periodVert periodHor searchRegion : Z) : ndarray float64 :=
  let '(nRows, nColumns) := shape imgFFT in
  let idxPeak_ij := _idxPeak_ij harV harH nRows nColumns periodVert periodHor in
  arr_map2 mul_mask (arr_map np_abs imgFFT)
    (setitem_slice2 (np_full nRows nColumns false)
       (fst idxPeak_ij - searchRegion) (fst idxPeak_ij + searchRegion)
       (snd idxPeak_ij - searchRegion) (snd idxPeak_ij + searchRegion) true).

(** Every entry of the array has a finite magnitude. *)
Definition finite_magnitudes (a : ndarray px) : bool :=
  np_all (arr_map (fun p => f_isfinite (np_abs p)) a).

(** Two rectangular arrays of one shape. *)
Definition conformable {A B} (a : ndarray A) (b : ndarray B) : Prop :=
  rectangular a = true /\ rectangular b = true
  /\ nrows a = nrows b /\ ncols a = ncols b.

(** What numpy's transforms do to shapes: the outcome is an array of the
    shape of the argument. *)
Definition shape_preserving {A B} (t : ndarray A -> ndarray B) : Prop :=
  forall a, rectangular a = true -> conformable a (t a).

(** The integers on which one half of the range test computes exactly in
    double precision: [har + .5] is the half of the odd integer
    [2 * har + 1], the product [(har + .5) * period] the half of
    [(2 * har + 1) * period], and [extent / 2] the half of [extent]; a half
    of an integer of at most 53 bits is a double, and so are the operands. *)
Definition double_exact (har period extent : Z) : Prop :=
  Z.abs (2 * har + 1) <= 2 ^ 53 /\ Z.abs period <= 2 ^ 53
  /\ Z.abs ((2 * har + 1) * period) <= 2 ^ 53 /\ Z.abs extent <= 2 ^ 53.

(** The image the extraction works on, once the transform of a real-space
    image has returned. *)
Definition frequency_image (img : ndarray px) (isFFT : bool) : ndarray px :=
  if isFFT then img else fftshift (fft2 img).

End Vocabulary.

(** * Properties *)

Unset Implicit Arguments.

(** ** The range test on integers *)

Lemma Qgt_bool_iff (x y : Q) : Qgt_bool x y = true <-> (y < x)%Q.
Proof.
  unfold Qgt_bool. rewrite negb_true_iff. split.
  - intros Hb. apply Qnot_le_lt. intros Hle.
    apply Qle_bool_iff in Hle. congruence.
  - intros Hlt. destruct (Qle_bool x y) eqn:E; [|reflexivity].
    apply Qle_bool_iff in E. exfalso. exact (Qlt_not_le _ _ Hlt E).
Qed.

(** The half-integer comparison, cleared of its denominators. *)
Lemma half_extent_exceeds_iff (har period extent : Z) :
  (inject_Z extent / 2 < (inject_Z har + (1 # 2)) * inject_Z period)%Q
  <-> extent < (2 * har + 1) * period.
Proof.
  unfold Qlt, Qdiv, Qmult, Qplus, Qinv, inject_Z.
  cbn -[Z.mul Z.add Z.lt Z.le]. lia.
Qed.

Lemma half_extent_within_iff (har period extent : Z) :
  ((inject_Z har + (1 # 2)) * inject_Z period <= inject_Z extent / 2)%Q
  <-> (2 * har + 1) * period <= extent.
Proof.
  unfold Qle, Qdiv, Qmult, Qplus, Qinv, inject_Z.
  cbn -[Z.mul Z.add Z.lt Z.le]. lia.
Qed.

Lemma check_harmonic_cases (harV harH nRows nColumns periodVert periodHor : Z) :
  _check_harmonic_inside_image harV harH nRows nColumns periodVert periodHor =
  if Qgt_bool ((inject_Z harV + (1 # 2)) * inject_Z periodVert)%Q
              (inject_Z nRows / 2)%Q
     || Qgt_bool ((inject_Z harH + (1 # 2)) * inject_Z periodHor)%Q
                 (inject_Z nColumns / 2)%Q
  then Err ValueError else Ok tt.
Proof.
  unfold _check_harmonic_inside_image.
  destruct (Qgt_bool _ _); destruct (Qgt_bool _ _); reflexivity.
Qed.

Lemma check_harmonic_ok_iff (harV harH nRows nColumns periodVert periodHor : Z) :
  _check_harmonic_inside_image harV harH nRows nColumns periodVert periodHor
    = Ok tt
  <-> (2 * harV + 1) * periodVert <= nRows
      /\ (2 * harH + 1) * periodHor <= nColumns.
Proof.
  rewrite check_harmonic_cases.
  rewrite <- !half_extent_within_iff.
  destruct (Qgt_bool _ (inject_Z nRows / 2)) eqn:EV;
    destruct (Qgt_bool _ (inject_Z nColumns / 2)) eqn:EH; simpl;
    try apply Qgt_bool_iff in EV; try apply Qgt_bool_iff in EH;
    split; try discriminate; try reflexivity.
  - intros [HV _]. exfalso. exact (Qlt_not_le _ _ EV HV).
  - intros [HV _]. exfalso. exact (Qlt_not_le _ _ EV HV).
  - intros [_ HH]. exfalso. exact (Qlt_not_le _ _ EH HH).
  - intros _. split; apply Qnot_lt_le; intros Hlt;
      apply Qgt_bool_iff in Hlt; congruence.
Qed.

Lemma check_harmonic_total (harV harH nRows nColumns periodVert periodHor : Z) :
  _check_harmonic_inside_image harV harH nRows nColumns periodVert periodHor
    = Ok tt
  \/ _check_harmonic_inside_image harV harH nRows nColumns periodVert periodHor
    = Err ValueError.
Proof.
  rewrite check_harmonic_cases. destruct (_ || _); auto.
Qed.

(** The range test in double precision: with a rounding that leaves the
    integers of at most 53 bits and their halves as they are, which is
    what the rounding to a double does, the test with its roundings gives
    the verdict of the test on rationals. *)
Lemma half_product_exact (rnd : Q -> Q) (har period extent : Z) :
  (forall x y, (x == y)%Q -> (rnd x == rnd y)%Q) ->
  (forall k, Z.abs k <= 2 ^ 53 -> (rnd (inject_Z k) == inject_Z k)%Q) ->
  (forall k, Z.abs k <= 2 ^ 53 ->
     (rnd (inject_Z k / 2) == inject_Z k / 2)%Q) ->
  double_exact har period extent ->
  Qgt_bool (rnd (rnd (rnd (inject_Z har) + (1 # 2)) * rnd (inject_Z period)))%Q
           (rnd (inject_Z extent / 2))%Q
  = Qgt_bool ((inject_Z har + (1 # 2)) * inject_Z period)%Q
             (inject_Z extent / 2)%Q.
Proof.
  intros Hcomp Hint Hhalf [Hh [Hp [Hhp He]]].
  assert (rnd (inject_Z har) == inject_Z har)%Q as E1 by (apply Hint; lia).
  assert (rnd (rnd (inject_Z har) + (1 # 2)) == inject_Z har + (1 # 2))%Q
    as E2.
  { rewrite (Hcomp _ (inject_Z (2 * har + 1) / 2)%Q).
    - rewrite (Hhalf _ Hh). rewrite !inject_Z_plus, inject_Z_mult. field.
    - rewrite E1. rewrite !inject_Z_plus, inject_Z_mult. field. }
  assert (rnd (inject_Z period) == inject_Z period)%Q as E3
    by (apply Hint; exact Hp).
  assert (rnd (rnd (rnd (inject_Z har) + (1 # 2)) * rnd (inject_Z period))
          == (inject_Z har + (1 # 2)) * inject_Z period)%Q as E4.
  { rewrite (Hcomp _ (inject_Z ((2 * har + 1) * period) / 2)%Q).
    - rewrite (Hhalf _ Hhp).
      rewrite !inject_Z_mult, !inject_Z_plus, inject_Z_mult. field.
    - rewrite E2, E3.
      rewrite !inject_Z_mult, !inject_Z_plus, inject_Z_mult. field. }
  unfold Qgt_bool. rewrite E4, (Hhalf _ He). reflexivity.
Qed.

Lemma range_test_exact_in_double (rnd : Q -> Q)
    (harV harH nRows nColumns periodVert periodHor : Z) :
  (forall x y, (x == y)%Q -> (rnd x == rnd y)%Q) ->
  (forall k, Z.abs k <= 2 ^ 53 -> (rnd (inject_Z k) == inject_Z k)%Q) ->
  (forall k, Z.abs k <= 2 ^ 53 ->
     (rnd (inject_Z k / 2) == inject_Z k / 2)%Q) ->
  double_exact harV periodVert nRows -> double_exact harH periodHor nColumns ->
  _check_harmonic_inside_image_rounded rnd harV harH nRows nColumns
    periodVert periodHor
  = _check_harmonic_inside_image harV harH nRows nColumns
      periodVert periodHor.
Proof.
  intros Hcomp Hint Hhalf HV HH.
  unfold _check_harmonic_inside_image_rounded, _check_harmonic_inside_image.
  rewrite (half_product_exact rnd _ _ _ Hcomp Hint Hhalf HV).
  rewrite (half_product_exact rnd _ _ _ Hcomp Hint Hhalf HH).
  reflexivity.
Qed.

(** ** Slices *)

Lemma slice_bound_range (n k : Z) : 0 <= n -> 0 <= slice_bound n k <= n.
Proof. unfold slice_bound. destruct (k <? 0) eqn:E; lia. Qed.

Lemma slice_bound_id (n k : Z) : 0 <= k <= n -> slice_bound n k = k.
Proof. unfold slice_bound. destruct (k <? 0) eqn:E; lia. Qed.

Lemma slice_length {A} (l : list A) (start stop : Z) :
  length (slice l start stop) =
  Z.to_nat (slice_bound (Z.of_nat (length l)) stop
            - slice_bound (Z.of_nat (length l)) start).
Proof.
  unfold slice. rewrite length_firstn, length_skipn.
  pose proof (slice_bound_range (Z.of_nat (length l)) start).
  pose proof (slice_bound_range (Z.of_nat (length l)) stop).
  lia.
Qed.

Lemma slice_nth_error {A} (l : list A) (start stop : Z) (k : nat) :
  0 <= start <= stop -> stop <= Z.of_nat (length l) ->
  (k < Z.to_nat (stop - start))%nat ->
  nth_error (slice l start stop) k = nth_error l (Z.to_nat start + k).
Proof.
  intros Hs Hl Hk. unfold slice.
  rewrite !slice_bound_id by lia.
  rewrite nth_error_firstn, nth_error_skipn.
  destruct (k <? Z.to_nat (stop - start))%nat eqn:E; [reflexivity|].
  apply Nat.ltb_ge in E. lia.
Qed.

Lemma slice_incl {A} (l : list A) (start stop : Z) (x : A) :
  In x (slice l start stop) -> In x l.
Proof.
  unfold slice. intros Hin.
  set (lo := Z.to_nat (slice_bound (Z.of_nat (length l)) start)) in *.
  set (k := Z.to_nat _) in Hin.
  rewrite <- (firstn_skipn lo l). apply in_or_app. right.
  rewrite <- (firstn_skipn k (skipn lo l)). apply in_or_app. left. exact Hin.
Qed.

Lemma rectangular_row {A} (a : ndarray A) (i : nat) (r : list A) :
  rectangular a = true -> nth_error (rows a) i = Some r -> length r = ncols a.
Proof.
  unfold rectangular. rewrite forallb_forall. intros Hrect Hi.
  apply Nat.eqb_eq, Hrect. eapply nth_error_In; eauto.
Qed.

Lemma get2_some_bounds {A} (a : ndarray A) (i j : nat) (x : A) :
  rectangular a = true -> get2 a i j = Some x ->
  (i < nrows a)%nat /\ (j < ncols a)%nat.
Proof.
  unfold get2, nrows. intros Hrect Hg.
  destruct (nth_error (rows a) i) as [r|] eqn:Er; [|discriminate].
  split.
  - apply nth_error_Some. congruence.
  - rewrite <- (rectangular_row a i r Hrect Er).
    apply nth_error_Some. congruence.
Qed.

Lemma get2_in_bounds {A} (a : ndarray A) (i j : nat) :
  rectangular a = true -> (i < nrows a)%nat -> (j < ncols a)%nat ->
  exists x, get2 a i j = Some x.
Proof.
  unfold get2, nrows. intros Hrect Hi Hj.
  destruct (nth_error (rows a) i) as [r|] eqn:Er.
  - pose proof (rectangular_row a i r Hrect Er) as Hlen.
    destruct (nth_error r j) as [x|] eqn:Ex; [eauto|].
    apply nth_error_None in Ex. lia.
  - apply nth_error_None in Er. lia.
Qed.

(** A slice of a rectangular array whose bounds lie inside the array is
    rectangular, has the shape the bounds give, and holds the entries of
    the array at the shifted coordinates. *)
Lemma slice2_rectangular {A} (a : ndarray A) (r0 r1 c0 c1 : Z) :
  rectangular a = true -> rectangular (slice2 a r0 r1 c0 c1) = true.
Proof.
  unfold rectangular. rewrite !forallb_forall. intros Hrect r Hin.
  cbn [rows slice2 ncols] in *.
  apply in_map_iff in Hin. destruct Hin as [r' [<- Hin']].
  assert (In r' (rows a)) as Hr' by (eapply slice_incl; eauto).
  apply Hrect, Nat.eqb_eq in Hr'.
  apply Nat.eqb_eq. rewrite slice_length, Hr'. reflexivity.
Qed.

Lemma slice2_shape {A} (a : ndarray A) (r0 r1 c0 c1 : Z) :
  0 <= r0 <= r1 -> r1 <= Z.of_nat (nrows a) ->
  0 <= c0 <= c1 -> c1 <= Z.of_nat (ncols a) ->
  shape (slice2 a r0 r1 c0 c1) = (r1 - r0, c1 - c0).
Proof.
  intros Hr Hr' Hc Hc'. unfold shape, nrows, slice2. cbn [rows ncols].
  rewrite length_map, slice_length.
  fold (nrows a). rewrite !slice_bound_id by lia.
  f_equal; lia.
Qed.

Lemma slice2_get2 {A} (a : ndarray A) (r0 r1 c0 c1 : Z) (i j : nat) :
  rectangular a = true ->
  0 <= r0 <= r1 -> r1 <= Z.of_nat (nrows a) ->
  0 <= c0 <= c1 -> c1 <= Z.of_nat (ncols a) ->
  (i < Z.to_nat (r1 - r0))%nat -> (j < Z.to_nat (c1 - c0))%nat ->
  get2 (slice2 a r0 r1 c0 c1) i j
  = get2 a (Z.to_nat r0 + i) (Z.to_nat c0 + j).
Proof.
  intros Hrect Hr Hr' Hc Hc' Hi Hj. unfold get2, slice2. cbn [rows].
  rewrite nth_error_map, slice_nth_error by (fold (nrows a); lia).
  destruct (nth_error (rows a) (Z.to_nat r0 + i)) as [r|] eqn:Er;
    [|reflexivity].
  cbn [option_map].
  pose proof (rectangular_row a _ _ Hrect Er) as Hlen.
  apply slice_nth_error; lia.
Qed.

(** ** Entries of the arrays the peak locator builds *)

Lemma nth_error_zip_with {A B C} (f : A -> B -> C) (l : list A) (l' : list B)
    (n : nat) :
  nth_error (zip_with f l l') n =
  match nth_error l n, nth_error l' n with
  | Some x, Some y => Some (f x y)
  | _, _ => None
  end.
Proof.
  unfold zip_with. revert l' n.
  induction l as [|x l IH]; intros [|y l'] [|n]; cbn; try reflexivity.
  - destruct (nth_error l n); reflexivity.
  - apply IH.
Qed.

Lemma get2_arr_map {A B} (f : A -> B) (a : ndarray A) (i j : nat) :
  get2 (arr_map f a) i j = option_map f (get2 a i j).
Proof.
  unfold get2, arr_map. cbn [rows]. rewrite nth_error_map.
  destruct (nth_error (rows a) i) as [r|]; cbn; [|reflexivity].
  apply nth_error_map.
Qed.

Lemma get2_arr_map2 {A B C} (f : A -> B -> C) (a : ndarray A) (b : ndarray B)
    (i j : nat) :
  get2 (arr_map2 f a b) i j =
  match get2 a i j, get2 b i j with
  | Some x, Some y => Some (f x y)
  | _, _ => None
  end.
Proof.
  unfold get2, arr_map2. cbn [rows]. rewrite nth_error_zip_with.
  destruct (nth_error (rows a) i) as [r|]; [|reflexivity].
  destruct (nth_error (rows b) i) as [r'|].
  - apply nth_error_zip_with.
  - destruct (nth_error r j); reflexivity.
Qed.

Lemma nth_error_repeat_cases {A} (x : A) (m n : nat) :
  nth_error (repeat x m) n = if (n <? m)%nat then Some x else None.
Proof.
  destruct (n <? m)%nat eqn:E.
  - apply nth_error_repeat, Nat.ltb_lt, E.
  - apply nth_error_None. rewrite repeat_length. apply Nat.ltb_ge, E.
Qed.

Lemma set_slice_nth_error {A} (l : list A) (start stop : Z) (f : A -> A)
    (i : nat) :
  nth_error (set_slice l start stop f) i =
  if in_slice (Z.of_nat (length l)) start stop i
  then option_map f (nth_error l i) else nth_error l i.
Proof.
  unfold set_slice, in_slice.
  pose proof (slice_bound_range (Z.of_nat (length l)) start ltac:(lia)) as Hlo.
  pose proof (slice_bound_range (Z.of_nat (length l)) stop ltac:(lia)) as Hhi.
  set (lo := slice_bound (Z.of_nat (length l)) start) in *.
  set (hi := slice_bound (Z.of_nat (length l)) stop) in *.
  destruct (lo <=? Z.of_nat i) eqn:E1; cbn [andb].
  - apply Z.leb_le in E1.
    rewrite nth_error_app2 by (rewrite length_firstn; lia).
    rewrite length_firstn, Nat.min_l by lia.
    destruct (Z.of_nat i <? hi) eqn:E2.
    + apply Z.ltb_lt in E2.
      rewrite nth_error_app1
        by (rewrite length_map, length_firstn, length_skipn; lia).
      rewrite nth_error_map, nth_error_firstn, nth_error_skipn.
      replace (i - Z.to_nat lo <? Z.to_nat hi - Z.to_nat lo)%nat with true
        by (symmetry; apply Nat.ltb_lt; lia).
      do 2 f_equal. lia.
    + apply Z.ltb_ge in E2.
      destruct (le_lt_dec (length l) i) as [Hout|Hin].
      * rewrite (proj2 (nth_error_None l i) Hout).
        apply nth_error_None.
        rewrite length_app, length_map, length_firstn, !length_skipn. lia.
      * rewrite nth_error_app2
          by (rewrite length_map, length_firstn, length_skipn; lia).
        rewrite length_map, length_firstn, length_skipn, nth_error_skipn.
        f_equal. lia.
  - apply Z.leb_gt in E1.
    rewrite nth_error_app1 by (rewrite length_firstn; lia).
    rewrite nth_error_firstn.
    replace (i <? Z.to_nat lo)%nat with true
      by (symmetry; apply Nat.ltb_lt; lia).
    reflexivity.
Qed.

(** The entries of [m = np.zeros((r, c)); m[r0:r1, c0:c1] = 1.0]. *)
Lemma get2_mask (r c : nat) (r0 r1 c0 c1 : Z) (i j : nat) :
  get2 (setitem_slice2 (np_full (Z.of_nat r) (Z.of_nat c) false)
          r0 r1 c0 c1 true) i j =
  if (i <? r)%nat && (j <? c)%nat
  then Some (in_slice (Z.of_nat r) r0 r1 i && in_slice (Z.of_nat c) c0 c1 j)
  else None.
Proof.
  unfold get2, setitem_slice2, np_full. cbn [rows]. rewrite !Nat2Z.id.
  rewrite set_slice_nth_error, repeat_length, nth_error_repeat_cases.
  destruct (i <? r)%nat; cbn [andb option_map];
    [|destruct (in_slice _ r0 r1 i); reflexivity].
  destruct (in_slice (Z.of_nat r) r0 r1 i); cbn [andb option_map].
  - rewrite set_slice_nth_error, repeat_length, nth_error_repeat_cases.
    destruct (j <? c)%nat; cbn [option_map];
      destruct (in_slice (Z.of_nat c) c0 c1 j); reflexivity.
  - rewrite nth_error_repeat_cases. destruct (j <? c)%nat; reflexivity.
Qed.

Lemma in_concat_get2 {A} (a : ndarray A) (x : A) :
  In x (concat (rows a)) <-> exists i j, get2 a i j = Some x.
Proof.
  rewrite in_concat. unfold get2. split.
  - intros [r [Hr Hx]].
    apply In_nth_error in Hr. destruct Hr as [i Hi].
    apply In_nth_error in Hx. destruct Hx as [j Hj].
    exists i, j. rewrite Hi. exact Hj.
  - intros [i [j Hij]].
    destruct (nth_error (rows a) i) as [r|] eqn:Er; [|discriminate].
    exists r. split; eapply nth_error_In; eauto.
Qed.

(** ** [np.where] scans in row-major order *)

Lemma where_row_in (i s : Z) (r : list bool) (p : Z * Z) :
  In p (where_row i s r) <->
  fst p = i /\ exists k, snd p = s + Z.of_nat k /\ nth_error r k = Some true.
Proof.
  revert s. induction r as [|b r IH]; intros s; cbn [where_row].
  - split; [intros []|]. intros [_ [[|k] [_ Hk]]]; discriminate.
  - rewrite in_app_iff, IH. split.
    + intros [Hb | [Hi [k [Hs Hk]]]].
      * destruct b; [|destruct Hb]. destruct Hb as [<- | []]. cbn.
        split; [reflexivity|]. exists 0%nat. split; [lia|reflexivity].
      * split; [exact Hi|]. exists (S k). split; [lia|exact Hk].
    + intros [Hi [[|k] [Hs Hk]]].
      * left. cbn in Hk. injection Hk as ->. left.
        destruct p as [pi pj]. cbn in *. f_equal; lia.
      * right. split; [exact Hi|]. exists k. split; [lia|exact Hk].
Qed.

Lemma where_rows_in (s : Z) (rs : list (list bool)) (p : Z * Z) :
  In p (where_rows s rs) <->
  exists i j r, fst p = s + Z.of_nat i /\ snd p = Z.of_nat j /\
                nth_error rs i = Some r /\ nth_error r j = Some true.
Proof.
  revert s. induction rs as [|r rs IH]; intros s; cbn [where_rows].
  - split; [intros []|]. intros [[|i] [j [r [_ [_ [Hr _]]]]]]; discriminate.
  - rewrite in_app_iff, where_row_in, IH. split.
    + intros [[Hi [k [Hs Hk]]] | [i [j [r' [Hi [Hj [Hr Hb]]]]]]].
      * exists 0%nat, k, r. repeat split; try lia; assumption.
      * exists (S i), j, r'. repeat split; try lia; assumption.
    + intros [[|i] [j [r' [Hi [Hj [Hr Hb]]]]]].
      * left. cbn in Hr. injection Hr as ->.
        split; [lia|]. exists j. split; [lia|exact Hb].
      * right. exists i, j, r'. repeat split; try lia; assumption.
Qed.

Lemma np_where_in (a : ndarray bool) (p : Z * Z) :
  In p (np_where a) <->
  exists i j, p = (Z.of_nat i, Z.of_nat j) /\ get2 a i j = Some true.
Proof.
  unfold np_where, get2. rewrite where_rows_in. split.
  - intros [i [j [r [Hi [Hj [Hr Hb]]]]]]. exists i, j. rewrite Hr.
    split; [|exact Hb]. destruct p; cbn in *. f_equal; lia.
  - intros [i [j [-> Hg]]].
    destruct (nth_error (rows a) i) as [r|] eqn:Er; [|discriminate].
    exists i, j, r. cbn. repeat split; try lia; assumption.
Qed.

Lemma StronglySorted_app {A} (R : A -> A -> Prop) (l1 l2 : list A) :
  StronglySorted R l1 -> StronglySorted R l2 ->
  (forall x y, In x l1 -> In y l2 -> R x y) ->
  StronglySorted R (l1 ++ l2).
Proof.
  intros H1 H2 H12. induction H1 as [|x l1 Hs IH Hall]; cbn; [exact H2|].
  constructor.
  - apply IH. intros; apply H12; [right|]; assumption.
  - apply Forall_app. split; [exact Hall|].
    apply Forall_forall. intros y Hy. apply H12; [left; reflexivity|exact Hy].
Qed.

Lemma where_row_sorted (i s : Z) (r : list bool) :
  StronglySorted lex_lt (where_row i s r).
Proof.
  revert s. induction r as [|b r IH]; intros s; cbn [where_row].
  - constructor.
  - apply StronglySorted_app; [| apply IH |].
    + destruct b; repeat constructor.
    + intros x y Hx Hy. destruct b; [|destruct Hx].
      destruct Hx as [<- | []].
      apply where_row_in in Hy. destruct Hy as [Hi [k [Hs _]]].
      right. cbn. split; [symmetry; exact Hi|lia].
Qed.

Lemma where_rows_sorted (s : Z) (rs : list (list bool)) :
  StronglySorted lex_lt (where_rows s rs).
Proof.
  revert s. induction rs as [|r rs IH]; intros s; cbn [where_rows].
  - constructor.
  - apply StronglySorted_app; [apply where_row_sorted | apply IH |].
    intros x y Hx Hy.
    apply where_row_in in Hx. destruct Hx as [Hi _].
    apply where_rows_in in Hy. destruct Hy as [i [j [r' [Hi' _]]]].
    left. lia.
Qed.

(** The first coordinate [np.where] yields precedes every other one. *)
Lemma np_where_head_first (a : ndarray bool) (p : Z * Z) (rest : list (Z * Z)) :
  np_where a = p :: rest -> forall q, In q rest -> lex_lt p q.
Proof.
  intros Hw q Hq.
  pose proof (where_rows_sorted 0 (rows a)) as Hs.
  fold (np_where a) in Hs. rewrite Hw in Hs.
  apply StronglySorted_inv in Hs. destruct Hs as [_ Hall].
  rewrite Forall_forall in Hall. exact (Hall q Hq).
Qed.

(** ** [np.max] on finite values *)

Lemma f_max_finite (a b : Q) :
  exists c, f_max (Fin a) (Fin b) = Fin c /\ (a <= c)%Q /\ (b <= c)%Q /\
            (c = a \/ c = b).
Proof.
  unfold f_max. cbn. destruct (Qle_bool a b) eqn:E.
  - exists b. apply Qle_bool_iff in E.
    repeat split; auto using Qle_refl.
  - exists a. repeat split; auto using Qle_refl.
    apply Qlt_le_weak, Qnot_le_lt. intros Hle.
    apply Qle_bool_iff in Hle. congruence.
Qed.

Lemma fold_max_finite (l : list float64) (x : float64) :
  Forall (fun v => f_isfinite v = true) (x :: l) ->
  exists m, fold_left f_max l x = Fin m /\ In (Fin m) (x :: l) /\
            forall q, In (Fin q) (x :: l) -> (q <= m)%Q.
Proof.
  revert x. induction l as [|y l IH]; intros x Hall.
  - inversion Hall as [|? ? Hx _]; subst.
    destruct x as [a| | |]; try discriminate.
    exists a. cbn. split; [reflexivity|]. split; [left; reflexivity|].
    intros q [Hq|[]]. injection Hq as ->. apply Qle_refl.
  - inversion Hall as [|? ? Hx Hrest]; subst.
    inversion Hrest as [|? ? Hy Hl]; subst.
    destruct x as [a| | |]; try discriminate.
    destruct y as [b| | |]; try discriminate.
    cbn [fold_left].
    destruct (f_max_finite a b) as [c [Hc [Ha [Hb Hor]]]]. rewrite Hc.
    destruct (IH (Fin c)) as [m [Hm [Hin Hbound]]].
    { constructor; [reflexivity|exact Hl]. }
    exists m. split; [exact Hm|]. split.
    + destruct Hin as [Hin|Hin].
      * rewrite <- Hin. destruct Hor as [-> | ->];
          [left|right; left]; reflexivity.
      * right; right; exact Hin.
    + intros q [Hq|[Hq|Hq]].
      * injection Hq as ->. eapply Qle_trans; [exact Ha|].
        apply Hbound. left; reflexivity.
      * injection Hq as ->. eapply Qle_trans; [exact Hb|].
        apply Hbound. left; reflexivity.
      * apply Hbound. right. exact Hq.
Qed.

Lemma np_max_finite (M : ndarray float64) :
  (forall i j v, get2 M i j = Some v -> f_isfinite v = true) ->
  (exists i j v, get2 M i j = Some v) ->
  exists m, np_max M = Ok (Fin m) /\
            (exists i j, get2 M i j = Some (Fin m)) /\
            forall i j q, get2 M i j = Some (Fin q) -> (q <= m)%Q.
Proof.
  intros Hfin [i0 [j0 [v0 H0]]]. unfold np_max.
  destruct (concat (rows M)) as [|x l] eqn:Ec.
  - exfalso. assert (In v0 (concat (rows M))) as Hin
      by (apply in_concat_get2; eauto).
    rewrite Ec in Hin. destruct Hin.
  - destruct (fold_max_finite l x) as [m [Hm [Hin Hbound]]].
    { apply Forall_forall. intros v Hv. rewrite <- Ec in Hv.
      apply in_concat_get2 in Hv. destruct Hv as [i [j Hij]]. eauto. }
    exists m. split; [rewrite Hm; reflexivity|]. split.
    + apply in_concat_get2. rewrite Ec. exact Hin.
    + intros i j q Hq. apply Hbound. rewrite <- Ec.
      apply in_concat_get2. eauto.
Qed.

Lemma lex_lt_asym (p q : Z * Z) : lex_lt p q -> lex_lt q p -> False.
Proof. unfold lex_lt. lia. Qed.

Lemma lex_lt_irrefl (p : Z * Z) : lex_lt p p -> False.
Proof. unfold lex_lt. lia. Qed.

(** The maximum of a finite, non-empty array and the first place, in
    row-major order, where the array equals it. *)
Lemma argmax_first (M : ndarray float64) :
  (forall i j v, get2 M i j = Some v -> f_isfinite v = true) ->
  (exists i j v, get2 M i j = Some v) ->
  exists i j m rest,
    np_max M = Ok (Fin m) /\
    np_where (arr_map (fun v => f_eqb v (Fin m)) M)
      = (Z.of_nat i, Z.of_nat j) :: rest /\
    (exists v, get2 M i j = Some (Fin v) /\ (v == m)%Q) /\
    forall i' j' v', get2 M i' j' = Some (Fin v') ->
      (v' <= m)%Q /\
      (lex_lt (Z.of_nat i', Z.of_nat j') (Z.of_nat i, Z.of_nat j) ->
       (v' < m)%Q).
Proof.
  intros Hfin Hne.
  destruct (np_max_finite M Hfin Hne) as [m [Hmax [[i0 [j0 H0]] Hbound]]].
  set (E := arr_map (fun v => f_eqb v (Fin m)) M).
  assert (forall i j v, get2 M i j = Some (Fin v) -> (v == m)%Q ->
            In (Z.of_nat i, Z.of_nat j) (np_where E)) as Hmem.
  { intros i j v Hv Heq. apply np_where_in. exists i, j.
    split; [reflexivity|]. unfold E. rewrite get2_arr_map, Hv. cbn.
    f_equal. apply Qeq_bool_iff. exact Heq. }
  destruct (np_where E) as [|p rest] eqn:Ew.
  - exfalso. exact (Hmem i0 j0 m H0 (Qeq_refl m)).
  - assert (In p (np_where E)) as Hp by (rewrite Ew; left; reflexivity).
    apply np_where_in in Hp. destruct Hp as [i [j [-> Hij]]].
    unfold E in Hij. rewrite get2_arr_map in Hij.
    destruct (get2 M i j) as [v|] eqn:Ev; [|discriminate].
    cbn in Hij. injection Hij as Hij.
    destruct v as [v| | |]; try discriminate. cbn in Hij.
    apply Qeq_bool_iff in Hij.
    exists i, j, m, rest. split; [exact Hmax|]. split; [exact Ew|].
    split; [exists v; split; [exact Ev|exact Hij]|].
    intros i' j' v' Hv'. split; [eapply Hbound; eauto|].
    intros Hlex. destruct (Qlt_le_dec v' m) as [Hlt|Hge]; [exact Hlt|].
    exfalso.
    assert (v' == m)%Q as Heq
      by (apply Qle_antisym; [eapply Hbound; eauto|exact Hge]).
    destruct (Hmem i' j' v' Hv' Heq) as [Hhd|Htl].
    + rewrite Hhd in Hlex. exact (lex_lt_irrefl _ Hlex).
    + pose proof (np_where_head_first E _ _ Ew _ Htl) as Hlex'.
      exact (lex_lt_asym _ _ Hlex Hlex').
Qed.

(** ** [np.max] on values without NaN *)

Lemma f_leb_refl (a : float64) : f_isnan a = false -> f_leb a a = true.
Proof.
  destruct a as [x| | |]; cbn; intros Ha; try reflexivity; try discriminate.
  apply Qle_bool_iff, Qle_refl.
Qed.

Lemma f_leb_trans (a b c : float64) :
  f_leb a b = true -> f_leb b c = true -> f_leb a c = true.
Proof.
  destruct a as [x| | |], b as [y| | |], c as [z| | |]; cbn;
    intros H1 H2; try discriminate; try reflexivity.
  apply Qle_bool_iff in H1. apply Qle_bool_iff in H2.
  apply Qle_bool_iff. eapply Qle_trans; eauto.
Qed.

Lemma f_leb_total (a b : float64) :
  f_isnan a = false -> f_isnan b = false ->
  f_leb a b = true \/ f_leb b a = true.
Proof.
  destruct a as [x| | |], b as [y| | |]; cbn; intros Ha Hb;
    try discriminate; auto.
  destruct (Qle_bool x y) eqn:E; [left; reflexivity|right].
  apply Qle_bool_iff, Qlt_le_weak, Qnot_le_lt. intros Hle.
  apply Qle_bool_iff in Hle. congruence.
Qed.

Lemma f_eqb_leb (a b : float64) :
  f_eqb a b = true <-> f_leb a b = true /\ f_leb b a = true.
Proof.
  destruct a as [x| | |], b as [y| | |]; cbn;
    try (split; [discriminate|intros [H1 H2]; discriminate]);
    try (split; auto; fail).
  rewrite Qeq_bool_iff, !Qle_bool_iff. split.
  - intros ->. split; apply Qle_refl.
  - intros [H1 H2]. apply Qle_antisym; assumption.
Qed.

Lemma f_max_no_nan (a b : float64) :
  f_isnan a = false -> f_isnan b = false ->
  f_isnan (f_max a b) = false
  /\ f_leb a (f_max a b) = true /\ f_leb b (f_max a b) = true
  /\ (f_max a b = a \/ f_max a b = b).
Proof.
  intros Ha Hb. unfold f_max. rewrite Ha, Hb.
  destruct (f_leb a b) eqn:E.
  - repeat split; auto using f_leb_refl.
  - repeat split; auto using f_leb_refl.
    destruct (f_leb_total a b Ha Hb) as [H|H]; [congruence|exact H].
Qed.

Lemma fold_max_no_nan (l : list float64) (x : float64) :
  Forall (fun v => f_isnan v = false) (x :: l) ->
  f_isnan (fold_left f_max l x) = false
  /\ In (fold_left f_max l x) (x :: l)
  /\ forall v, In v (x :: l) -> f_leb v (fold_left f_max l x) = true.
Proof.
  revert x. induction l as [|y l IH]; intros x Hall.
  - inversion Hall as [|? ? Hx _]; subst. cbn [fold_left].
    split; [exact Hx|]. split; [left; reflexivity|].
    intros v [<-|[]]. apply f_leb_refl, Hx.
  - inversion Hall as [|? ? Hx Hrest]; subst.
    inversion Hrest as [|? ? Hy Hl]; subst. cbn [fold_left].
    destruct (f_max_no_nan x y Hx Hy) as [Hn [Hxm [Hym Hor]]].
    destruct (IH (f_max x y)) as [Hm [Hin Hbound]].
    { constructor; [exact Hn|exact Hl]. }
    split; [exact Hm|]. split.
    + destruct Hin as [Hin|Hin]; [|right; right; exact Hin].
      rewrite <- Hin. destruct Hor as [-> | ->];
        [left|right; left]; reflexivity.
    + intros v [<-|[<-|Hv]].
      * eapply f_leb_trans; [exact Hxm|]. apply Hbound. left; reflexivity.
      * eapply f_leb_trans; [exact Hym|]. apply Hbound. left; reflexivity.
      * apply Hbound. right. exact Hv.
Qed.

(** The maximum of a non-empty array without NaN and the first place, in
    row-major order, where the array equals it. *)
Lemma argmax_first_no_nan (M : ndarray float64) :
  (forall i j v, get2 M i j = Some v -> f_isnan v = false) ->
  (exists i j v, get2 M i j = Some v) ->
  exists i j top rest v,
    np_max M = Ok top /\
    np_where (arr_map (fun v => f_eqb v top) M)
      = (Z.of_nat i, Z.of_nat j) :: rest /\
    get2 M i j = Some v /\ f_eqb v top = true /\
    forall i' j' v', get2 M i' j' = Some v' ->
      f_leb v' top = true /\
      (lex_lt (Z.of_nat i', Z.of_nat j') (Z.of_nat i, Z.of_nat j) ->
       f_eqb v' top = false).
Proof.
  intros Hnan [i0 [j0 [v0 H0]]]. unfold np_max.
  destruct (concat (rows M)) as [|x l] eqn:Ec.
  { exfalso. assert (In v0 (concat (rows M))) as Hin
      by (apply in_concat_get2; eauto).
    rewrite Ec in Hin. destruct Hin. }
  destruct (fold_max_no_nan l x) as [Htop [Hatt Hbound]].
  { apply Forall_forall. intros v Hv. rewrite <- Ec in Hv.
    apply in_concat_get2 in Hv. destruct Hv as [i [j Hij]]. eauto. }
  set (top := fold_left f_max l x) in *.
  rewrite <- Ec in Hatt. apply in_concat_get2 in Hatt.
  destruct Hatt as [i1 [j1 H1]].
  assert (forall i j v, get2 M i j = Some v -> f_leb v top = true) as Hle.
  { intros i j v Hv. apply Hbound. rewrite <- Ec.
    apply in_concat_get2. eauto. }
  set (E := arr_map (fun v => f_eqb v top) M).
  assert (forall i j v, get2 M i j = Some v -> f_eqb v top = true ->
            In (Z.of_nat i, Z.of_nat j) (np_where E)) as Hmem.
  { intros i j v Hv Heq. apply np_where_in. exists i, j.
    split; [reflexivity|]. unfold E. rewrite get2_arr_map, Hv. cbn.
    rewrite Heq. reflexivity. }
  destruct (np_where E) as [|p rest] eqn:Ew.
  - exfalso. apply (Hmem i1 j1 top H1).
    apply f_eqb_leb. split; apply f_leb_refl, Htop.
  - assert (In p (np_where E)) as Hp by (rewrite Ew; left; reflexivity).
    apply np_where_in in Hp. destruct Hp as [i [j [-> Hij]]].
    unfold E in Hij. rewrite get2_arr_map in Hij.
    destruct (get2 M i j) as [v|] eqn:Ev; [|discriminate].
    cbn in Hij. injection Hij as Hij.
    exists i, j, top, rest, v. repeat (split; [reflexivity || assumption|]).
    intros i' j' v' Hv'. split; [eapply Hle; eauto|].
    intros Hlex. destruct (f_eqb v' top) eqn:Heq; [exfalso|reflexivity].
    destruct (Hmem i' j' v' Hv' Heq) as [Hhd|Htl].
    + rewrite Hhd in Hlex. exact (lex_lt_irrefl _ Hlex).
    + pose proof (np_where_head_first E _ _ Ew _ Htl) as Hlex'.
      exact (lex_lt_asym _ _ Hlex Hlex').
Qed.

(** ** The peak locator *)

Lemma np_all_get2 (a : ndarray bool) :
  np_all a = true <-> forall i j b, get2 a i j = Some b -> b = true.
Proof.
  unfold np_all, get2. rewrite forallb_forall. split.
  - intros Hall i j b Hg.
    destruct (nth_error (rows a) i) as [r|] eqn:Er; [|discriminate].
    apply nth_error_In in Er. apply Hall in Er.
    rewrite forallb_forall in Er. apply Er. eapply nth_error_In; eauto.
  - intros Hall r Hr. apply forallb_forall. intros b Hb.
    apply In_nth_error in Hr. destruct Hr as [i Hi].
    apply In_nth_error in Hb. destruct Hb as [j Hj].
    apply (Hall i j). rewrite Hi. exact Hj.
Qed.

Lemma finite_magnitudes_get2 `{num : Numerics} (a : ndarray px) :
  finite_magnitudes a = true ->
  forall i j p, get2 a i j = Some p -> exists q, np_abs p = Fin q.
Proof.
  unfold finite_magnitudes. rewrite np_all_get2. intros Hall i j p Hp.
  specialize (Hall i j (f_isfinite (np_abs p))).
  rewrite get2_arr_map, Hp in Hall. specialize (Hall eq_refl).
  destruct (np_abs p) as [q| | |]; try discriminate. eauto.
Qed.

Lemma idxPeak_ij_exp_unfold `{num : Numerics} (imgFFT : ndarray px)
    (harV harH periodVert periodHor searchRegion : Z) :
  _idxPeak_ij_exp imgFFT harV harH periodVert periodHor searchRegion =
  (top <- np_max (masked_intensity imgFFT harV harH periodVert periodHor
                    searchRegion) ;;
   match np_where (arr_map (fun v => f_eqb v top)
                     (masked_intensity imgFFT harV harH periodVert periodHor
                        searchRegion)) with
   | [] => Err IndexError
   | idxPeak_ij_exp :: _ => Ok idxPeak_ij_exp
   end).
Proof. reflexivity. Qed.

Lemma masked_intensity_get2 `{num : Numerics} (imgFFT : ndarray px)
    (harV harH periodVert periodHor searchRegion : Z) (i j : nat) :
  rectangular imgFFT = true ->
  get2 (masked_intensity imgFFT harV harH periodVert periodHor searchRegion)
       i j
  = option_map
      (fun p => mul_mask (np_abs p)
                  (search_window imgFFT harV harH periodVert periodHor
                     searchRegion i j))
      (get2 imgFFT i j).
Proof.
  intros Hrect. unfold masked_intensity, search_window, shape.
  rewrite get2_arr_map2, get2_arr_map, get2_mask.
  destruct (get2 imgFFT i j) as [p|] eqn:Ep; [|reflexivity].
  destruct (get2_some_bounds _ _ _ _ Hrect Ep) as [Hi Hj].
  apply Nat.ltb_lt in Hi. apply Nat.ltb_lt in Hj. rewrite Hi, Hj.
  reflexivity.
Qed.

Lemma masked_intensity_finite `{num : Numerics} (imgFFT : ndarray px)
    (harV harH periodVert periodHor searchRegion : Z) :
  rectangular imgFFT = true -> finite_magnitudes imgFFT = true ->
  forall i j v,
    get2 (masked_intensity imgFFT harV harH periodVert periodHor searchRegion)
         i j = Some v ->
    f_isfinite v = true.
Proof.
  intros Hrect Hfin i j v Hv. rewrite masked_intensity_get2 in Hv by exact Hrect.
  destruct (get2 imgFFT i j) as [p|] eqn:Ep; [|discriminate].
  cbn [option_map] in Hv. injection Hv as <-.
  destruct (finite_magnitudes_get2 imgFFT Hfin _ _ _ Ep) as [q ->].
  unfold mul_mask.
  destruct (search_window imgFFT harV harH periodVert periodHor searchRegion
              i j); reflexivity.
Qed.

(** On a non-empty image of finite magnitudes the locator returns a
    coordinate of the image. *)
Lemma idxPeak_ij_exp_total `{num : Numerics} (imgFFT : ndarray px)
    (harV harH periodVert periodHor searchRegion : Z) :
  rectangular imgFFT = true -> finite_magnitudes imgFFT = true ->
  (0 < nrows imgFFT)%nat -> (0 < ncols imgFFT)%nat ->
  exists i j p,
    _idxPeak_ij_exp imgFFT harV harH periodVert periodHor searchRegion
      = Ok (Z.of_nat i, Z.of_nat j)
    /\ get2 imgFFT i j = Some p.
Proof.
  intros Hrect Hfin Hr Hc.
  destruct (argmax_first
              (masked_intensity imgFFT harV harH periodVert periodHor
                 searchRegion))
    as [i [j [m [rest [Hmax [Hw [[v [Hv _]] _]]]]]]].
  - apply masked_intensity_finite; assumption.
  - destruct (get2_in_bounds imgFFT 0 0 Hrect Hr Hc) as [p Hp].
    exists 0%nat, 0%nat. rewrite masked_intensity_get2, Hp by exact Hrect.
    cbn. eauto.
  - rewrite masked_intensity_get2 in Hv by exact Hrect.
    destruct (get2 imgFFT i j) as [p|] eqn:Ep; [|discriminate].
    exists i, j, p. split; [|exact Ep].
    rewrite idxPeak_ij_exp_unfold, Hmax. cbn [bind]. rewrite Hw. reflexivity.
Qed.

(** With a pixel of positive magnitude under the mask, the locator returns
    the first pixel under the mask, in row-major order, whose magnitude is
    the largest one under the mask. *)
Lemma idxPeak_ij_exp_masked_argmax `{num : Numerics} (imgFFT : ndarray px)
    (harV harH periodVert periodHor searchRegion : Z) :
  let inside :=
    search_window imgFFT harV harH periodVert periodHor searchRegion in
  rectangular imgFFT = true -> finite_magnitudes imgFFT = true ->
  (exists i0 j0 p0 q0,
     get2 imgFFT i0 j0 = Some p0 /\ inside i0 j0 = true /\
     np_abs p0 = Fin q0 /\ (0 < q0)%Q) ->
  exists i j p m,
    _idxPeak_ij_exp imgFFT harV harH periodVert periodHor searchRegion
      = Ok (Z.of_nat i, Z.of_nat j)
    /\ get2 imgFFT i j = Some p /\ inside i j = true /\ np_abs p = Fin m
    /\ forall i' j' p' m',
         get2 imgFFT i' j' = Some p' -> inside i' j' = true ->
         np_abs p' = Fin m' ->
         (m' <= m)%Q /\
         (lex_lt (Z.of_nat i', Z.of_nat j') (Z.of_nat i, Z.of_nat j) ->
          (m' < m)%Q).
Proof.
  intros inside Hrect Hfin [i0 [j0 [p0 [q0 [Hp0 [Hin0 [Hq0 Hpos]]]]]]].
  pose (M := masked_intensity imgFFT harV harH periodVert periodHor
               searchRegion).
  assert (forall i j p q, get2 imgFFT i j = Some p -> inside i j = true ->
            np_abs p = Fin q -> get2 M i j = Some (Fin q)) as Hin.
  { intros i j p q Hp Hi Hq. unfold M.
    rewrite masked_intensity_get2, Hp by exact Hrect. cbn [option_map].
    fold inside. rewrite Hi, Hq. reflexivity. }
  destruct (argmax_first M)
    as [i [j [top [rest [Hmax [Hw [[v [Hv Hvtop]] Hbound]]]]]]].
  - apply masked_intensity_finite; assumption.
  - exists i0, j0, (Fin q0). eapply Hin; eauto.
  - assert (0 < top)%Q as Htop.
    { eapply Qlt_le_trans; [exact Hpos|].
      apply (Hbound i0 j0). eapply Hin; eauto. }
    unfold M in Hv. rewrite masked_intensity_get2 in Hv by exact Hrect.
    destruct (get2 imgFFT i j) as [p|] eqn:Ep; [|discriminate].
    cbn [option_map] in Hv. fold inside in Hv. injection Hv as Hv.
    destruct (finite_magnitudes_get2 imgFFT Hfin _ _ _ Ep) as [m Hm].
    rewrite Hm in Hv. unfold mul_mask in Hv.
    destruct (inside i j) eqn:Eij.
    + injection Hv as ->.
      exists i, j, p, v. split.
      { rewrite idxPeak_ij_exp_unfold. fold M. rewrite Hmax. cbn [bind].
        rewrite Hw. reflexivity. }
      split; [exact Ep|]. split; [exact Eij|]. split; [exact Hm|].
      intros i' j' p' m' Hp' Hi' Hm'.
      destruct (Hbound i' j' m' (Hin _ _ _ _ Hp' Hi' Hm')) as [Hle Hlt].
      split.
      * rewrite Hvtop. exact Hle.
      * intros Hlex. rewrite Hvtop. exact (Hlt Hlex).
    + exfalso. injection Hv as Hv. rewrite <- Hv in Hvtop.
      rewrite <- Hvtop in Htop. exact (Qlt_irrefl _ Htop).
Qed.

(** ** The peak index calculator *)

(** C3: for all integers [nRows], [nColumns], [periodVert], [periodHor],
    [harV], [harH], [_idxPeak_ij] returns exactly the pair
    [nRows // 2 + harV * periodVert], [nColumns // 2 + harH * periodHor]:
    integer arithmetic, the halves being the floors of the halved extents,
    and nothing rounded. *)
Theorem idxPeak_ij_exact (harV harH nRows nColumns periodVert periodHor : Z) :
  _idxPeak_ij harV harH nRows nColumns periodVert periodHor
    = (nRows / 2 + harV * periodVert, nColumns / 2 + harH * periodHor)
  /\ 2 * (fst (_idxPeak_ij harV harH nRows nColumns periodVert periodHor)
          - harV * periodVert) <= nRows
     < 2 * (fst (_idxPeak_ij harV harH nRows nColumns periodVert periodHor)
            - harV * periodVert) + 2
  /\ 2 * (snd (_idxPeak_ij harV harH nRows nColumns periodVert periodHor)
          - harH * periodHor) <= nColumns
     < 2 * (snd (_idxPeak_ij harV harH nRows nColumns periodVert periodHor)
            - harH * periodHor) + 2.
Proof.
  unfold _idxPeak_ij. cbn [fst snd].
  split; [reflexivity|].
  pose proof (Z.div_mod nRows 2 ltac:(lia)).
  pose proof (Z.mod_pos_bound nRows 2 ltac:(lia)).
  pose proof (Z.div_mod nColumns 2 ltac:(lia)).
  pose proof (Z.mod_pos_bound nColumns 2 ltac:(lia)).
  lia.
Qed.

(** ** The range validator *)

Lemma extract_harmonic_aborts `{num : Numerics} (img : ndarray px)
    (harmonicPeriod harmonic_ij : Z * Z) (searchRegion : Z) (isFFT : bool) :
  _check_harmonic_inside_image (fst harmonic_ij) (snd harmonic_ij)
    (Z.of_nat (nrows img)) (Z.of_nat (ncols img))
    (resolve_period (fst harmonicPeriod) (Z.of_nat (nrows img)))
    (resolve_period (snd harmonicPeriod) (Z.of_nat (ncols img)))
    = Err ValueError ->
  extract_harmonic img harmonicPeriod harmonic_ij searchRegion isFFT
    = Err SystemExit.
Proof.
  intros Hc. unfold extract_harmonic, shape. rewrite Hc. reflexivity.
Qed.

Lemma extract_harmonic_checked `{num : Numerics} (img : ndarray px)
    (harmonicPeriod harmonic_ij : Z * Z) (searchRegion : Z) (isFFT : bool) :
  let nRows := Z.of_nat (nrows img) in
  let nColumns := Z.of_nat (ncols img) in
  let periodVert := resolve_period (fst harmonicPeriod) nRows in
  let periodHor := resolve_period (snd harmonicPeriod) nColumns in
  let idxPeak_ij :=
    _idxPeak_ij (fst harmonic_ij) (snd harmonic_ij) nRows nColumns
      periodVert periodHor in
  _check_harmonic_inside_image (fst harmonic_ij) (snd harmonic_ij)
    nRows nColumns periodVert periodHor = Ok tt ->
  extract_harmonic img harmonicPeriod harmonic_ij searchRegion isFFT
  = if negb isFFT && is_empty img then Err ValueError
    else
      (_ <- _idxPeak_ij_exp (frequency_image img isFFT)
             (fst harmonic_ij) (snd harmonic_ij) periodVert periodHor
             searchRegion ;;
       Ok (slice2 (frequency_image img isFFT)
             (fst idxPeak_ij - periodVert / 2) (fst idxPeak_ij + periodVert / 2)
             (snd idxPeak_ij - periodHor / 2) (snd idxPeak_ij + periodHor / 2))).
Proof.
  intros nRows nColumns periodVert periodHor idxPeak_ij Hc.
  unfold extract_harmonic, shape.
  fold nRows nColumns periodVert periodHor. rewrite Hc.
  unfold frequency_image, np_fft_fft2, _error_harmonic_peak.
  destruct isFFT; [|destruct (is_empty img)]; cbn [negb andb bind];
    try reflexivity;
    destruct (_idxPeak_ij_exp _ _ _ _ _ _) as [e|p]; reflexivity.
Qed.

(** An image the range test accepts, for positive periods and a
    non-negative harmonic, has no axis of length zero. *)
Lemma checked_image_not_empty {A} (img : ndarray A)
    (harV harH periodVert periodHor : Z) :
  0 < periodVert -> 0 < periodHor -> 0 <= harV -> 0 <= harH ->
  _check_harmonic_inside_image harV harH
    (Z.of_nat (nrows img)) (Z.of_nat (ncols img)) periodVert periodHor
    = Ok tt ->
  is_empty img = false.
Proof.
  intros HpV HpH HhV HhH Hc. apply check_harmonic_ok_iff in Hc.
  destruct Hc as [HcV HcH]. unfold is_empty.
  destruct (nrows img) as [|r];
    [exfalso; change (Z.of_nat 0) with 0 in HcV; nia|].
  destruct (ncols img) as [|c];
    [exfalso; change (Z.of_nat 0) with 0 in HcH; nia|]. reflexivity.
Qed.

Lemma resolve_period_positive (period extent : Z) :
  0 < period -> resolve_period period extent = period.
Proof. unfold resolve_period. intros Hp. destruct (period <=? 0) eqn:E; lia. Qed.

(** C2: the range validator raises if and only if
    [(harV + 0.5) * periodVert > nRows / 2] or
    [(harH + 0.5) * periodHor > nColumns / 2]; with equality on the
    boundary it does not raise; and when it raises inside
    [extract_harmonic], on an image of that shape and positive periods,
    the call ends in [SystemExit] and yields no crop.  The two
    inequalities are those of the rationals, which are the ones the code
    computes in double precision for extents, periods and harmonics below
    [2 ^ 53] ([double_exact]). *)
Theorem range_validator_raises_iff
    (harV harH nRows nColumns periodVert periodHor : Z) :
  let beyondV :=
    (inject_Z nRows / 2 < (inject_Z harV + (1 # 2)) * inject_Z periodVert)%Q in
  let beyondH :=
    (inject_Z nColumns / 2 < (inject_Z harH + (1 # 2)) * inject_Z periodHor)%Q in
  double_exact harV periodVert nRows -> double_exact harH periodHor nColumns ->
  (_check_harmonic_inside_image harV harH nRows nColumns periodVert periodHor
     = Err ValueError <-> beyondV \/ beyondH)
  /\ (((inject_Z harV + (1 # 2)) * inject_Z periodVert == inject_Z nRows / 2)%Q ->
      ((inject_Z harH + (1 # 2)) * inject_Z periodHor <= inject_Z nColumns / 2)%Q ->
      _check_harmonic_inside_image harV harH nRows nColumns periodVert periodHor
        = Ok tt)
  /\ (((inject_Z harV + (1 # 2)) * inject_Z periodVert <= inject_Z nRows / 2)%Q ->
      ((inject_Z harH + (1 # 2)) * inject_Z periodHor == inject_Z nColumns / 2)%Q ->
      _check_harmonic_inside_image harV harH nRows nColumns periodVert periodHor
        = Ok tt)
  /\ forall (num : Numerics) (img : ndarray px) (searchRegion : Z)
            (isFFT : bool),
       shape img = (nRows, nColumns) ->
       0 < periodVert -> 0 < periodHor ->
       beyondV \/ beyondH ->
       extract_harmonic img (periodVert, periodHor) (harV, harH)
         searchRegion isFFT = Err SystemExit.
Proof.
  intros beyondV beyondH _ _.
  assert (_check_harmonic_inside_image harV harH nRows nColumns
            periodVert periodHor = Err ValueError <-> beyondV \/ beyondH)
    as Hiff.
  { rewrite check_harmonic_cases. unfold beyondV, beyondH.
    rewrite <- !Qgt_bool_iff.
    destruct (Qgt_bool _ (inject_Z nRows / 2));
      destruct (Qgt_bool _ (inject_Z nColumns / 2)); cbn;
      split; auto; try discriminate; intros [?|?]; discriminate. }
  assert (((inject_Z harV + (1 # 2)) * inject_Z periodVert
             <= inject_Z nRows / 2)%Q ->
          ((inject_Z harH + (1 # 2)) * inject_Z periodHor
             <= inject_Z nColumns / 2)%Q ->
          _check_harmonic_inside_image harV harH nRows nColumns
            periodVert periodHor = Ok tt) as Hok.
  { intros HV HH. apply check_harmonic_ok_iff.
    split; apply half_extent_within_iff; assumption. }
  split; [exact Hiff|]. split; [|split].
  - intros HV HH. apply Hok; [|exact HH]. rewrite HV. apply Qle_refl.
  - intros HV HH. apply Hok; [exact HV|]. rewrite HH. apply Qle_refl.
  - intros num img searchRegion isFFT Hshape HpV HpH Hbeyond.
    apply extract_harmonic_aborts. cbn [fst snd].
    unfold shape in Hshape. injection Hshape as -> ->.
    rewrite !resolve_period_positive by assumption.
    apply Hiff. exact Hbeyond.
Qed.

Lemma range_validator_raises_iff_witness :
  _check_harmonic_inside_image 1 0 8 8 8 8 = Err ValueError
  /\ _check_harmonic_inside_image 0 0 8 8 8 8 = Ok tt
  /\ extract_harmonic (num := RealPixels.numerics (fun a => a) (fun a => a))
       (RealPixels.constant 8 8 1) (8, 8) (1, 0) 10 true = Err SystemExit.
Proof.
  destruct (range_validator_raises_iff 1 0 8 8 8 8) as [H1 [_ [_ H4]]];
    try (unfold double_exact; cbn; lia).
  destruct (range_validator_raises_iff 0 0 8 8 8 8) as [_ [H2 _]];
    try (unfold double_exact; cbn; lia).
  split; [|split].
  - apply H1. left. reflexivity.
  - apply H2; [reflexivity | discriminate].
  - apply (H4 (RealPixels.numerics (fun a => a) (fun a => a)));
      [reflexivity | lia | lia | left; reflexivity].
Defined.

(** ** The crop of the harmonic extractor *)

Lemma crop_bounds (har period extent : Z) :
  0 < period -> 0 <= har -> (2 * har + 1) * period <= extent ->
  0 <= extent / 2 + har * period - period / 2
  /\ extent / 2 + har * period + period / 2 <= extent
  /\ extent / 2 + har * period - period / 2
     <= extent / 2 + har * period + period / 2.
Proof.
  intros Hp Hh Hle. Z.div_mod_to_equations. nia.
Qed.

Lemma twice_half_iff_even (p : Z) : 2 * (p / 2) = p <-> Z.even p = true.
Proof.
  rewrite Z.even_spec. split.
  - intros Hp. exists (p / 2). lia.
  - intros [k ->]. Z.div_mod_to_equations. lia.
Qed.

(** What [extract_harmonic] returns once the range test has passed on an
    image of finite magnitudes: the slice around the theoretical peak. *)
Lemma extract_harmonic_returns `{num : Numerics} (img : ndarray px)
    (harmonicPeriod harmonic_ij : Z * Z) (searchRegion : Z) (isFFT : bool) :
  let imgFFT := frequency_image img isFFT in
  let nRows := Z.of_nat (nrows img) in
  let nColumns := Z.of_nat (ncols img) in
  let periodVert := fst harmonicPeriod in
  let periodHor := snd harmonicPeriod in
  let idxPeak_ij :=
    _idxPeak_ij (fst harmonic_ij) (snd harmonic_ij) nRows nColumns
      periodVert periodHor in
  0 < periodVert -> 0 < periodHor ->
  0 <= fst harmonic_ij -> 0 <= snd harmonic_ij ->
  _check_harmonic_inside_image (fst harmonic_ij) (snd harmonic_ij)
    nRows nColumns periodVert periodHor = Ok tt ->
  rectangular imgFFT = true -> shape imgFFT = shape img ->
  finite_magnitudes imgFFT = true ->
  extract_harmonic img harmonicPeriod harmonic_ij searchRegion isFFT
  = Ok (slice2 imgFFT
          (fst idxPeak_ij - periodVert / 2) (fst idxPeak_ij + periodVert / 2)
          (snd idxPeak_ij - periodHor / 2) (snd idxPeak_ij + periodHor / 2)).
Proof.
  intros imgFFT nRows nColumns periodVert periodHor idxPeak_ij
         HpV HpH HhV HhH Hc Hrect Hshape Hfin.
  pose proof (extract_harmonic_checked img harmonicPeriod harmonic_ij
                searchRegion isFFT) as Hex.
  cbv zeta in Hex. fold nRows nColumns periodVert periodHor in Hex.
  rewrite !resolve_period_positive in Hex by assumption.
  rewrite (Hex Hc). clear Hex.
  rewrite (checked_image_not_empty img _ _ _ _ HpV HpH HhV HhH Hc).
  rewrite Bool.andb_false_r.
  apply check_harmonic_ok_iff in Hc. destruct Hc as [HcV HcH].
  unfold shape in Hshape. injection Hshape as HsR HsC.
  destruct (idxPeak_ij_exp_total imgFFT (fst harmonic_ij) (snd harmonic_ij)
              periodVert periodHor searchRegion Hrect Hfin)
    as [i [j [p [Hloc _]]]].
  - fold nRows in HsR. nia.
  - fold nColumns in HsC. nia.
  - fold imgFFT. rewrite Hloc. reflexivity.
Qed.

(** C10: when [_check_harmonic_inside_image] succeeds for positive periods
    and a non-negative harmonic index, the slice [extract_harmonic] takes
    lies inside the image on both axes, so that no bound of it is clipped,
    and the array returned has the shape
    [(2 * (periodVert // 2), 2 * (periodHor // 2))], which is
    [(periodVert, periodHor)] exactly when both periods are even.  The
    array is returned as soon as the magnitudes of the image are finite. *)
Theorem extract_harmonic_crop_in_bounds `{num : Numerics} (img : ndarray px)
    (harmonicPeriod harmonic_ij : Z * Z) (searchRegion : Z) (isFFT : bool) :
  let imgFFT := frequency_image img isFFT in
  let nRows := Z.of_nat (nrows img) in
  let nColumns := Z.of_nat (ncols img) in
  let periodVert := fst harmonicPeriod in
  let periodHor := snd harmonicPeriod in
  let idxPeak_ij :=
    _idxPeak_ij (fst harmonic_ij) (snd harmonic_ij) nRows nColumns
      periodVert periodHor in
  0 < periodVert -> 0 < periodHor ->
  0 <= fst harmonic_ij -> 0 <= snd harmonic_ij ->
  _check_harmonic_inside_image (fst harmonic_ij) (snd harmonic_ij)
    nRows nColumns periodVert periodHor = Ok tt ->
  rectangular imgFFT = true -> shape imgFFT = shape img ->
  (0 <= fst idxPeak_ij - periodVert / 2
   /\ fst idxPeak_ij + periodVert / 2 <= nRows
   /\ 0 <= snd idxPeak_ij - periodHor / 2
   /\ snd idxPeak_ij + periodHor / 2 <= nColumns)
  /\ (slice_bound nRows (fst idxPeak_ij - periodVert / 2)
        = fst idxPeak_ij - periodVert / 2
      /\ slice_bound nRows (fst idxPeak_ij + periodVert / 2)
        = fst idxPeak_ij + periodVert / 2
      /\ slice_bound nColumns (snd idxPeak_ij - periodHor / 2)
        = snd idxPeak_ij - periodHor / 2
      /\ slice_bound nColumns (snd idxPeak_ij + periodHor / 2)
        = snd idxPeak_ij + periodHor / 2)
  /\ (forall crop,
        extract_harmonic img harmonicPeriod harmonic_ij searchRegion isFFT
          = Ok crop ->
        rectangular crop = true
        /\ shape crop = (2 * (periodVert / 2), 2 * (periodHor / 2)))
  /\ (finite_magnitudes imgFFT = true ->
      exists crop,
        extract_harmonic img harmonicPeriod harmonic_ij searchRegion isFFT
          = Ok crop)
  /\ ((2 * (periodVert / 2), 2 * (periodHor / 2)) = (periodVert, periodHor)
      <-> Z.even periodVert = true /\ Z.even periodHor = true).
Proof.
  intros imgFFT nRows nColumns periodVert periodHor idxPeak_ij
         HpV HpH HhV HhH Hc Hrect Hshape.
  pose proof Hc as Hc'. apply check_harmonic_ok_iff in Hc'.
  destruct Hc' as [HcV HcH].
  destruct (crop_bounds _ _ _ HpV HhV HcV) as [HV0 [HV1 HV2]].
  destruct (crop_bounds _ _ _ HpH HhH HcH) as [HH0 [HH1 HH2]].
  unfold idxPeak_ij, _idxPeak_ij. cbn [fst snd].
  split; [lia|]. split.
  { repeat split; apply slice_bound_id; lia. }
  split; [|split].
  - intros crop Hex.
    pose proof (extract_harmonic_checked img harmonicPeriod harmonic_ij
                  searchRegion isFFT) as E.
    cbv zeta in E. fold nRows nColumns periodVert periodHor in E.
    rewrite !resolve_period_positive in E by assumption.
    rewrite (E Hc) in Hex. clear E. fold imgFFT in Hex.
    rewrite (checked_image_not_empty img _ _ _ _ HpV HpH HhV HhH Hc) in Hex.
    rewrite Bool.andb_false_r in Hex.
    destruct (_idxPeak_ij_exp imgFFT _ _ _ _ _) as [e|p];
      cbn [bind] in Hex; [discriminate|].
    injection Hex as <-.
    unfold shape in Hshape. injection Hshape as HsR HsC.
    fold nRows in HsR. fold nColumns in HsC.
    split; [apply slice2_rectangular; exact Hrect|].
    unfold _idxPeak_ij. cbn [fst snd].
    rewrite slice2_shape by lia. f_equal; lia.
  - intros Hfin. eexists.
    apply extract_harmonic_returns; assumption.
  - rewrite <- !twice_half_iff_even. split.
    + intros Heq. injection Heq as HeV HeH. split; assumption.
    + intros [HeV HeH]. rewrite HeV, HeH. reflexivity.
Qed.

Lemma extract_harmonic_crop_in_bounds_witness :
  exists crop,
    extract_harmonic (num := RealPixels.numerics (fun a => a) (fun a => a))
      (RealPixels.spike 8 8 4 4 (Fin 8)) (3, 4) (0, 0) 2 true = Ok crop
    /\ rectangular crop = true
    /\ shape crop = (2, 4).
Proof.
  destruct (extract_harmonic_crop_in_bounds
              (num := RealPixels.numerics (fun a => a) (fun a => a))
              (RealPixels.spike 8 8 4 4 (Fin 8)) (3, 4) (0, 0) 2 true)
    as [_ [_ [Hshape [Hret _]]]];
    try reflexivity.
  destruct (Hret eq_refl) as [crop Hcrop].
  exists crop. split; [exact Hcrop|]. exact (Hshape crop Hcrop).
Defined.

(** The entries of the crop are those of the frequency image, shifted by
    the corner of the slice. *)
Lemma extract_harmonic_crop_entries `{num : Numerics} (img : ndarray px)
    (harmonicPeriod harmonic_ij : Z * Z) (searchRegion : Z) (isFFT : bool) :
  let imgFFT := frequency_image img isFFT in
  let nRows := Z.of_nat (nrows img) in
  let nColumns := Z.of_nat (ncols img) in
  let periodVert := fst harmonicPeriod in
  let periodHor := snd harmonicPeriod in
  let idxPeak_ij :=
    _idxPeak_ij (fst harmonic_ij) (snd harmonic_ij) nRows nColumns
      periodVert periodHor in
  0 < periodVert -> 0 < periodHor ->
  0 <= fst harmonic_ij -> 0 <= snd harmonic_ij ->
  _check_harmonic_inside_image (fst harmonic_ij) (snd harmonic_ij)
    nRows nColumns periodVert periodHor = Ok tt ->
  rectangular imgFFT = true -> shape imgFFT = shape img ->
  finite_magnitudes imgFFT = true ->
  exists crop,
    extract_harmonic img harmonicPeriod harmonic_ij searchRegion isFFT
      = Ok crop
    /\ forall i j,
         (i < Z.to_nat (2 * (periodVert / 2)))%nat ->
         (j < Z.to_nat (2 * (periodHor / 2)))%nat ->
         get2 crop i j =
         get2 imgFFT (Z.to_nat (fst idxPeak_ij - periodVert / 2) + i)
                     (Z.to_nat (snd idxPeak_ij - periodHor / 2) + j).
Proof.
  intros imgFFT nRows nColumns periodVert periodHor idxPeak_ij
         HpV HpH HhV HhH Hc Hrect Hshape Hfin.
  eexists. split; [apply extract_harmonic_returns; assumption|].
  fold imgFFT nRows nColumns periodVert periodHor idxPeak_ij.
  apply check_harmonic_ok_iff in Hc. destruct Hc as [HcV HcH].
  destruct (crop_bounds _ _ _ HpV HhV HcV) as [HV0 [HV1 HV2]].
  destruct (crop_bounds _ _ _ HpH HhH HcH) as [HH0 [HH1 HH2]].
  unfold shape in Hshape. injection Hshape as HsR HsC.
  fold nRows in HsR. fold nColumns in HsC.
  intros i j Hi Hj. unfold idxPeak_ij, _idxPeak_ij. cbn [fst snd].
  apply slice2_get2; try exact Hrect; lia.
Qed.

(** C1: [extract_harmonic] returns the slice of rows
    [idx0 - periodVert // 2, idx0 + periodVert // 2) and of the matching
    columns around the theoretical peak, which the claim, like the
    docstring, takes to be a rectangle of [periodVert] by [periodHor]
    pixels.  With an odd period the slice is one pixel short: on the
    spectrum of the 8 x 8 image of ones and the period (3, 3), which passes
    the range test, the crop is 2 x 2. *)
Theorem extract_harmonic_odd_period_crop :
  let imgFFT := RealPixels.spike 8 8 4 4 (Fin 8) in
  _check_harmonic_inside_image 0 0 8 8 3 3 = Ok tt
  /\ _idxPeak_ij 0 0 8 8 3 3 = (4, 4)
  /\ extract_harmonic (num := RealPixels.numerics (fun a => a) (fun a => a))
       imgFFT (3, 3) (0, 0) 2 true
     = Ok (slice2 imgFFT 3 5 3 5)
  /\ shape (slice2 imgFFT 3 5 3 5) = (2, 2)
  /\ shape (slice2 imgFFT 3 5 3 5) <> (3, 3).
Proof.
  cbv zeta. repeat split; try reflexivity. discriminate.
Qed.

(** ** The peak locator on its window *)

Lemma search_window_in_bounds `{num : Numerics} (imgFFT : ndarray px)
    (harV harH periodVert periodHor searchRegion : Z) (i j : nat) :
  let nRows := Z.of_nat (nrows imgFFT) in
  let nColumns := Z.of_nat (ncols imgFFT) in
  let r0 := nRows / 2 + harV * periodVert in
  let c0 := nColumns / 2 + harH * periodHor in
  0 < searchRegion ->
  0 <= r0 - searchRegion -> r0 + searchRegion <= nRows ->
  0 <= c0 - searchRegion -> c0 + searchRegion <= nColumns ->
  search_window imgFFT harV harH periodVert periodHor searchRegion i j = true
  <-> (r0 - searchRegion <= Z.of_nat i < r0 + searchRegion
       /\ c0 - searchRegion <= Z.of_nat j < c0 + searchRegion).
Proof.
  intros nRows nColumns r0 c0 Hs Hr0 Hr1 Hc0 Hc1.
  unfold search_window, shape, _idxPeak_ij, in_slice. cbn [fst snd].
  fold nRows nColumns r0 c0.
  rewrite !slice_bound_id by lia.
  rewrite !andb_true_iff, !Z.leb_le, !Z.ltb_lt. tauto.
Qed.

(** The window whose first row and column are not read from the end of the
    axis: a start that is not negative is kept, a start of at most minus
    the extent is row (or column) 0, and numpy clips the end of a slice at
    the extent, so that the mask covers the pixels of the image that lie
    in the window. *)
Lemma search_window_clipped `{num : Numerics} (imgFFT : ndarray px)
    (harV harH periodVert periodHor searchRegion : Z) (i j : nat) :
  let nRows := Z.of_nat (nrows imgFFT) in
  let nColumns := Z.of_nat (ncols imgFFT) in
  let r0 := nRows / 2 + harV * periodVert in
  let c0 := nColumns / 2 + harH * periodHor in
  0 <= r0 - searchRegion \/ r0 - searchRegion <= - nRows ->
  0 <= c0 - searchRegion \/ c0 - searchRegion <= - nColumns ->
  0 < r0 + searchRegion -> 0 < c0 + searchRegion ->
  (i < nrows imgFFT)%nat -> (j < ncols imgFFT)%nat ->
  search_window imgFFT harV harH periodVert periodHor searchRegion i j = true
  <-> (r0 - searchRegion <= Z.of_nat i < r0 + searchRegion
       /\ c0 - searchRegion <= Z.of_nat j < c0 + searchRegion).
Proof.
  intros nRows nColumns r0 c0 Hr0 Hc0 Hr1 Hc1 Hi Hj.
  unfold search_window, shape, _idxPeak_ij, in_slice. cbn [fst snd].
  fold nRows nColumns r0 c0.
  rewrite !andb_true_iff, !Z.leb_le, !Z.ltb_lt. unfold slice_bound.
  unfold nRows, nColumns in *.
  destruct (r0 - searchRegion <? 0) eqn:E1;
    destruct (r0 + searchRegion <? 0) eqn:E2;
    destruct (c0 - searchRegion <? 0) eqn:E3;
    destruct (c0 + searchRegion <? 0) eqn:E4; lia.
Qed.

(** C4, amended: on an image without NaN magnitude, whose magnitudes outside
    the window are finite, when the window of rows
    [r0 - searchRegion, r0 + searchRegion) and columns
    [c0 - searchRegion, c0 + searchRegion) around the theoretical peak
    [(r0, c0)] has a first row that is not negative or is at most
    [- nRows], a first column that is not negative or is at most
    [- nColumns], and holds, inside the image, a pixel of non-zero
    magnitude or the corner [(0, 0)], [_idxPeak_ij_exp] returns the
    coordinate of the pixel of largest magnitude among the pixels of the
    image in that window, the first one in row-major order when several
    pixels reach it.  The window may reach past the last row or column;
    the radius is positive as soon as the window holds a pixel. *)
Theorem peak_locator_first_maximum `{num : Numerics} (imgFFT : ndarray px)
    (harV harH periodVert periodHor searchRegion : Z) :
  let nRows := Z.of_nat (nrows imgFFT) in
  let nColumns := Z.of_nat (ncols imgFFT) in
  let r0 := nRows / 2 + harV * periodVert in
  let c0 := nColumns / 2 + harH * periodHor in
  let window (i j : nat) :=
    r0 - searchRegion <= Z.of_nat i < r0 + searchRegion
    /\ c0 - searchRegion <= Z.of_nat j < c0 + searchRegion in
  rectangular imgFFT = true ->
  0 <= r0 - searchRegion \/ r0 - searchRegion <= - nRows ->
  0 <= c0 - searchRegion \/ c0 - searchRegion <= - nColumns ->
  (forall i j p, get2 imgFFT i j = Some p ->
     f_isnan (np_abs p) = false
     /\ (~ window i j -> f_isfinite (np_abs p) = true)) ->
  ((exists i0 j0 p0,
      window i0 j0 /\ get2 imgFFT i0 j0 = Some p0
      /\ f_leb (np_abs p0) (Fin 0) = false)
   \/ (exists p0,
         window 0%nat 0%nat /\ get2 imgFFT 0 0 = Some p0
         /\ forall i j p, window i j -> get2 imgFFT i j = Some p ->
              f_eqb (np_abs p) (Fin 0) = true)) ->
  exists i j p,
    _idxPeak_ij_exp imgFFT harV harH periodVert periodHor searchRegion
      = Ok (Z.of_nat i, Z.of_nat j)
    /\ window i j /\ get2 imgFFT i j = Some p
    /\ forall i' j' p',
         window i' j' -> get2 imgFFT i' j' = Some p' ->
         f_leb (np_abs p') (np_abs p) = true
         /\ (lex_lt (Z.of_nat i', Z.of_nat j') (Z.of_nat i, Z.of_nat j) ->
             f_leb (np_abs p) (np_abs p') = false).
Proof.
  intros nRows nColumns r0 c0 window Hrect Hr0 Hc0 Hmag Hsignal.
  set (inside := search_window imgFFT harV harH periodVert periodHor
                   searchRegion).
  pose (M := masked_intensity imgFFT harV harH periodVert periodHor
               searchRegion).
  assert (exists i0 j0 p0, window i0 j0 /\ get2 imgFFT i0 j0 = Some p0)
    as [i0 [j0 [p0 [Hw0 Hp0]]]].
  { destruct Hsignal as [[i0 [j0 [p0 [Hw [Hp _]]]]]|[p0 [Hw [Hp _]]]]; eauto. }
  assert (forall i j p, get2 imgFFT i j = Some p ->
            (inside i j = true <-> window i j)) as Hwin.
  { intros i j p Hp. destruct (get2_some_bounds _ _ _ _ Hrect Hp) as [Hi Hj].
    apply search_window_clipped; try assumption;
      fold nRows nColumns r0 c0; destruct Hw0; lia. }
  assert (forall i j p, get2 imgFFT i j = Some p ->
            get2 M i j = Some (mul_mask (np_abs p) (inside i j))) as HM.
  { intros i j p Hp. unfold M.
    rewrite masked_intensity_get2, Hp by exact Hrect. reflexivity. }
  assert (forall i j p, get2 imgFFT i j = Some p -> window i j ->
            get2 M i j = Some (np_abs p)) as Hin.
  { intros i j p Hp Hw. rewrite (HM i j p Hp).
    rewrite (proj2 (Hwin i j p Hp) Hw). reflexivity. }
  assert (forall i j p, get2 imgFFT i j = Some p -> inside i j = false ->
            mul_mask (np_abs p) false = Fin 0) as Hmask.
  { intros i j p Hp Hw. destruct (Hmag i j p Hp) as [_ Hfin].
    assert (f_isfinite (np_abs p) = true) as Hf.
    { apply Hfin. intros Hc. apply (Hwin i j p Hp) in Hc. congruence. }
    unfold mul_mask. destruct (np_abs p); try discriminate. reflexivity. }
  assert (forall i j p, get2 imgFFT i j = Some p -> inside i j = false ->
            get2 M i j = Some (Fin 0)) as Hout.
  { intros i j p Hp Hw. rewrite (HM i j p Hp), Hw.
    rewrite (Hmask i j p Hp Hw). reflexivity. }
  destruct (argmax_first_no_nan M)
    as [i [j [top [rest [v [Hmax [Hw [Hv [Hvtop Hbound]]]]]]]]].
  { intros i j v Hv. unfold M in Hv.
    rewrite masked_intensity_get2 in Hv by exact Hrect.
    destruct (get2 imgFFT i j) as [p|] eqn:Ep; [|discriminate].
    cbn [option_map] in Hv. injection Hv as <-. fold inside.
    destruct (inside i j) eqn:Eij.
    - apply (Hmag i j p Ep).
    - rewrite (Hmask i j p Ep Eij). reflexivity. }
  { exists i0, j0, (np_abs p0). apply Hin; assumption. }
  pose proof Hv as Hv'. unfold M in Hv'.
  rewrite masked_intensity_get2 in Hv' by exact Hrect.
  destruct (get2 imgFFT i j) as [p|] eqn:Ep; [|discriminate]. clear Hv'.
  apply f_eqb_leb in Hvtop. destruct Hvtop as [Hvle Hvge].
  assert (inside i j = true) as Eij.
  { destruct (inside i j) eqn:Eij; [reflexivity|exfalso].
    rewrite (Hout i j p Ep Eij) in Hv. injection Hv as <-.
    destruct Hsignal as [[i1 [j1 [p1 [Hw1 [Hp1 Hpos]]]]]|[p1 [Hw1 [Hp1 Hzero]]]].
    - destruct (Hbound i1 j1 _ (Hin i1 j1 p1 Hp1 Hw1)) as [Hle _].
      rewrite (f_leb_trans _ _ _ Hle Hvge) in Hpos. discriminate.
    - assert (lex_lt (Z.of_nat 0, Z.of_nat 0) (Z.of_nat i, Z.of_nat j))
        as Hlex.
      { destruct i as [|i]; [|left; cbn [fst]; lia].
        destruct j as [|j]; [|right; cbn [fst snd]; lia].
        apply (Hwin 0%nat 0%nat p1 Hp1) in Hw1. congruence. }
      destruct (Hbound 0%nat 0%nat _ (Hin 0%nat 0%nat p1 Hp1 Hw1))
        as [Hle Hneq].
      specialize (Hneq Hlex).
      pose proof (Hzero 0%nat 0%nat p1 Hw1 Hp1) as Hz.
      apply f_eqb_leb in Hz. destruct Hz as [_ Hz].
      assert (f_eqb (np_abs p1) top = true) as Habs; [|congruence].
      apply f_eqb_leb. split; [exact Hle|].
      eapply f_leb_trans; [exact Hvge|exact Hz]. }
  pose proof (proj1 (Hwin i j p Ep) Eij) as Hwij.
  rewrite (Hin i j p Ep Hwij) in Hv. injection Hv as <-.
  exists i, j, p. split.
  { rewrite idxPeak_ij_exp_unfold. fold M. rewrite Hmax. cbn [bind].
    rewrite Hw. reflexivity. }
  split; [exact Hwij|]. split; [exact Ep|].
  intros i' j' p' Hw' Hp'.
  destruct (Hbound i' j' _ (Hin i' j' p' Hp' Hw')) as [Hle Hneq].
  split; [eapply f_leb_trans; eauto|].
  intros Hlex. specialize (Hneq Hlex).
  destruct (f_leb (np_abs p) (np_abs p')) eqn:Hge; [exfalso|reflexivity].
  assert (f_eqb (np_abs p') top = true) as Habs; [|congruence].
  apply f_eqb_leb. split; [exact Hle|].
  eapply f_leb_trans; [exact Hvge|exact Hge].
Qed.

Lemma peak_locator_first_maximum_witness :
  exists i j p,
    _idxPeak_ij_exp (num := RealPixels.numerics (fun a => a) (fun a => a))
      (RealPixels.spike 8 8 6 4 (Fin 8)) 1 0 2 2 3
      = Ok (Z.of_nat i, Z.of_nat j)
    /\ (6 - 3 <= Z.of_nat i < 6 + 3 /\ 4 - 3 <= Z.of_nat j < 4 + 3)
    /\ get2 (RealPixels.spike 8 8 6 4 (Fin 8)) i j = Some p.
Proof.
  destruct (peak_locator_first_maximum
              (num := RealPixels.numerics (fun a => a) (fun a => a))
              (RealPixels.spike 8 8 6 4 (Fin 8)) 1 0 2 2 3)
    as [i [j [p [Hloc [Hwin [Hp _]]]]]].
  - reflexivity.
  - left. cbn. lia.
  - left. cbn. lia.
  - intros i j p Hp.
    destruct (finite_magnitudes_get2
                (num := RealPixels.numerics (fun a => a) (fun a => a))
                (RealPixels.spike 8 8 6 4 (Fin 8)) eq_refl i j p Hp)
      as [q Hq].
    rewrite Hq. split; [reflexivity|intros _; reflexivity].
  - left. exists 6%nat, 4%nat, (Fin 8).
    split; [cbn; lia|]. split; reflexivity.
  - exists i, j, p. auto.
Defined.

(** Why the first row and column of the window are restricted: numpy reads
    a negative slice bound from the end of the axis.  On an 8 x 8 spectrum
    with the radius 5 around (4, 4) the window of the claim is the whole
    image, the mask is the single pixel (7, 7), and the peak at (4, 4) is
    not found. *)
Lemma peak_locator_window_wraps :
  let num := RealPixels.numerics (fun a => a) (fun a => a) in
  let imgFFT := RealPixels.spike 8 8 4 4 (Fin 8) in
  _idxPeak_ij 0 0 8 8 2 2 = (4, 4)
  /\ (forall i j,
        search_window imgFFT 0 0 2 2 5 i j = true <-> i = 7%nat /\ j = 7%nat)
  /\ _idxPeak_ij_exp imgFFT 0 0 2 2 5 = Ok (0, 0).
Proof.
  intros num imgFFT. split; [reflexivity|]. split; [|reflexivity].
  intros i j. unfold search_window, in_slice, shape, _idxPeak_ij.
  cbn [fst snd imgFFT]. change (Z.of_nat (nrows imgFFT)) with 8.
  change (Z.of_nat (ncols imgFFT)) with 8.
  change (slice_bound 8 (8 / 2 + 0 * 2 - 5)) with 7.
  change (slice_bound 8 (8 / 2 + 0 * 2 + 5)) with 8.
  rewrite !andb_true_iff, !Z.leb_le, !Z.ltb_lt. lia.
Qed.

(** The claim C4 as it stands fails on the spectrum of an image of zeros:
    the masked array is zero everywhere, and the first place where it
    equals its maximum is the corner [(0, 0)], outside the window of rows
    and columns [2, 6). *)
Lemma peak_locator_leaves_window :
  let imgFFT := RealPixels.constant 8 8 0 in
  let window (i j : Z) := 4 - 2 <= i < 4 + 2 /\ 4 - 2 <= j < 4 + 2 in
  _idxPeak_ij 0 0 8 8 2 2 = (4, 4)
  /\ _idxPeak_ij_exp (num := RealPixels.numerics (fun a => a) (fun a => a))
       imgFFT 0 0 2 2 2 = Ok (0, 0)
  /\ ~ (exists i j,
          _idxPeak_ij_exp (num := RealPixels.numerics (fun a => a) (fun a => a))
            imgFFT 0 0 2 2 2 = Ok (i, j)
          /\ window i j).
Proof.
  cbv zeta. split; [reflexivity|]. split; [reflexivity|].
  intros [i [j [Hloc Hwin]]].
  change (Ok (0, 0) = Ok (i, j) :> result (Z * Z)) in Hloc.
  injection Hloc as <- <-. lia.
Qed.

(** ** The adjustment for a 1D grating *)

Lemma resolve_period_idem (period extent : Z) :
  resolve_period (resolve_period period extent) extent
  = resolve_period period extent.
Proof.
  unfold resolve_period.
  destruct (period <=? 0) eqn:E; [|rewrite E; reflexivity].
  destruct (extent <=? 0); reflexivity.
Qed.

Lemma resolve_period_nonpositive (period extent : Z) :
  period <= 0 ->
  resolve_period period extent = resolve_period extent extent.
Proof.
  unfold resolve_period. intros Hp.
  destruct (period <=? 0) eqn:E; [|lia].
  destruct (extent <=? 0); reflexivity.
Qed.

(** [extract_harmonic] and [exp_harm_period] read the period through the
    adjustment only: a non-positive vertical period is the row count, a
    non-positive horizontal one the column count. *)
Lemma extract_harmonic_default_period `{num : Numerics} (img : ndarray px)
    (periodVert periodHor periodVert' periodHor' : Z)
    (harmonic_ij : Z * Z) (searchRegion : Z) (isFFT : bool) :
  resolve_period periodVert (Z.of_nat (nrows img))
    = resolve_period periodVert' (Z.of_nat (nrows img)) ->
  resolve_period periodHor (Z.of_nat (ncols img))
    = resolve_period periodHor' (Z.of_nat (ncols img)) ->
  extract_harmonic img (periodVert, periodHor) harmonic_ij searchRegion isFFT
  = extract_harmonic img (periodVert', periodHor') harmonic_ij searchRegion
      isFFT.
Proof.
  intros HV HH. unfold extract_harmonic, shape. cbn [fst snd].
  rewrite HV, HH. reflexivity.
Qed.

Lemma extract_harmonic_nonpositive_period `{num : Numerics} (img : ndarray px)
    (periodVert periodHor : Z) (harmonic_ij : Z * Z) (searchRegion : Z)
    (isFFT : bool) :
  (periodVert <= 0 ->
   extract_harmonic img (periodVert, periodHor) harmonic_ij searchRegion isFFT
   = extract_harmonic img (Z.of_nat (nrows img), periodHor) harmonic_ij
       searchRegion isFFT)
  /\ (periodHor <= 0 ->
      extract_harmonic img (periodVert, periodHor) harmonic_ij searchRegion
        isFFT
      = extract_harmonic img (periodVert, Z.of_nat (ncols img)) harmonic_ij
          searchRegion isFFT).
Proof.
  split; intros Hp; apply extract_harmonic_default_period;
    auto using resolve_period_nonpositive.
Qed.

Lemma exp_harm_period_nonpositive_period `{num : Numerics} (img : ndarray px)
    (periodVert periodHor : Z) (harmonic_ij : Z * Z) (searchRegion : Z)
    (isFFT : bool) :
  (periodVert <= 0 ->
   exp_harm_period img (periodVert, periodHor) harmonic_ij searchRegion isFFT
   = exp_harm_period img (Z.of_nat (nrows img), periodHor) harmonic_ij
       searchRegion isFFT)
  /\ (periodHor <= 0 ->
      exp_harm_period img (periodVert, periodHor) harmonic_ij searchRegion
        isFFT
      = exp_harm_period img (periodVert, Z.of_nat (ncols img)) harmonic_ij
          searchRegion isFFT).
Proof.
  split; intros Hp; unfold exp_harm_period, shape; cbn [fst snd];
    rewrite (resolve_period_nonpositive _ _ Hp); reflexivity.
Qed.

(** The transform at the head of [single_grating_harmonic_images] and of
    [visib_1st_harmonics]: it raises on an image with an axis of length
    zero, and the function goes on with the shifted transform of any other
    image. *)
Lemma is_empty_false {A} (a : ndarray A) :
  is_empty a = false <-> (0 < nrows a)%nat /\ (0 < ncols a)%nat.
Proof.
  unfold is_empty. rewrite Bool.orb_false_iff, !Nat.eqb_neq. lia.
Qed.

Lemma harmonic_images_of_empty `{num : Numerics} (img : ndarray px)
    (harmonicPeriod : Z * Z) (searchRegion : Z) :
  is_empty img = true ->
  single_grating_harmonic_images img harmonicPeriod searchRegion
    = Err ValueError.
Proof.
  intros He. unfold single_grating_harmonic_images, np_fft_fft2.
  rewrite He. reflexivity.
Qed.

Lemma harmonic_images_of_transform `{num : Numerics} (img : ndarray px)
    (harmonicPeriod : Z * Z) (searchRegion : Z) :
  is_empty img = false ->
  let imgFFT := fftshift (fft2 img) in
  single_grating_harmonic_images img harmonicPeriod searchRegion
  = (imgFFT00 <-
       extract_harmonic imgFFT harmonicPeriod (0, 0) searchRegion true ;;
     imgFFT01 <-
       extract_harmonic imgFFT harmonicPeriod (0, 1) searchRegion true ;;
     imgFFT10 <-
       extract_harmonic imgFFT harmonicPeriod (1, 0) searchRegion true ;;
     img00 <- np_fft_ifft2 (ifftshift imgFFT00) ;;
     img01 <-
       (if np_all (arr_map np_isfinite imgFFT01)
        then np_fft_ifft2 (ifftshift imgFFT01) else Ok imgFFT01) ;;
     img10 <-
       (if np_all (arr_map np_isfinite imgFFT10)
        then np_fft_ifft2 (ifftshift imgFFT10) else Ok imgFFT10) ;;
     Ok (img00, img01, img10)).
Proof.
  intros He imgFFT. unfold single_grating_harmonic_images, np_fft_fft2.
  rewrite He. reflexivity.
Qed.

Lemma visib_1st_harmonics_of_empty `{num : Numerics} (img : ndarray px)
    (harmonicPeriod : Z * Z) (searchRegion : Z) :
  is_empty img = true ->
  visib_1st_harmonics img harmonicPeriod searchRegion = Err ValueError.
Proof.
  intros He. unfold visib_1st_harmonics, np_fft_fft2.
  rewrite He. reflexivity.
Qed.

Lemma visib_1st_harmonics_of_transform `{num : Numerics} (img : ndarray px)
    (harmonicPeriod : Z * Z) (searchRegion : Z) :
  is_empty img = false ->
  let imgFFT := fftshift (fft2 img) in
  let locate (harV harH : Z) :=
    _idxPeak_ij_exp imgFFT harV harH (fst harmonicPeriod) (snd harmonicPeriod)
      searchRegion in
  visib_1st_harmonics img harmonicPeriod searchRegion
  = (ij00 <- locate 0 0 ;; ij10 <- locate 1 0 ;; ij01 <- locate 0 1 ;;
     p00 <- getitem imgFFT (fst ij00) (snd ij00) ;;
     p10 <- getitem imgFFT (fst ij10) (snd ij10) ;;
     p01 <- getitem imgFFT (fst ij01) (snd ij01) ;;
     Ok (f_div (f_mul (Fin 2) (np_abs p10)) (np_abs p00),
         f_div (f_mul (Fin 2) (np_abs p01)) (np_abs p00))).
Proof.
  intros He imgFFT locate. unfold visib_1st_harmonics, np_fft_fft2.
  rewrite He. reflexivity.
Qed.

(** The inverse transform of a crop without an axis of length zero. *)
Lemma np_fft_ifft2_returns `{num : Numerics} (a : ndarray px) :
  is_empty a = false -> np_fft_ifft2 a = Ok (ifft2 a).
Proof. intros He. unfold np_fft_ifft2. rewrite He. reflexivity. Qed.

Lemma np_fft_ifft2_inv `{num : Numerics} (a b : ndarray px) :
  np_fft_ifft2 a = Ok b -> is_empty a = false /\ b = ifft2 a.
Proof.
  unfold np_fft_ifft2. destruct (is_empty a); [discriminate|].
  intros Hb. injection Hb as <-. split; reflexivity.
Qed.

(** What a returned harmonic set is made of. *)
Lemma harmonic_images_inv `{num : Numerics} (img : ndarray px)
    (harmonicPeriod : Z * Z) (searchRegion : Z) (h00 h01 h10 : ndarray px) :
  let imgFFT := fftshift (fft2 img) in
  single_grating_harmonic_images img harmonicPeriod searchRegion
    = Ok (h00, h01, h10) ->
  is_empty img = false
  /\ exists c00 c01 c10,
       extract_harmonic imgFFT harmonicPeriod (0, 0) searchRegion true = Ok c00
       /\ extract_harmonic imgFFT harmonicPeriod (0, 1) searchRegion true
          = Ok c01
       /\ extract_harmonic imgFFT harmonicPeriod (1, 0) searchRegion true
          = Ok c10
       /\ is_empty (ifftshift c00) = false
       /\ h00 = ifft2 (ifftshift c00)
       /\ h01 = (if np_all (arr_map np_isfinite c01)
                 then ifft2 (ifftshift c01) else c01)
       /\ h10 = (if np_all (arr_map np_isfinite c10)
                 then ifft2 (ifftshift c10) else c10).
Proof.
  intros imgFFT Hset.
  destruct (is_empty img) eqn:He;
    [rewrite harmonic_images_of_empty in Hset by exact He; discriminate|].
  split; [reflexivity|].
  rewrite (harmonic_images_of_transform img harmonicPeriod searchRegion He)
    in Hset.
  cbv zeta in Hset. fold imgFFT in Hset.
  destruct (extract_harmonic imgFFT harmonicPeriod (0, 0) searchRegion true)
    as [e|c00] eqn:E00; cbn [bind] in Hset; [discriminate|].
  destruct (extract_harmonic imgFFT harmonicPeriod (0, 1) searchRegion true)
    as [e|c01] eqn:E01; cbn [bind] in Hset; [discriminate|].
  destruct (extract_harmonic imgFFT harmonicPeriod (1, 0) searchRegion true)
    as [e|c10] eqn:E10; cbn [bind] in Hset; [discriminate|].
  destruct (np_fft_ifft2 (ifftshift c00)) as [e|i00] eqn:I00;
    cbn [bind] in Hset; [discriminate|].
  apply np_fft_ifft2_inv in I00. destruct I00 as [N00 ->].
  exists c00, c01, c10. repeat (split; [reflexivity|]).
  split; [exact N00|].
  destruct (np_all (arr_map np_isfinite c01));
    [destruct (np_fft_ifft2 (ifftshift c01)) as [e|i01] eqn:I01;
       cbn [bind] in Hset; [discriminate|];
     apply np_fft_ifft2_inv in I01; destruct I01 as [_ ->]
    |cbn [bind] in Hset];
    (destruct (np_all (arr_map np_isfinite c10));
     [destruct (np_fft_ifft2 (ifftshift c10)) as [e|i10] eqn:I10;
        cbn [bind] in Hset; [discriminate|];
      apply np_fft_ifft2_inv in I10; destruct I10 as [_ ->]
     |cbn [bind] in Hset]);
    injection Hset as <- <- <-; repeat split; reflexivity.
Qed.

(** The two functions built on [extract_harmonic] inherit the adjustment,
    the extent being that of the transformed image. *)
Lemma harmonic_images_nonpositive_period `{num : Numerics} (img : ndarray px)
    (periodVert periodHor searchRegion : Z) :
  let imgFFT := fftshift (fft2 img) in
  (periodVert <= 0 ->
   single_grating_harmonic_images img (periodVert, periodHor) searchRegion
   = single_grating_harmonic_images img
       (Z.of_nat (nrows imgFFT), periodHor) searchRegion)
  /\ (periodHor <= 0 ->
      single_grating_harmonic_images img (periodVert, periodHor) searchRegion
      = single_grating_harmonic_images img
          (periodVert, Z.of_nat (ncols imgFFT)) searchRegion).
Proof.
  intros imgFFT.
  destruct (is_empty img) eqn:He;
    [split; intros _; rewrite !harmonic_images_of_empty by exact He;
     reflexivity|].
  split; intros Hp; rewrite !harmonic_images_of_transform by exact He;
    cbv zeta; fold imgFFT.
  - rewrite !(proj1 (extract_harmonic_nonpositive_period imgFFT periodVert
                       periodHor _ searchRegion true) Hp).
    reflexivity.
  - rewrite !(proj2 (extract_harmonic_nonpositive_period imgFFT periodVert
                       periodHor _ searchRegion true) Hp).
    reflexivity.
Qed.

Lemma grating_analyses_nonpositive_period `{num : Numerics} (img ref : ndarray px)
    (periodVert periodHor unwrapFlag : Z) :
  shape (fftshift (fft2 ref)) = shape (fftshift (fft2 img)) ->
  let imgFFT := fftshift (fft2 img) in
  (periodVert <= 0 ->
   single_2Dgrating_analyses img (Some ref) (periodVert, periodHor) unwrapFlag
   = single_2Dgrating_analyses img (Some ref)
       (Z.of_nat (nrows imgFFT), periodHor) unwrapFlag)
  /\ (periodHor <= 0 ->
      single_2Dgrating_analyses img (Some ref) (periodVert, periodHor)
        unwrapFlag
      = single_2Dgrating_analyses img (Some ref)
          (periodVert, Z.of_nat (ncols imgFFT)) unwrapFlag).
Proof.
  intros Hshape imgFFT. unfold shape in Hshape.
  injection Hshape as HsR HsC.
  apply Nat2Z.inj in HsR. apply Nat2Z.inj in HsC.
  split; intros Hp; unfold single_2Dgrating_analyses.
  - rewrite (proj1 (harmonic_images_nonpositive_period img periodVert
                      periodHor 10) Hp).
    rewrite (proj1 (harmonic_images_nonpositive_period ref periodVert
                      periodHor 10) Hp).
    fold imgFFT. rewrite HsR. reflexivity.
  - rewrite (proj2 (harmonic_images_nonpositive_period img periodVert
                      periodHor 10) Hp).
    rewrite (proj2 (harmonic_images_nonpositive_period ref periodVert
                      periodHor 10) Hp).
    fold imgFFT. rewrite HsC. reflexivity.
Qed.

(** C5: every function that takes a period is to treat a non-positive
    [periodVert] as the row count (and a non-positive [periodHor] as the
    column count), as the docstring of each of them says.
    [visib_1st_harmonics] hands the period to the peak locator as it is:
    on the 4 x 4 image of ones, whose shifted transform is 4 at (2, 2) and
    0 elsewhere, the period (0, 2) gives the visibilities (2, 0) and the
    period (4, 2) gives (0, 0). *)
Theorem visib_1st_harmonics_keeps_nonpositive_period :
  let num := RealPixels.numerics RealPixels.table_ones44 (fun a => a) in
  let img := RealPixels.constant 4 4 1 in
  shape img = (4, 4)
  /\ fftshift (fft2 img) = RealPixels.spike 4 4 2 2 (Fin 4)
  /\ visib_1st_harmonics img (0, 2) 1 = Ok (Fin 2, Fin 0)
  /\ visib_1st_harmonics img (4, 2) 1 = Ok (Fin 0, Fin 0)
  /\ visib_1st_harmonics img (0, 2) 1 <> visib_1st_harmonics img (4, 2) 1.
Proof.
  cbv zeta. repeat split; try (vm_compute; reflexivity).
  vm_compute. discriminate.
Qed.

(** ** The harmonic set *)

Lemma np_all_false_get2 (a : ndarray bool) :
  np_all a = false <-> exists i j, get2 a i j = Some false.
Proof.
  split.
  - intros Hf. unfold np_all in Hf.
    assert (exists r, In r (rows a) /\ forallb (fun b => b) r = false)
      as [r [Hr Hrf]].
    { induction (rows a) as [|r rs IH]; [discriminate|].
      cbn in Hf. apply andb_false_iff in Hf. destruct Hf as [Hf|Hf].
      - exists r. split; [left; reflexivity|exact Hf].
      - destruct (IH Hf) as [r' [Hin Hr']]. exists r'.
        split; [right; exact Hin|exact Hr']. }
    assert (In false r) as Hin.
    { clear Hr. induction r as [|b r IH]; [discriminate|].
      cbn in Hrf. destruct b; [right; apply IH; exact Hrf|left; reflexivity]. }
    apply In_nth_error in Hr. destruct Hr as [i Hi].
    apply In_nth_error in Hin. destruct Hin as [j Hj].
    exists i, j. unfold get2. rewrite Hi. exact Hj.
  - intros [i [j Hij]]. destruct (np_all a) eqn:E; [|reflexivity].
    rewrite np_all_get2 in E. specialize (E i j false Hij). discriminate.
Qed.

(** C6: in [single_grating_harmonic_images] the (0,0) crop is always
    inverse-transformed; each of the (0,1) and (1,0) crops is
    inverse-transformed when all its values are finite, and is returned as
    it is, the raw frequency-domain crop, when one of its values is NaN or
    infinite.  The inverse transform is that of numpy, which raises on an
    array with an axis of length zero: the three images are returned when
    the crops it is applied to have none, and the call ends in
    [ValueError] when the (0,0) crop has one. *)
Theorem harmonic_images_pass_nonfinite_crops `{num : Numerics}
    (img : ndarray px) (harmonicPeriod : Z * Z) (searchRegion : Z)
    (imgFFT00 imgFFT01 imgFFT10 : ndarray px) :
  let imgFFT := fftshift (fft2 img) in
  let all_finite (crop : ndarray px) :=
    forall i j p, get2 crop i j = Some p -> np_isfinite p = true in
  let some_nonfinite (crop : ndarray px) :=
    exists i j p, get2 crop i j = Some p /\ np_isfinite p = false in
  is_empty img = false ->
  extract_harmonic imgFFT harmonicPeriod (0, 0) searchRegion true
    = Ok imgFFT00 ->
  extract_harmonic imgFFT harmonicPeriod (0, 1) searchRegion true
    = Ok imgFFT01 ->
  extract_harmonic imgFFT harmonicPeriod (1, 0) searchRegion true
    = Ok imgFFT10 ->
  (is_empty (ifftshift imgFFT00) = false ->
   (all_finite imgFFT01 -> is_empty (ifftshift imgFFT01) = false) ->
   (all_finite imgFFT10 -> is_empty (ifftshift imgFFT10) = false) ->
   exists img00 img01 img10,
     single_grating_harmonic_images img harmonicPeriod searchRegion
       = Ok (img00, img01, img10)
     /\ img00 = ifft2 (ifftshift imgFFT00)
     /\ (all_finite imgFFT01 -> img01 = ifft2 (ifftshift imgFFT01))
     /\ (some_nonfinite imgFFT01 -> img01 = imgFFT01)
     /\ (all_finite imgFFT10 -> img10 = ifft2 (ifftshift imgFFT10))
     /\ (some_nonfinite imgFFT10 -> img10 = imgFFT10))
  /\ (is_empty (ifftshift imgFFT00) = true ->
      single_grating_harmonic_images img harmonicPeriod searchRegion
        = Err ValueError).
Proof.
  intros imgFFT all_finite some_nonfinite He H00 H01 H10.
  assert (forall crop, all_finite crop <->
            np_all (arr_map np_isfinite crop) = true) as Hall.
  { intros crop. rewrite np_all_get2. split.
    - intros Hc i j b Hb. rewrite get2_arr_map in Hb.
      destruct (get2 crop i j) as [p|] eqn:Ep; [|discriminate].
      cbn in Hb. injection Hb as <-. eapply Hc; eauto.
    - intros Hc i j p Hp. apply (Hc i j). rewrite get2_arr_map, Hp.
      reflexivity. }
  assert (forall crop, some_nonfinite crop ->
            np_all (arr_map np_isfinite crop) = false) as Hsome.
  { intros crop [i [j [p [Hp Hnf]]]]. apply np_all_false_get2.
    exists i, j. rewrite get2_arr_map, Hp. cbn. rewrite Hnf. reflexivity. }
  rewrite (harmonic_images_of_transform img harmonicPeriod searchRegion He).
  cbv zeta. fold imgFFT. rewrite H00, H01, H10. cbn [bind].
  split.
  - intros E00 E01 E10.
    rewrite (np_fft_ifft2_returns _ E00). cbn [bind].
    exists (ifft2 (ifftshift imgFFT00)).
    destruct (np_all (arr_map np_isfinite imgFFT01)) eqn:A01;
      destruct (np_all (arr_map np_isfinite imgFFT10)) eqn:A10;
      try rewrite (np_fft_ifft2_returns _ (E01 (proj2 (Hall _) A01)));
      try rewrite (np_fft_ifft2_returns _ (E10 (proj2 (Hall _) A10)));
      cbn [bind]; do 2 eexists; (split; [reflexivity|]);
      (split; [reflexivity|]);
      repeat split; intros Hc;
      try reflexivity;
      try (apply Hall in Hc; congruence);
      try (apply Hsome in Hc; congruence).
  - intros E00. unfold np_fft_ifft2 at 1. rewrite E00. reflexivity.
Qed.

Lemma harmonic_images_pass_nonfinite_crops_witness :
  let num := RealPixels.numerics (fun _ => RealPixels.spike 8 8 0 1 PInf)
                                 (fun a => a) in
  let imgFFT := RealPixels.spike 8 8 4 5 PInf in
  exists img00 img01 img10,
    single_grating_harmonic_images (RealPixels.constant 8 8 1) (2, 2) 4
      = Ok (img00, img01, img10)
    /\ img00 = ifft2 (ifftshift (slice2 imgFFT 3 5 3 5))
    /\ img01 = slice2 imgFFT 3 5 5 7
    /\ img10 = ifft2 (ifftshift (slice2 imgFFT 5 7 3 5)).
Proof.
  intros num imgFFT.
  destruct (harmonic_images_pass_nonfinite_crops (num := num)
              (RealPixels.constant 8 8 1) (2, 2) 4
              (slice2 imgFFT 3 5 3 5) (slice2 imgFFT 3 5 5 7)
              (slice2 imgFFT 5 7 3 5)) as [Hreturned _];
    try (vm_compute; reflexivity).
  destruct Hreturned
    as [img00 [img01 [img10 [Hset [H00 [_ [H01 [H10 _]]]]]]]];
    try (intros _; vm_compute; reflexivity); try (vm_compute; reflexivity).
  exists img00, img01, img10.
  split; [exact Hset|]. split; [exact H00|]. split.
  - apply H01. exists 1%nat, 0%nat, PInf. split; reflexivity.
  - apply H10. intros i j p Hp.
    destruct i as [|[|i]]; destruct j as [|[|j]];
      try (vm_compute in Hp; injection Hp as <-; reflexivity);
      try (destruct i; discriminate Hp); try (destruct j; discriminate Hp).
Defined.

(** ** The visibility estimator *)

Lemma getitem_of_nat {A} (a : ndarray A) (i j : nat) (x : A) :
  get2 a i j = Some x -> getitem a (Z.of_nat i) (Z.of_nat j) = Ok x.
Proof.
  intros Hg. unfold getitem.
  assert ((Z.of_nat i <? 0) = false) as Ei by (apply Z.ltb_ge; lia).
  assert ((Z.of_nat j <? 0) = false) as Ej by (apply Z.ltb_ge; lia).
  rewrite !Ei, !Ej. cbn [orb]. rewrite !Nat2Z.id, Hg. reflexivity.
Qed.

(** C8: [visib_1st_harmonics] transforms the image once, has the peak
    locator find the detected peaks of the harmonics (0,0), (1,0) and
    (0,1) in the transformed image, reads that image at the three places
    found, without any crop, and returns the pair
    [(2 * |peak10| / |peak00|, 2 * |peak01| / |peak00|)].  The transformed
    image has the shape of the image, as numpy's transforms give it. *)
Theorem visib_1st_harmonics_ratio `{num : Numerics} (img : ndarray px)
    (harmonicPeriod : Z * Z) (searchRegion : Z) :
  let imgFFT := fftshift (fft2 img) in
  let locate (harV harH : Z) :=
    _idxPeak_ij_exp imgFFT harV harH (fst harmonicPeriod) (snd harmonicPeriod)
      searchRegion in
  shape imgFFT = shape img ->
  rectangular imgFFT = true -> finite_magnitudes imgFFT = true ->
  (0 < nrows imgFFT)%nat -> (0 < ncols imgFFT)%nat ->
  exists i00 j00 i10 j10 i01 j01 p00 p10 p01,
    locate 0 0 = Ok (Z.of_nat i00, Z.of_nat j00)
    /\ locate 1 0 = Ok (Z.of_nat i10, Z.of_nat j10)
    /\ locate 0 1 = Ok (Z.of_nat i01, Z.of_nat j01)
    /\ get2 imgFFT i00 j00 = Some p00
    /\ get2 imgFFT i10 j10 = Some p10
    /\ get2 imgFFT i01 j01 = Some p01
    /\ visib_1st_harmonics img harmonicPeriod searchRegion
       = Ok (f_div (f_mul (Fin 2) (np_abs p10)) (np_abs p00),
             f_div (f_mul (Fin 2) (np_abs p01)) (np_abs p00)).
Proof.
  intros imgFFT locate Hshape Hrect Hfin Hr Hc.
  assert (is_empty img = false) as He.
  { unfold shape in Hshape. injection Hshape as HsR HsC.
    apply is_empty_false. lia. }
  destruct (idxPeak_ij_exp_total imgFFT 0 0 (fst harmonicPeriod)
              (snd harmonicPeriod) searchRegion Hrect Hfin Hr Hc)
    as [i00 [j00 [p00 [L00 G00]]]].
  destruct (idxPeak_ij_exp_total imgFFT 1 0 (fst harmonicPeriod)
              (snd harmonicPeriod) searchRegion Hrect Hfin Hr Hc)
    as [i10 [j10 [p10 [L10 G10]]]].
  destruct (idxPeak_ij_exp_total imgFFT 0 1 (fst harmonicPeriod)
              (snd harmonicPeriod) searchRegion Hrect Hfin Hr Hc)
    as [i01 [j01 [p01 [L01 G01]]]].
  exists i00, j00, i10, j10, i01, j01, p00, p10, p01.
  repeat (split; [assumption|]).
  rewrite (visib_1st_harmonics_of_transform img harmonicPeriod searchRegion He).
  cbv zeta. fold imgFFT.
  rewrite L00, L10, L01. cbn [bind fst snd].
  rewrite (getitem_of_nat _ _ _ _ G00), (getitem_of_nat _ _ _ _ G10),
          (getitem_of_nat _ _ _ _ G01).
  reflexivity.
Qed.

Lemma visib_1st_harmonics_ratio_witness :
  let num := RealPixels.numerics RealPixels.table_ones44 (fun a => a) in
  exists p00 p10 p01,
    visib_1st_harmonics (RealPixels.constant 4 4 1) (2, 2) 1
    = Ok (f_div (f_mul (Fin 2) (np_abs p10)) (np_abs p00),
          f_div (f_mul (Fin 2) (np_abs p01)) (np_abs p00)).
Proof.
  intros num.
  destruct (visib_1st_harmonics_ratio (num := num)
              (RealPixels.constant 4 4 1) (2, 2) 1)
    as [i00 [j00 [i10 [j10 [i01 [j01 [p00 [p10 [p01 H]]]]]]]]];
    try (vm_compute; reflexivity); try (cbn; lia).
  exists p00, p10, p01. apply H.
Defined.

(** ** Element-wise operators on arrays of one shape *)

Lemma conformable_via {A B C} (a : ndarray A) (b : ndarray B) (c : ndarray C) :
  conformable a b -> conformable a c -> conformable b c.
Proof. unfold conformable. intuition congruence. Qed.

Lemma conformable_refl {A} (a : ndarray A) :
  rectangular a = true -> conformable a a.
Proof. unfold conformable. auto. Qed.

Lemma stretch_id {A} (k : nat) (l : list A) : length l = k -> stretch k l = l.
Proof.
  intros Hl. destruct l as [|x [|y l]]; try reflexivity.
  cbn in Hl. subst k. reflexivity.
Qed.

Lemma broadcast_to_id {A} (a : ndarray A) :
  rectangular a = true -> broadcast_to (nrows a) (ncols a) a = a.
Proof.
  intros Hrect. destruct a as [c rs]. unfold broadcast_to, nrows.
  cbn [rows ncols] in *. f_equal.
  unfold rectangular in Hrect. cbn [rows ncols] in Hrect.
  rewrite forallb_forall in Hrect.
  assert (map (stretch c) rs = rs) as ->.
  { rewrite <- (map_id rs) at 2. apply map_ext_in. intros r Hr.
    apply stretch_id, Nat.eqb_eq, Hrect, Hr. }
  apply stretch_id. reflexivity.
Qed.

Lemma bdim_same (n : nat) : bdim n n = Some n.
Proof. unfold bdim. rewrite Nat.eqb_refl. reflexivity. Qed.

(** On two arrays of one shape a numpy operator broadcasts nothing. *)
Lemma np_binop_conformable {A B C} (f : A -> B -> C) (a : ndarray A)
    (b : ndarray B) :
  conformable a b -> np_binop f a b = Ok (arr_map2 f a b).
Proof.
  intros [Ha [Hb [Hr Hc]]]. unfold np_binop.
  rewrite <- Hr, <- Hc, !bdim_same.
  rewrite (broadcast_to_id a Ha). rewrite Hr, Hc, (broadcast_to_id b Hb).
  reflexivity.
Qed.

Lemma arr_map_rectangular {A B} (f : A -> B) (a : ndarray A) :
  rectangular a = true -> rectangular (arr_map f a) = true.
Proof.
  unfold rectangular, arr_map. cbn [rows ncols]. rewrite !forallb_forall.
  intros Hrect r Hr. apply in_map_iff in Hr. destruct Hr as [r' [<- Hr']].
  rewrite length_map. apply Hrect, Hr'.
Qed.

Lemma arr_map_conformable {A B C D} (f : A -> C) (g : B -> D)
    (a : ndarray A) (b : ndarray B) :
  conformable a b -> conformable (arr_map f a) (arr_map g b).
Proof.
  intros [Ha [Hb [Hr Hc]]]. unfold conformable.
  split; [apply arr_map_rectangular; exact Ha|].
  split; [apply arr_map_rectangular; exact Hb|].
  unfold nrows, arr_map in *. cbn [rows ncols]. rewrite !length_map. auto.
Qed.

Lemma length_zip_with {A B C} (f : A -> B -> C) (l : list A) (l' : list B) :
  length (zip_with f l l') = Nat.min (length l) (length l').
Proof. unfold zip_with. rewrite length_map, length_combine. reflexivity. Qed.

Lemma arr_map2_rectangular {A B C} (f : A -> B -> C) (a : ndarray A)
    (b : ndarray B) :
  rectangular a = true -> rectangular b = true ->
  rectangular (arr_map2 f a b) = true.
Proof.
  unfold rectangular, arr_map2, zip_with at 1. cbn [rows ncols].
  rewrite !forallb_forall. intros Ha Hb r Hr.
  apply in_map_iff in Hr. destruct Hr as [[r1 r2] [<- Hin]]. cbn [fst snd].
  rewrite length_zip_with.
  pose proof (in_combine_l _ _ _ _ Hin) as H1.
  pose proof (in_combine_r _ _ _ _ Hin) as H2.
  apply Ha, Nat.eqb_eq in H1. apply Hb, Nat.eqb_eq in H2.
  rewrite H1, H2. apply Nat.eqb_refl.
Qed.

Lemma arr_map2_conformable {A B C A' B' C'} (f : A -> B -> C)
    (g : A' -> B' -> C') (a : ndarray A) (b : ndarray B)
    (a' : ndarray A') (b' : ndarray B') :
  conformable a b -> conformable a' b' -> conformable a a' ->
  conformable (arr_map2 f a b) (arr_map2 g a' b').
Proof.
  intros [Ha [Hb [Hr Hc]]] [Ha' [Hb' [Hr' Hc']]] [_ [_ [Hr'' Hc'']]].
  unfold conformable.
  split; [apply arr_map2_rectangular; assumption|].
  split; [apply arr_map2_rectangular; assumption|].
  unfold nrows, arr_map2 in *. cbn [rows ncols].
  rewrite !length_zip_with. lia.
Qed.

Lemma arr_map2_conformable_left {A B C} (f : A -> B -> C) (a : ndarray A)
    (b : ndarray B) :
  conformable a b -> conformable a (arr_map2 f a b).
Proof.
  intros [Ha [Hb [Hr Hc]]]. unfold conformable.
  split; [exact Ha|].
  split; [apply arr_map2_rectangular; assumption|].
  unfold nrows, arr_map2 in *. cbn [rows ncols].
  rewrite !length_zip_with. lia.
Qed.

(** ** The two-dimensional grating analysis *)

(** The seven maps, when the six harmonic images share one shape. *)
Lemma grating_analyses_conformable `{num : Numerics} (img ref : ndarray px)
    (harmonicPeriod : Z * Z) (unwrapFlag : Z)
    (h00 h01 h10 r00 r01 r10 : ndarray px) :
  let ratio (h r : ndarray px) :=
    arr_map2 f_div (arr_map np_abs h) (arr_map np_abs r) in
  let phase (h r : ndarray px) :=
    arr_map2 f_sub (arr_map np_angle h) (arr_map np_angle r) in
  let unwrap (a : ndarray float64) :=
    if unwrapFlag =? 1 then unwrap_phase a else a in
  single_grating_harmonic_images img harmonicPeriod 10 = Ok (h00, h01, h10) ->
  single_grating_harmonic_images ref harmonicPeriod 10 = Ok (r00, r01, r10) ->
  conformable h00 h01 -> conformable h00 h10 ->
  conformable h00 r00 -> conformable h00 r01 -> conformable h00 r10 ->
  single_2Dgrating_analyses img (Some ref) harmonicPeriod unwrapFlag
  = Ok [ratio h00 r00; ratio h01 r01; ratio h10 r10;
        arr_map2 f_div (ratio h01 r01) (ratio h00 r00);
        arr_map2 f_div (ratio h10 r10) (ratio h00 r00);
        unwrap (phase h01 r01); unwrap (phase h10 r10)]
  /\ (forall h r i j,
        get2 (ratio h r) i j =
        match get2 h i j, get2 r i j with
        | Some x, Some y => Some (f_div (np_abs x) (np_abs y))
        | _, _ => None
        end)
  /\ (forall h r i j,
        get2 (phase h r) i j =
        match get2 h i j, get2 r i j with
        | Some x, Some y => Some (f_sub (np_angle x) (np_angle y))
        | _, _ => None
        end)
  /\ (unwrapFlag = 1 -> forall a, unwrap a = unwrap_phase a)
  /\ (unwrapFlag <> 1 -> forall a, unwrap a = a).
Proof.
  intros ratio phase unwrap Himg Href H01 H10 R00 R01 R10.
  pose proof (conformable_via _ _ _ H01 R01) as C01.
  pose proof (conformable_via _ _ _ H10 R10) as C10.
  assert (conformable h00 h00) as H00 by (apply conformable_refl, H01).
  pose proof (conformable_via _ _ _ H01 H00) as X01.
  pose proof (conformable_via _ _ _ H10 H00) as X10.
  split.
  - unfold single_2Dgrating_analyses.
    rewrite Himg. cbn [bind]. rewrite Href. cbn [bind].
    rewrite (np_binop_conformable f_div (arr_map np_abs h00)
               (arr_map np_abs r00))
      by (apply arr_map_conformable; exact R00).
    cbn [bind].
    rewrite (np_binop_conformable f_div (arr_map np_abs h01)
               (arr_map np_abs r01))
      by (apply arr_map_conformable; exact C01).
    cbn [bind].
    rewrite (np_binop_conformable f_div (arr_map np_abs h10)
               (arr_map np_abs r10))
      by (apply arr_map_conformable; exact C10).
    cbn [bind].
    fold (ratio h00 r00) (ratio h01 r01) (ratio h10 r10).
    rewrite (np_binop_conformable f_div (ratio h01 r01) (ratio h00 r00))
      by (apply arr_map2_conformable; apply arr_map_conformable; assumption).
    cbn [bind].
    rewrite (np_binop_conformable f_div (ratio h10 r10) (ratio h00 r00))
      by (apply arr_map2_conformable; apply arr_map_conformable; assumption).
    cbn [bind].
    rewrite (np_binop_conformable f_sub (arr_map np_angle h01)
               (arr_map np_angle r01))
      by (apply arr_map_conformable; exact C01).
    cbn [bind].
    rewrite (np_binop_conformable f_sub (arr_map np_angle h10)
               (arr_map np_angle r10))
      by (apply arr_map_conformable; exact C10).
    cbn [bind]. reflexivity.
  - split; [|split; [|split]].
    + intros h r i j. unfold ratio.
      rewrite get2_arr_map2, !get2_arr_map.
      destruct (get2 h i j), (get2 r i j); reflexivity.
    + intros h r i j. unfold phase.
      rewrite get2_arr_map2, !get2_arr_map.
      destruct (get2 h i j), (get2 r i j); reflexivity.
    + intros -> a. reflexivity.
    + intros Hne a. unfold unwrap.
      destruct (unwrapFlag =? 1) eqn:E; [|reflexivity].
      apply Z.eqb_eq in E. contradiction.
Qed.

(** ** The analysis without a reference *)

Lemma zip_with_repeat {A B C} (f : A -> B -> C) (l : list A) (v : B) :
  zip_with f l (repeat v (length l)) = map (fun x => f x v) l.
Proof.
  unfold zip_with. induction l as [|x l IH]; [reflexivity|].
  cbn. f_equal. exact IH.
Qed.

Lemma arr_map_arr_map {A B C} (f : B -> C) (g : A -> B) (a : ndarray A) :
  arr_map f (arr_map g a) = arr_map (fun x => f (g x)) a.
Proof.
  unfold arr_map. cbn [rows ncols]. f_equal.
  rewrite map_map. apply map_ext. intros r. apply map_map.
Qed.

Lemma arr_map_fixed {A} (f : A -> A) (a : ndarray A) :
  (forall x, f x = x) -> arr_map f a = a.
Proof.
  intros Hf. destruct a as [c rs]. unfold arr_map. cbn [rows ncols]. f_equal.
  rewrite <- (map_id rs) at 2. apply map_ext. intros r.
  rewrite <- (map_id r) at 2. apply map_ext. exact Hf.
Qed.

Lemma np_full_conformable {A B C} (a : ndarray A) (r c : Z) (z : B)
    (g : B -> C) :
  rectangular a = true -> Z.to_nat r = nrows a -> Z.to_nat c = ncols a ->
  conformable a (arr_map g (np_full r c z)).
Proof.
  intros Ha Hr Hc. unfold conformable. split; [exact Ha|]. split; [|split].
  - apply arr_map_rectangular. unfold rectangular, np_full. cbn [rows ncols].
    apply forallb_forall. intros row Hrow. apply repeat_spec in Hrow.
    subst row. rewrite repeat_length. apply Nat.eqb_refl.
  - unfold nrows, arr_map, np_full. cbn [rows].
    rewrite length_map, repeat_length. auto.
  - unfold arr_map, np_full. cbn [ncols]. auto.
Qed.

(** Against an array filled with one value, of the shape of [a], an
    operator that value is neutral for gives [a] back. *)
Lemma np_binop_against_full {A B C} (f : A -> C -> A) (a : ndarray A)
    (r c : Z) (z : B) (g : B -> C) :
  rectangular a = true -> Z.to_nat r = nrows a -> Z.to_nat c = ncols a ->
  (forall x, f x (g z) = x) ->
  np_binop f a (arr_map g (np_full r c z)) = Ok a.
Proof.
  intros Ha Hr Hc Hf.
  rewrite np_binop_conformable by (apply np_full_conformable; assumption).
  f_equal. rewrite <- (arr_map_fixed (fun x => f x (g z)) a Hf) at 2.
  destruct a as [ca rs]. unfold arr_map2, arr_map, np_full, nrows in *.
  cbn [rows ncols] in *. rewrite Hc, Hr, Nat.min_id. f_equal.
  rewrite !map_repeat, zip_with_repeat.
  apply map_ext_in. intros row Hrow.
  unfold rectangular in Ha. cbn [rows ncols] in Ha.
  rewrite forallb_forall in Ha. apply Ha, Nat.eqb_eq in Hrow.
  rewrite <- Hrow. apply zip_with_repeat.
Qed.

(** The seven maps without a reference, when the three harmonic images
    share one shape. *)
Lemma grating_analyses_raw_conformable `{num : Numerics} (img : ndarray px)
    (harmonicPeriod : Z * Z) (unwrapFlag : Z) (h00 h01 h10 : ndarray px) :
  let ones :=
    arr_map np_exp (np_full (fst (shape h00)) (snd (shape h00)) px_zero) in
  let unwrap (a : ndarray float64) :=
    if unwrapFlag =? 1 then unwrap_phase a else a in
  np_abs (np_exp px_zero) = Fin 1 -> np_angle (np_exp px_zero) = Fin 0 ->
  (forall x, f_div x (Fin 1) = x) -> (forall x, f_sub x (Fin 0) = x) ->
  single_grating_harmonic_images img harmonicPeriod 10 = Ok (h00, h01, h10) ->
  conformable h00 h01 -> conformable h00 h10 ->
  single_2Dgrating_analyses img None harmonicPeriod unwrapFlag
  = Ok [arr_map np_abs h00; arr_map np_abs h01; arr_map np_abs h10;
        arr_map2 f_div (arr_map np_abs h01) (arr_map np_abs h00);
        arr_map2 f_div (arr_map np_abs h10) (arr_map np_abs h00);
        unwrap (arr_map np_angle h01); unwrap (arr_map np_angle h10)]
  /\ conformable h00 ones
  /\ (forall i j p, get2 ones i j = Some p ->
        np_abs p = Fin 1 /\ np_angle p = Fin 0).
Proof.
  intros ones unwrap Habs Hangle Hdiv Hsub Himg H01 H10.
  assert (conformable h00 h00) as H00 by (apply conformable_refl, H01).
  pose proof (conformable_via _ _ _ H01 H00) as X01.
  pose proof (conformable_via _ _ _ H10 H00) as X10.
  assert (forall (h : ndarray px) (f : float64 -> float64 -> float64)
                 (g : px -> float64) (v : float64),
            conformable h00 h -> g (np_exp px_zero) = v ->
            (forall x, f x v = x) ->
            np_binop f (arr_map g h) (arr_map g ones) = Ok (arr_map g h))
    as Hraw.
  { intros h f g v [_ [Hh [Hr Hc]]] Hg Hf. unfold ones.
    rewrite arr_map_arr_map. apply np_binop_against_full.
    - apply arr_map_rectangular, Hh.
    - unfold shape, nrows, arr_map. cbn [fst rows].
      rewrite Nat2Z.id, length_map. exact Hr.
    - unfold shape, arr_map. cbn [snd ncols]. rewrite Nat2Z.id. exact Hc.
    - intros x. rewrite Hg. apply Hf. }
  split; [|split].
  - unfold single_2Dgrating_analyses.
    rewrite Himg. cbn [bind fst]. unfold shape at 1.
    change (arr_map np_exp
              (np_full (Z.of_nat (nrows h00)) (Z.of_nat (ncols h00)) px_zero))
      with ones.
    cbn [bind].
    rewrite (Hraw h00 f_div np_abs (Fin 1) H00 Habs Hdiv). cbn [bind].
    rewrite (Hraw h01 f_div np_abs (Fin 1) H01 Habs Hdiv). cbn [bind].
    rewrite (Hraw h10 f_div np_abs (Fin 1) H10 Habs Hdiv). cbn [bind].
    rewrite (np_binop_conformable f_div (arr_map np_abs h01)
               (arr_map np_abs h00))
      by (apply arr_map_conformable; exact X01).
    cbn [bind].
    rewrite (np_binop_conformable f_div (arr_map np_abs h10)
               (arr_map np_abs h00))
      by (apply arr_map_conformable; exact X10).
    cbn [bind].
    rewrite (Hraw h01 f_sub np_angle (Fin 0) H01 Hangle Hsub). cbn [bind].
    rewrite (Hraw h10 f_sub np_angle (Fin 0) H10 Hangle Hsub). cbn [bind].
    reflexivity.
  - unfold ones, shape. cbn [fst snd].
    apply np_full_conformable; [apply H01 | apply Nat2Z.id | apply Nat2Z.id].
  - intros i j p Hp. unfold ones in Hp. rewrite get2_arr_map in Hp.
    destruct (get2 _ i j) as [z|] eqn:Ez; [|discriminate].
    cbn in Hp. injection Hp as <-.
    assert (z = px_zero) as ->; [|split; assumption].
    unfold get2, np_full in Ez. cbn [rows] in Ez.
    destruct (nth_error _ i) as [row|] eqn:Er; [|discriminate].
    apply nth_error_In, repeat_spec in Er. subst row.
    apply nth_error_In, repeat_spec in Ez. exact Ez.
Qed.

(** ** The shapes of the harmonic images *)

Lemma conformable_of_shape {A B} (a : ndarray A) (b : ndarray B) :
  rectangular a = true -> rectangular b = true -> shape a = shape b ->
  conformable a b.
Proof.
  intros Ha Hb Hs. unfold shape in Hs. injection Hs as Hr Hc.
  unfold conformable. repeat split; auto using Nat2Z.inj.
Qed.

Lemma conformable_shape {A B} (a : ndarray A) (b : ndarray B) :
  conformable a b -> shape a = shape b.
Proof. intros [_ [_ [Hr Hc]]]. unfold shape. rewrite Hr, Hc. reflexivity. Qed.

(** The locator returns only on an image with a pixel. *)
Lemma idxPeak_ij_exp_nonempty `{num : Numerics} (imgFFT : ndarray px)
    (harV harH periodVert periodHor searchRegion : Z) (p : Z * Z) :
  rectangular imgFFT = true ->
  _idxPeak_ij_exp imgFFT harV harH periodVert periodHor searchRegion = Ok p ->
  (0 < nrows imgFFT)%nat /\ (0 < ncols imgFFT)%nat.
Proof.
  intros Hrect Hloc. rewrite idxPeak_ij_exp_unfold in Hloc.
  unfold np_max in Hloc.
  destruct (concat (rows (masked_intensity imgFFT harV harH periodVert
                            periodHor searchRegion))) as [|x l] eqn:Ec;
    [cbn [bind] in Hloc; discriminate|].
  assert (In x (concat (rows (masked_intensity imgFFT harV harH periodVert
                                periodHor searchRegion)))) as Hin
    by (rewrite Ec; left; reflexivity).
  apply in_concat_get2 in Hin. destruct Hin as [i [j Hij]].
  rewrite masked_intensity_get2 in Hij by exact Hrect.
  destruct (get2 imgFFT i j) as [q|] eqn:Eq; [|discriminate].
  destruct (get2_some_bounds _ _ _ _ Hrect Eq). lia.
Qed.

Lemma resolve_period_extent_positive (period extent : Z) :
  0 < extent -> 0 < resolve_period period extent.
Proof.
  unfold resolve_period. intros He.
  destruct (period <=? 0) eqn:E; [exact He|]. apply Z.leb_gt in E. exact E.
Qed.

(** What a crop returned from a frequency-domain image is. *)
Lemma extract_harmonic_inv `{num : Numerics} (imgFFT : ndarray px)
    (harmonicPeriod harmonic_ij : Z * Z) (searchRegion : Z)
    (crop : ndarray px) :
  let nRows := Z.of_nat (nrows imgFFT) in
  let nColumns := Z.of_nat (ncols imgFFT) in
  let periodVert := resolve_period (fst harmonicPeriod) nRows in
  let periodHor := resolve_period (snd harmonicPeriod) nColumns in
  let idxPeak_ij :=
    _idxPeak_ij (fst harmonic_ij) (snd harmonic_ij) nRows nColumns
      periodVert periodHor in
  rectangular imgFFT = true ->
  0 <= fst harmonic_ij -> 0 <= snd harmonic_ij ->
  extract_harmonic imgFFT harmonicPeriod harmonic_ij searchRegion true
    = Ok crop ->
  crop = slice2 imgFFT
           (fst idxPeak_ij - periodVert / 2) (fst idxPeak_ij + periodVert / 2)
           (snd idxPeak_ij - periodHor / 2) (snd idxPeak_ij + periodHor / 2)
  /\ rectangular crop = true
  /\ shape crop = (2 * (periodVert / 2), 2 * (periodHor / 2)).
Proof.
  intros nRows nColumns periodVert periodHor idxPeak_ij Hrect HhV HhH Hex.
  destruct (check_harmonic_total (fst harmonic_ij) (snd harmonic_ij)
              nRows nColumns periodVert periodHor) as [Hc|Hc].
  2: { rewrite extract_harmonic_aborts in Hex by exact Hc. discriminate. }
  pose proof (extract_harmonic_checked imgFFT harmonicPeriod harmonic_ij
                searchRegion true) as E.
  cbv zeta in E. specialize (E Hc). rewrite E in Hex. clear E.
  change (frequency_image imgFFT true) with imgFFT in Hex.
  fold nRows nColumns periodVert periodHor idxPeak_ij in Hex.
  destruct (_idxPeak_ij_exp imgFFT (fst harmonic_ij) (snd harmonic_ij)
              periodVert periodHor searchRegion) as [e|p] eqn:Eloc;
    cbn [bind] in Hex; [discriminate|].
  injection Hex as <-.
  destruct (idxPeak_ij_exp_nonempty _ _ _ _ _ _ _ Hrect Eloc) as [HnR HnC].
  assert (0 < periodVert) as HpV
    by (apply resolve_period_extent_positive; unfold nRows; lia).
  assert (0 < periodHor) as HpH
    by (apply resolve_period_extent_positive; unfold nColumns; lia).
  apply check_harmonic_ok_iff in Hc. destruct Hc as [HcV HcH].
  destruct (crop_bounds _ _ _ HpV HhV HcV) as [HV0 [HV1 HV2]].
  destruct (crop_bounds _ _ _ HpH HhH HcH) as [HH0 [HH1 HH2]].
  split; [reflexivity|]. split; [apply slice2_rectangular; exact Hrect|].
  unfold idxPeak_ij, _idxPeak_ij. cbn [fst snd].
  rewrite slice2_shape by (fold nRows nColumns; lia). f_equal; lia.
Qed.

(** The three harmonic images have the shape of the crops. *)
Lemma harmonic_images_shape `{num : Numerics} (img : ndarray px)
    (harmonicPeriod : Z * Z) (searchRegion : Z) (h00 h01 h10 : ndarray px) :
  let imgFFT := fftshift (fft2 img) in
  let periodVert :=
    resolve_period (fst harmonicPeriod) (Z.of_nat (nrows imgFFT)) in
  let periodHor :=
    resolve_period (snd harmonicPeriod) (Z.of_nat (ncols imgFFT)) in
  let cropped (h : ndarray px) :=
    rectangular h = true
    /\ shape h = (2 * (periodVert / 2), 2 * (periodHor / 2)) in
  rectangular imgFFT = true ->
  shape_preserving (fun a => ifft2 (ifftshift a)) ->
  single_grating_harmonic_images img harmonicPeriod searchRegion
    = Ok (h00, h01, h10) ->
  cropped h00 /\ cropped h01 /\ cropped h10.
Proof.
  intros imgFFT periodVert periodHor cropped Hrect Hinv Hset.
  destruct (harmonic_images_inv img harmonicPeriod searchRegion h00 h01 h10
              Hset)
    as [_ [c00 [c01 [c10 [E00 [E01 [E10 [_ [-> [-> ->]]]]]]]]]].
  fold imgFFT in E00, E01, E10.
  assert (forall c, cropped c -> cropped (ifft2 (ifftshift c))) as Hback.
  { intros c [Hc Hs]. destruct (Hinv c Hc) as [_ [Hc' [Hr' Hcc']]].
    split; [exact Hc'|]. rewrite <- Hs. unfold shape.
    rewrite Hr', Hcc'. reflexivity. }
  assert (cropped c00) as K00.
  { destruct (extract_harmonic_inv imgFFT harmonicPeriod (0, 0) searchRegion
                c00 Hrect ltac:(cbn; lia) ltac:(cbn; lia) E00)
      as [_ [Hc Hs]].
    split; assumption. }
  assert (cropped c01) as K01.
  { destruct (extract_harmonic_inv imgFFT harmonicPeriod (0, 1) searchRegion
                c01 Hrect ltac:(cbn; lia) ltac:(cbn; lia) E01)
      as [_ [Hc Hs]].
    split; assumption. }
  assert (cropped c10) as K10.
  { destruct (extract_harmonic_inv imgFFT harmonicPeriod (1, 0) searchRegion
                c10 Hrect ltac:(cbn; lia) ltac:(cbn; lia) E10)
      as [_ [Hc Hs]].
    split; assumption. }
  split; [apply Hback, K00|]. split.
  - destruct (np_all (arr_map np_isfinite c01)); [apply Hback|]; exact K01.
  - destruct (np_all (arr_map np_isfinite c10)); [apply Hback|]; exact K10.
Qed.

(** The shifts of the instance keep shapes. *)
Lemma rotate_length {A} (k : nat) (l : list A) :
  length (skipn k l ++ firstn k l) = length l.
Proof. rewrite length_app, length_skipn, length_firstn. lia. Qed.

Lemma rotate_incl {A} (k : nat) (l : list A) (x : A) :
  In x (skipn k l ++ firstn k l) -> In x l.
Proof.
  intros Hin. rewrite <- (firstn_skipn k l).
  apply in_app_or in Hin. apply in_or_app. tauto.
Qed.

Lemma r_fftshift_shape_preserving {A} : shape_preserving (@RealPixels.r_fftshift A).
Proof.
  intros a Ha. unfold conformable. split; [exact Ha|].
  unfold RealPixels.r_fftshift, RealPixels.roll_fwd, rectangular, nrows.
  cbn [rows ncols]. split; [|split; [|reflexivity]].
  - apply forallb_forall. intros r Hr. apply rotate_incl in Hr.
    apply in_map_iff in Hr. destruct Hr as [r' [<- Hr']].
    rewrite rotate_length.
    unfold rectangular in Ha. rewrite forallb_forall in Ha. apply Ha, Hr'.
  - rewrite rotate_length, length_map. reflexivity.
Qed.

Lemma r_ifftshift_shape_preserving {A} :
  shape_preserving (@RealPixels.r_ifftshift A).
Proof.
  intros a Ha. unfold conformable. split; [exact Ha|].
  unfold RealPixels.r_ifftshift, RealPixels.roll_bwd, rectangular, nrows.
  cbn [rows ncols]. split; [|split; [|reflexivity]].
  - apply forallb_forall. intros r Hr. apply rotate_incl in Hr.
    apply in_map_iff in Hr. destruct Hr as [r' [<- Hr']].
    rewrite rotate_length.
    unfold rectangular in Ha. rewrite forallb_forall in Ha. apply Ha, Hr'.
  - rewrite rotate_length, length_map. reflexivity.
Qed.

(** C7: for a sample image and a reference image of the same shape,
    [single_2Dgrating_analyses] returns, in this order, [int00], [int01],
    [int10], [darkField01], [darkField10], [arg01], [arg10], where [int_ij]
    is [|h_ij| / |r_ij|] entry by entry, [darkField01] is [int01 / int00],
    [darkField10] is [int10 / int00], [arg01] is
    [angle(h01) - angle(r01)] and [arg10] is [angle(h10) - angle(r10)],
    the two phases being unwrapped exactly when the unwrap flag is 1.
    The transforms are asked to keep shapes, as numpy's do, and the two
    harmonic sets to be returned. *)
Theorem grating_analyses_maps `{num : Numerics} (img ref : ndarray px)
    (harmonicPeriod : Z * Z) (unwrapFlag : Z)
    (h00 h01 h10 r00 r01 r10 : ndarray px) :
  let ratio (h r : ndarray px) :=
    arr_map2 f_div (arr_map np_abs h) (arr_map np_abs r) in
  let phase (h r : ndarray px) :=
    arr_map2 f_sub (arr_map np_angle h) (arr_map np_angle r) in
  let unwrap (a : ndarray float64) :=
    if unwrapFlag =? 1 then unwrap_phase a else a in
  shape_preserving (fun a => fftshift (fft2 a)) ->
  shape_preserving (fun a => ifft2 (ifftshift a)) ->
  rectangular img = true -> rectangular ref = true ->
  shape img = shape ref ->
  single_grating_harmonic_images img harmonicPeriod 10 = Ok (h00, h01, h10) ->
  single_grating_harmonic_images ref harmonicPeriod 10 = Ok (r00, r01, r10) ->
  single_2Dgrating_analyses img (Some ref) harmonicPeriod unwrapFlag
  = Ok [ratio h00 r00; ratio h01 r01; ratio h10 r10;
        arr_map2 f_div (ratio h01 r01) (ratio h00 r00);
        arr_map2 f_div (ratio h10 r10) (ratio h00 r00);
        unwrap (phase h01 r01); unwrap (phase h10 r10)]
  /\ (forall h r i j,
        get2 (ratio h r) i j =
        match get2 h i j, get2 r i j with
        | Some x, Some y => Some (f_div (np_abs x) (np_abs y))
        | _, _ => None
        end)
  /\ (forall h r i j,
        get2 (phase h r) i j =
        match get2 h i j, get2 r i j with
        | Some x, Some y => Some (f_sub (np_angle x) (np_angle y))
        | _, _ => None
        end)
  /\ (unwrapFlag = 1 -> forall a, unwrap a = unwrap_phase a)
  /\ (unwrapFlag <> 1 -> forall a, unwrap a = a).
Proof.
  intros ratio phase unwrap Hfwd Hinv Hri Hrr Hshape Himg Href.
  destruct (Hfwd img Hri) as [_ [HFi [HFir HFic]]].
  destruct (Hfwd ref Hrr) as [_ [HFr [HFrr HFrc]]].
  unfold shape in Hshape. injection Hshape as HsR HsC.
  apply Nat2Z.inj in HsR. apply Nat2Z.inj in HsC.
  destruct (harmonic_images_shape img harmonicPeriod 10 h00 h01 h10
              HFi Hinv Himg) as [[A0 S0] [[A1 S1] [A2 S2]]].
  destruct (harmonic_images_shape ref harmonicPeriod 10 r00 r01 r10
              HFr Hinv Href) as [[B0 T0] [[B1 T1] [B2 T2]]].
  rewrite <- HFrr, <- HFrc, <- HsR, <- HsC, HFir, HFic in T0, T1, T2.
  apply grating_analyses_conformable; try assumption;
    apply conformable_of_shape; congruence.
Qed.

Lemma grating_analyses_maps_witness :
  let num := RealPixels.numerics (fun a => a) (fun a => a) in
  let one := RealPixels.constant 2 2 1 in
  let four := RealPixels.constant 2 2 4 in
  let quarter := RealPixels.constant 2 2 (1 # 4) in
  let zero := RealPixels.constant 2 2 0 in
  single_2Dgrating_analyses (RealPixels.constant 8 8 1)
    (Some (RealPixels.constant 8 8 4)) (2, 2) 1
  = Ok [quarter; quarter; quarter; one; one; zero; zero].
Proof.
  intros num one four quarter zero.
  assert (single_grating_harmonic_images (RealPixels.constant 8 8 1) (2, 2) 10
          = Ok (one, one, one)) as Himg by (vm_compute; reflexivity).
  assert (single_grating_harmonic_images (RealPixels.constant 8 8 4) (2, 2) 10
          = Ok (four, four, four)) as Href by (vm_compute; reflexivity).
  exact (proj1 (grating_analyses_maps (num := num) (RealPixels.constant 8 8 1)
                  (RealPixels.constant 8 8 4) (2, 2) 1
                  one one one four four four
                  r_fftshift_shape_preserving r_ifftshift_shape_preserving
                  eq_refl eq_refl eq_refl Himg Href)).
Defined.

(** C9: without a reference image [single_2Dgrating_analyses] takes for
    the three reference harmonics one array of ones of the shape of [h00],
    so that the maps are the raw values of the sample: [int00 = |h00|],
    [int01 = |h01|], [int10 = |h10|], and, before unwrapping,
    [arg01 = angle(h01)] and [arg10 = angle(h10)].  The floats are asked
    what IEEE arithmetic gives ([exp(0) = 1], of magnitude 1 and phase 0,
    [x / 1 = x] and [x - 0 = x]), the transforms to keep shapes, and the
    harmonic set to be returned. *)
Theorem grating_analyses_without_reference `{num : Numerics} (img : ndarray px)
    (harmonicPeriod : Z * Z) (unwrapFlag : Z) (h00 h01 h10 : ndarray px) :
  let ones :=
    arr_map np_exp (np_full (fst (shape h00)) (snd (shape h00)) px_zero) in
  let unwrap (a : ndarray float64) :=
    if unwrapFlag =? 1 then unwrap_phase a else a in
  np_abs (np_exp px_zero) = Fin 1 -> np_angle (np_exp px_zero) = Fin 0 ->
  (forall x, f_div x (Fin 1) = x) -> (forall x, f_sub x (Fin 0) = x) ->
  shape_preserving (fun a => fftshift (fft2 a)) ->
  shape_preserving (fun a => ifft2 (ifftshift a)) ->
  rectangular img = true ->
  single_grating_harmonic_images img harmonicPeriod 10 = Ok (h00, h01, h10) ->
  single_2Dgrating_analyses img None harmonicPeriod unwrapFlag
  = Ok [arr_map np_abs h00; arr_map np_abs h01; arr_map np_abs h10;
        arr_map2 f_div (arr_map np_abs h01) (arr_map np_abs h00);
        arr_map2 f_div (arr_map np_abs h10) (arr_map np_abs h00);
        unwrap (arr_map np_angle h01); unwrap (arr_map np_angle h10)]
  /\ conformable h00 ones
  /\ (forall i j p, get2 ones i j = Some p ->
        np_abs p = Fin 1 /\ np_angle p = Fin 0).
Proof.
  intros ones unwrap Habs Hangle Hdiv Hsub Hfwd Hinv Hri Himg.
  destruct (Hfwd img Hri) as [_ [HFi _]].
  destruct (harmonic_images_shape img harmonicPeriod 10 h00 h01 h10
              HFi Hinv Himg) as [[A0 S0] [[A1 S1] [A2 S2]]].
  apply grating_analyses_raw_conformable; try assumption;
    apply conformable_of_shape; congruence.
Qed.

Lemma grating_analyses_without_reference_witness :
  let num := RealPixels.numerics (fun a => a) (fun a => a) in
  let one := RealPixels.constant 2 2 1 in
  let four := RealPixels.constant 2 2 4 in
  let zero := RealPixels.constant 2 2 0 in
  single_2Dgrating_analyses (RealPixels.constant 8 8 4) None (2, 2) 1
  = Ok [four; four; four; one; one; zero; zero].
Proof.
  intros num one four zero.
  assert (single_grating_harmonic_images (RealPixels.constant 8 8 4) (2, 2) 10
          = Ok (four, four, four)) as Himg by (vm_compute; reflexivity).
  exact (proj1 (grating_analyses_without_reference (num := num)
                  (RealPixels.constant 8 8 4) (2, 2) 1 four four four
                  eq_refl eq_refl (fun x => eq_refl) (fun x => eq_refl)
                  r_fftshift_shape_preserving r_ifftshift_shape_preserving
                  eq_refl Himg)).
Defined.

(** * Further properties of the locator and of the extraction *)

(** ** Where the locator can land *)

(** Whatever the locator returns is a coordinate at which the image holds
    a pixel. *)
Lemma idxPeak_ij_exp_reads `{num : Numerics} (imgFFT : ndarray px)
    (harV harH periodVert periodHor searchRegion : Z) (p : Z * Z) :
  _idxPeak_ij_exp imgFFT harV harH periodVert periodHor searchRegion = Ok p ->
  exists i j x, p = (Z.of_nat i, Z.of_nat j) /\ get2 imgFFT i j = Some x.
Proof.
  intros Hloc. rewrite idxPeak_ij_exp_unfold in Hloc.
  destruct (np_max _) as [e|top]; cbn [bind] in Hloc; [discriminate|].
  destruct (np_where _) as [|q rest] eqn:Ew; [discriminate|].
  injection Hloc as ->.
  assert (In p (p :: rest)) as Hin by (left; reflexivity).
  rewrite <- Ew in Hin. apply np_where_in in Hin.
  destruct Hin as [i [j [-> Hij]]].
  rewrite get2_arr_map in Hij. unfold masked_intensity, shape in Hij.
  rewrite get2_arr_map2, get2_arr_map in Hij.
  destruct (get2 imgFFT i j) as [x|] eqn:Ex; [|discriminate].
  exists i, j, x. split; [reflexivity|exact Ex].
Qed.

(** X1: a coordinate returned by [_idxPeak_ij_exp] lies inside the image,
    whatever the harmonic, the period and the search radius, and the image
    can be read there. *)
Theorem peak_locator_stays_in_image `{num : Numerics} (imgFFT : ndarray px)
    (harV harH periodVert periodHor searchRegion : Z) (i j : Z) :
  rectangular imgFFT = true ->
  _idxPeak_ij_exp imgFFT harV harH periodVert periodHor searchRegion
    = Ok (i, j) ->
  0 <= i < fst (shape imgFFT) /\ 0 <= j < snd (shape imgFFT)
  /\ exists x, getitem imgFFT i j = Ok x.
Proof.
  intros Hrect Hloc.
  destruct (idxPeak_ij_exp_reads _ _ _ _ _ _ _ Hloc) as [i' [j' [x [Hp Hx]]]].
  injection Hp as -> ->.
  destruct (get2_some_bounds _ _ _ _ Hrect Hx) as [Hi Hj].
  unfold shape. cbn [fst snd]. split; [lia|]. split; [lia|].
  exists x. apply getitem_of_nat, Hx.
Qed.

Lemma peak_locator_stays_in_image_witness :
  0 <= 4 < 8 /\ 0 <= 4 < 8
  /\ exists x, getitem (RealPixels.spike 8 8 4 4 (Fin 8)) 4 4 = Ok x.
Proof.
  exact (peak_locator_stays_in_image
           (num := RealPixels.numerics (fun a => a) (fun a => a))
           (RealPixels.spike 8 8 4 4 (Fin 8)) 0 0 2 2 2 4 4
           eq_refl eq_refl).
Defined.

(** X2: [visib_1st_harmonics] fails in two ways only.  On an image with
    an axis of length zero the transform raises [ValueError], before any
    peak search; on any other image the call fails only with the failure
    of one of its three peak searches: reading the transformed image at the
    places found never raises. *)
Theorem visib_1st_harmonics_fails_in_search `{num : Numerics}
    (img : ndarray px) (harmonicPeriod : Z * Z) (searchRegion : Z) :
  let imgFFT := fftshift (fft2 img) in
  let locate (harV harH : Z) :=
    _idxPeak_ij_exp imgFFT harV harH (fst harmonicPeriod) (snd harmonicPeriod)
      searchRegion in
  (is_empty img = true ->
   visib_1st_harmonics img harmonicPeriod searchRegion = Err ValueError)
  /\ (is_empty img = false ->
      forall e,
        visib_1st_harmonics img harmonicPeriod searchRegion = Err e ->
        locate 0 0 = Err e \/ locate 1 0 = Err e \/ locate 0 1 = Err e).
Proof.
  intros imgFFT locate. split; [apply visib_1st_harmonics_of_empty|].
  intros He e Hv.
  rewrite (visib_1st_harmonics_of_transform img harmonicPeriod searchRegion He)
    in Hv.
  cbv zeta in Hv.
  fold imgFFT in Hv. fold (locate 0 0) (locate 1 0) (locate 0 1) in Hv.
  destruct (locate 0 0) as [e0|a] eqn:L00; cbn [bind] in Hv;
    [left; injection Hv as ->; reflexivity|].
  destruct (locate 1 0) as [e1|b] eqn:L10; cbn [bind] in Hv;
    [right; left; injection Hv as ->; reflexivity|].
  destruct (locate 0 1) as [e2|c] eqn:L01; cbn [bind] in Hv;
    [right; right; injection Hv as ->; reflexivity|].
  exfalso.
  destruct (idxPeak_ij_exp_reads _ _ _ _ _ _ _ L00) as [i0 [j0 [x0 [-> G0]]]].
  destruct (idxPeak_ij_exp_reads _ _ _ _ _ _ _ L10) as [i1 [j1 [x1 [-> G1]]]].
  destruct (idxPeak_ij_exp_reads _ _ _ _ _ _ _ L01) as [i2 [j2 [x2 [-> G2]]]].
  cbn [fst snd] in Hv.
  rewrite (getitem_of_nat _ _ _ _ G0), (getitem_of_nat _ _ _ _ G1),
          (getitem_of_nat _ _ _ _ G2) in Hv.
  cbn [bind] in Hv. discriminate.
Qed.

Lemma visib_1st_harmonics_fails_in_search_witness :
  let num := RealPixels.numerics (fun a => a) (fun a => a) in
  let imgFFT := RealPixels.spike 4 4 0 0 NaN in
  visib_1st_harmonics (RealPixels.constant 0 4 1) (2, 2) 1 = Err ValueError
  /\ (_idxPeak_ij_exp imgFFT 0 0 2 2 1 = Err IndexError
      \/ _idxPeak_ij_exp imgFFT 1 0 2 2 1 = Err IndexError
      \/ _idxPeak_ij_exp imgFFT 0 1 2 2 1 = Err IndexError).
Proof.
  intros num imgFFT. split.
  - apply (proj1 (visib_1st_harmonics_fails_in_search (num := num)
                    (RealPixels.constant 0 4 1) (2, 2) 1)).
    reflexivity.
  - apply (proj2 (visib_1st_harmonics_fails_in_search (num := num)
                    (RealPixels.spike 4 4 2 2 NaN) (2, 2) 1)
             eq_refl IndexError).
    vm_compute. reflexivity.
Defined.

(** ** When the locator raises *)

Lemma fold_max_from_nan (l : list float64) : fold_left f_max l NaN = NaN.
Proof. induction l as [|y l IH]; [reflexivity|exact IH]. Qed.

Lemma fold_max_nan (l : list float64) (x : float64) :
  In NaN (x :: l) -> fold_left f_max l x = NaN.
Proof.
  revert x. induction l as [|y l IH]; intros x Hin.
  - destruct Hin as [->|[]]. reflexivity.
  - cbn [fold_left]. destruct Hin as [->|[->|Hin]].
    + apply fold_max_from_nan.
    + replace (f_max x NaN) with NaN by (destruct x; reflexivity).
      apply fold_max_from_nan.
    + apply IH. right. exact Hin.
Qed.

Lemma np_where_none (a : ndarray bool) :
  (forall i j, get2 a i j <> Some true) -> np_where a = [].
Proof.
  intros Hnone. destruct (np_where a) as [|p rest] eqn:Ew; [reflexivity|].
  exfalso. assert (In p (np_where a)) as Hin by (rewrite Ew; left; reflexivity).
  apply np_where_in in Hin. destruct Hin as [i [j [_ Hij]]].
  exact (Hnone i j Hij).
Qed.

(** A NaN in the masked array: the maximum is NaN, equal to nothing. *)
Lemma idxPeak_ij_exp_masked_nan `{num : Numerics} (imgFFT : ndarray px)
    (harV harH periodVert periodHor searchRegion : Z) :
  (exists i j,
     get2 (masked_intensity imgFFT harV harH periodVert periodHor searchRegion)
          i j = Some NaN) ->
  _idxPeak_ij_exp imgFFT harV harH periodVert periodHor searchRegion
    = Err IndexError.
Proof.
  intros Hnan. rewrite idxPeak_ij_exp_unfold.
  apply in_concat_get2 in Hnan. unfold np_max.
  destruct (concat (rows (masked_intensity imgFFT harV harH periodVert
                            periodHor searchRegion))) as [|x l];
    [destruct Hnan|].
  rewrite (fold_max_nan l x Hnan). cbn [bind].
  rewrite np_where_none; [reflexivity|].
  intros i j Hij. rewrite get2_arr_map in Hij.
  destruct (get2 _ i j) as [v|]; [|discriminate].
  cbn in Hij. destruct v; discriminate.
Qed.

Lemma extract_harmonic_follows_search `{num : Numerics} (imgFFT : ndarray px)
    (harmonicPeriod harmonic_ij : Z * Z) (searchRegion : Z) (e : exn) :
  (forall harV harH periodVert periodHor,
     _idxPeak_ij_exp imgFFT harV harH periodVert periodHor searchRegion
       = Err e) ->
  extract_harmonic imgFFT harmonicPeriod harmonic_ij searchRegion true
    = Err SystemExit
  \/ extract_harmonic imgFFT harmonicPeriod harmonic_ij searchRegion true
    = Err e.
Proof.
  intros Hloc.
  destruct (check_harmonic_total (fst harmonic_ij) (snd harmonic_ij)
              (Z.of_nat (nrows imgFFT)) (Z.of_nat (ncols imgFFT))
              (resolve_period (fst harmonicPeriod) (Z.of_nat (nrows imgFFT)))
              (resolve_period (snd harmonicPeriod) (Z.of_nat (ncols imgFFT))))
    as [Hc|Hc].
  - right.
    pose proof (extract_harmonic_checked imgFFT harmonicPeriod harmonic_ij
                  searchRegion true) as E.
    cbv zeta in E. rewrite (E Hc).
    change (frequency_image imgFFT true) with imgFFT.
    rewrite Hloc. reflexivity.
  - left. apply extract_harmonic_aborts, Hc.
Qed.

(** X3: one pixel of NaN magnitude anywhere in the image makes
    [_idxPeak_ij_exp] raise [IndexError], whatever the harmonic, the period
    and the search radius (the maximum of the masked array is NaN, which no
    entry equals); [extract_harmonic] therefore never returns a crop of
    such an image: it ends in [SystemExit] or in [IndexError]. *)
Theorem nan_magnitude_stops_extraction `{num : Numerics} (imgFFT : ndarray px)
    (i j : nat) (p : px) :
  rectangular imgFFT = true ->
  get2 imgFFT i j = Some p -> np_abs p = NaN ->
  (forall harV harH periodVert periodHor searchRegion,
     _idxPeak_ij_exp imgFFT harV harH periodVert periodHor searchRegion
       = Err IndexError)
  /\ (forall harmonicPeriod harmonic_ij searchRegion,
        extract_harmonic imgFFT harmonicPeriod harmonic_ij searchRegion true
          = Err SystemExit
        \/ extract_harmonic imgFFT harmonicPeriod harmonic_ij searchRegion true
          = Err IndexError).
Proof.
  intros Hrect Hp Hnan.
  assert (forall harV harH periodVert periodHor searchRegion,
            _idxPeak_ij_exp imgFFT harV harH periodVert periodHor searchRegion
              = Err IndexError) as Hloc.
  { intros. apply idxPeak_ij_exp_masked_nan. exists i, j.
    rewrite masked_intensity_get2, Hp by exact Hrect. cbn [option_map].
    rewrite Hnan. destruct (search_window _ _ _ _ _ _ _ _); reflexivity. }
  split; [exact Hloc|].
  intros. apply extract_harmonic_follows_search. intros. apply Hloc.
Qed.

Lemma nan_magnitude_stops_extraction_witness :
  let num := RealPixels.numerics (fun a => a) (fun a => a) in
  _idxPeak_ij_exp (RealPixels.spike 8 8 1 1 NaN) 0 0 2 2 2 = Err IndexError.
Proof.
  intros num.
  exact (proj1 (nan_magnitude_stops_extraction (num := num)
                  (RealPixels.spike 8 8 1 1 NaN) 1 1 NaN
                  eq_refl eq_refl eq_refl) 0 0 2 2 2).
Defined.

(** X4: a pixel of infinite magnitude outside the search window makes
    [_idxPeak_ij_exp] raise [IndexError] as well: its product with the zero
    of the mask is NaN. *)
Theorem infinite_magnitude_outside_window `{num : Numerics}
    (imgFFT : ndarray px) (harV harH periodVert periodHor searchRegion : Z)
    (i j : nat) (p : px) :
  rectangular imgFFT = true ->
  get2 imgFFT i j = Some p -> f_isfinite (np_abs p) = false ->
  search_window imgFFT harV harH periodVert periodHor searchRegion i j
    = false ->
  _idxPeak_ij_exp imgFFT harV harH periodVert periodHor searchRegion
    = Err IndexError.
Proof.
  intros Hrect Hp Hinf Hout. apply idxPeak_ij_exp_masked_nan. exists i, j.
  rewrite masked_intensity_get2, Hp by exact Hrect. cbn [option_map].
  rewrite Hout. destruct (np_abs p); [discriminate|reflexivity..].
Qed.

Lemma infinite_magnitude_outside_window_witness :
  let num := RealPixels.numerics (fun a => a) (fun a => a) in
  _idxPeak_ij_exp (RealPixels.spike 8 8 0 0 PInf) 0 0 2 2 2 = Err IndexError.
Proof.
  intros num.
  exact (infinite_magnitude_outside_window (num := num)
           (RealPixels.spike 8 8 0 0 PInf) 0 0 2 2 2 0 0 PInf
           eq_refl eq_refl eq_refl eq_refl).
Defined.

Lemma idxPeak_ij_exp_empty `{num : Numerics} (imgFFT : ndarray px)
    (harV harH periodVert periodHor searchRegion : Z) :
  rectangular imgFFT = true ->
  nrows imgFFT = 0%nat \/ ncols imgFFT = 0%nat ->
  _idxPeak_ij_exp imgFFT harV harH periodVert periodHor searchRegion
    = Err ValueError.
Proof.
  intros Hrect Hempty. rewrite idxPeak_ij_exp_unfold. unfold np_max.
  destruct (concat (rows (masked_intensity imgFFT harV harH periodVert
                            periodHor searchRegion))) as [|x l] eqn:Ec;
    [reflexivity|].
  exfalso.
  assert (In x (concat (rows (masked_intensity imgFFT harV harH periodVert
                                periodHor searchRegion)))) as Hin
    by (rewrite Ec; left; reflexivity).
  apply in_concat_get2 in Hin. destruct Hin as [i [j Hij]].
  rewrite masked_intensity_get2 in Hij by exact Hrect.
  destruct (get2 imgFFT i j) as [q|] eqn:Eq; [|discriminate].
  destruct (get2_some_bounds _ _ _ _ Hrect Eq). lia.
Qed.

(** X5: on an image without rows or without columns [_idxPeak_ij_exp]
    raises [ValueError] (the maximum of an empty array), and
    [extract_harmonic] never returns a crop: it ends in [SystemExit] or in
    that [ValueError]. *)
Theorem empty_image_stops_extraction `{num : Numerics} (imgFFT : ndarray px) :
  rectangular imgFFT = true ->
  nrows imgFFT = 0%nat \/ ncols imgFFT = 0%nat ->
  (forall harV harH periodVert periodHor searchRegion,
     _idxPeak_ij_exp imgFFT harV harH periodVert periodHor searchRegion
       = Err ValueError)
  /\ (forall harmonicPeriod harmonic_ij searchRegion,
        extract_harmonic imgFFT harmonicPeriod harmonic_ij searchRegion true
          = Err SystemExit
        \/ extract_harmonic imgFFT harmonicPeriod harmonic_ij searchRegion true
          = Err ValueError).
Proof.
  intros Hrect Hempty. split.
  - intros. apply idxPeak_ij_exp_empty; assumption.
  - intros. apply extract_harmonic_follows_search.
    intros. apply idxPeak_ij_exp_empty; assumption.
Qed.

Lemma empty_image_stops_extraction_witness :
  let num := RealPixels.numerics (fun a => a) (fun a => a) in
  extract_harmonic (RealPixels.constant 0 4 1) (0, 2) (0, 0) 10 true
  = Err ValueError.
Proof.
  intros num.
  destruct (proj2 (empty_image_stops_extraction (num := num)
                     (RealPixels.constant 0 4 1) eq_refl
                     (or_introl eq_refl)) (0, 2) (0, 0) 10) as [H|H].
  - vm_compute in H. discriminate H.
  - exact H.
Defined.

(** ** A window without signal *)

(** X6: on a non-empty image of finite magnitudes, when every pixel under
    the mask has magnitude zero (or the mask covers no pixel at all),
    [_idxPeak_ij_exp] returns the corner [(0, 0)] of the image, wherever
    the window is: the masked array is zero everywhere and its first entry
    already equals the maximum. *)
Theorem silent_window_gives_corner `{num : Numerics} (imgFFT : ndarray px)
    (harV harH periodVert periodHor searchRegion : Z) :
  rectangular imgFFT = true -> finite_magnitudes imgFFT = true ->
  (0 < nrows imgFFT)%nat -> (0 < ncols imgFFT)%nat ->
  (forall i j p q,
     get2 imgFFT i j = Some p ->
     search_window imgFFT harV harH periodVert periodHor searchRegion i j
       = true ->
     np_abs p = Fin q -> (q == 0)%Q) ->
  _idxPeak_ij_exp imgFFT harV harH periodVert periodHor searchRegion
    = Ok (0, 0).
Proof.
  intros Hrect Hfin Hr Hc Hzero.
  pose (M := masked_intensity imgFFT harV harH periodVert periodHor
               searchRegion).
  assert (forall i j v, get2 M i j = Some (Fin v) -> (v == 0)%Q) as Hall.
  { intros i j v Hv. unfold M in Hv.
    rewrite masked_intensity_get2 in Hv by exact Hrect.
    destruct (get2 imgFFT i j) as [p|] eqn:Ep; [|discriminate].
    cbn [option_map] in Hv. injection Hv as Hv.
    destruct (finite_magnitudes_get2 imgFFT Hfin _ _ _ Ep) as [q Hq].
    rewrite Hq in Hv. unfold mul_mask in Hv.
    destruct (search_window imgFFT harV harH periodVert periodHor
                searchRegion i j) eqn:Ew.
    - injection Hv as <-. eapply Hzero; eauto.
    - injection Hv as <-. reflexivity. }
  destruct (get2_in_bounds imgFFT 0 0 Hrect Hr Hc) as [p0 Hp0].
  assert (exists v0, get2 M 0 0 = Some (Fin v0)) as [v0 Hv0].
  { unfold M. rewrite masked_intensity_get2, Hp0 by exact Hrect.
    cbn [option_map].
    destruct (finite_magnitudes_get2 imgFFT Hfin _ _ _ Hp0) as [q ->].
    unfold mul_mask. destruct (search_window _ _ _ _ _ _ _ _); eauto. }
  destruct (argmax_first M)
    as [i [j [top [rest [Hmax [Hw [[v [Hv Hvtop]] Hbound]]]]]]].
  - apply masked_intensity_finite; assumption.
  - eauto.
  - rewrite idxPeak_ij_exp_unfold. fold M. rewrite Hmax. cbn [bind].
    rewrite Hw.
    destruct (Hbound 0%nat 0%nat v0 Hv0) as [_ Hfirst].
    assert (~ lex_lt (Z.of_nat 0, Z.of_nat 0) (Z.of_nat i, Z.of_nat j))
      as Hnot.
    { intros Hlex. apply Hfirst in Hlex.
      rewrite (Hall _ _ _ Hv0), <- Hvtop, (Hall _ _ _ Hv) in Hlex.
      exact (Qlt_irrefl _ Hlex). }
    unfold lex_lt in Hnot. cbn [fst snd] in Hnot.
    assert (i = 0%nat /\ j = 0%nat) as [-> ->] by lia.
    reflexivity.
Qed.

Lemma silent_window_gives_corner_witness :
  let num := RealPixels.numerics (fun a => a) (fun a => a) in
  _idxPeak_ij_exp (RealPixels.spike 4 4 0 3 (Fin 5)) 1 0 4 2 1 = Ok (0, 0).
Proof.
  intros num.
  apply (silent_window_gives_corner (num := num)
           (RealPixels.spike 4 4 0 3 (Fin 5)) 1 0 4 2 1);
    try reflexivity; try (cbn; lia).
  intros i j p q Hp Hw Hq.
  destruct i as [|[|[|[|i]]]]; destruct j as [|[|[|[|j]]]];
    try discriminate Hw;
    try (destruct i; discriminate Hp); try (destruct j; discriminate Hp).
Defined.

(** ** The deviation from the theoretical peak *)

(** X7: when the search window lies inside an image of finite magnitudes
    and holds a pixel of non-zero magnitude, [_error_harmonic_peak] returns
    a deviation that stays within the search radius on both axes:
    [-searchRegion <= del < searchRegion]. *)
Theorem harmonic_peak_error_bounded `{num : Numerics} (imgFFT : ndarray px)
    (harV harH periodVert periodHor searchRegion : Z) :
  let nRows := Z.of_nat (nrows imgFFT) in
  let nColumns := Z.of_nat (ncols imgFFT) in
  let r0 := nRows / 2 + harV * periodVert in
  let c0 := nColumns / 2 + harH * periodHor in
  0 < searchRegion ->
  rectangular imgFFT = true -> finite_magnitudes imgFFT = true ->
  0 <= r0 - searchRegion -> r0 + searchRegion <= nRows ->
  0 <= c0 - searchRegion -> c0 + searchRegion <= nColumns ->
  (exists i0 j0 p0 q0,
     (r0 - searchRegion <= Z.of_nat i0 < r0 + searchRegion
      /\ c0 - searchRegion <= Z.of_nat j0 < c0 + searchRegion)
     /\ get2 imgFFT i0 j0 = Some p0 /\ np_abs p0 = Fin q0 /\ (0 < q0)%Q) ->
  exists del_i del_j,
    _error_harmonic_peak imgFFT harV harH periodVert periodHor searchRegion
      = Ok (del_i, del_j)
    /\ - searchRegion <= del_i < searchRegion
    /\ - searchRegion <= del_j < searchRegion.
Proof.
  intros nRows nColumns r0 c0 Hs Hrect Hfin Hr0 Hr1 Hc0 Hc1
         [i0 [j0 [p0 [q0 [Hw0 [Hp0 [Hq0 Hpos]]]]]]].
  assert (forall i j,
            search_window imgFFT harV harH periodVert periodHor searchRegion
              i j = true
            <-> (r0 - searchRegion <= Z.of_nat i < r0 + searchRegion
                 /\ c0 - searchRegion <= Z.of_nat j < c0 + searchRegion))
    as Hwin.
  { intros i j. apply search_window_in_bounds; assumption. }
  destruct (idxPeak_ij_exp_masked_argmax imgFFT harV harH periodVert periodHor
              searchRegion Hrect Hfin)
    as [i [j [p [m [Hloc [Hp [Hin _]]]]]]].
  - exists i0, j0, p0, q0. rewrite Hwin. auto.
  - apply Hwin in Hin.
    exists (Z.of_nat i - r0), (Z.of_nat j - c0). split.
    + unfold _error_harmonic_peak, shape. rewrite Hloc. reflexivity.
    + lia.
Qed.

Lemma harmonic_peak_error_bounded_witness :
  let num := RealPixels.numerics (fun a => a) (fun a => a) in
  exists del_i del_j,
    _error_harmonic_peak (RealPixels.spike 8 8 5 3 (Fin 8)) 0 0 2 2 2
      = Ok (del_i, del_j)
    /\ - 2 <= del_i < 2 /\ - 2 <= del_j < 2.
Proof.
  intros num.
  apply (harmonic_peak_error_bounded (num := num)
           (RealPixels.spike 8 8 5 3 (Fin 8)) 0 0 2 2 2);
    try reflexivity; try (cbn; lia).
  exists 5%nat, 3%nat, (Fin 8), 8%Q.
  repeat split; cbn; try lia; reflexivity.
Defined.

(** ** [exp_harm_period] beside [extract_harmonic] *)

Lemma exp_harm_period_checked `{num : Numerics} (img : ndarray px)
    (harmonicPeriod harmonic_ij : Z * Z) (searchRegion : Z) (isFFT : bool) :
  let nRows := Z.of_nat (nrows img) in
  let nColumns := Z.of_nat (ncols img) in
  let imgFFT := frequency_image img isFFT in
  let periodVert := resolve_period (fst harmonicPeriod) nRows in
  let periodHor := resolve_period (snd harmonicPeriod) nColumns in
  _check_harmonic_inside_image (fst harmonic_ij) (snd harmonic_ij)
    nRows nColumns periodVert periodHor = Ok tt ->
  exp_harm_period img harmonicPeriod harmonic_ij searchRegion isFFT
  = if negb isFFT && is_empty img then Err ValueError
    else
      (found <- _idxPeak_ij_exp imgFFT (fst harmonic_ij) (snd harmonic_ij)
                  periodVert periodHor searchRegion ;;
       Ok (periodVert
           + (fst found
              - (Z.of_nat (nrows imgFFT) / 2 + fst harmonic_ij * periodVert)),
           periodHor
           + (snd found
              - (Z.of_nat (ncols imgFFT) / 2 + snd harmonic_ij * periodHor)))).
Proof.
  intros nRows nColumns imgFFT periodVert periodHor Hc.
  unfold exp_harm_period, shape.
  fold nRows nColumns periodVert periodHor. rewrite Hc. cbn [bind].
  unfold imgFFT, frequency_image, np_fft_fft2.
  destruct isFFT; [|destruct (is_empty img)]; cbn [negb andb bind];
    try reflexivity;
    unfold _error_harmonic_peak, shape, _idxPeak_ij;
    destruct (_idxPeak_ij_exp _ _ _ _ _ _) as [e|found]; reflexivity.
Qed.

(** X8: [exp_harm_period] and [extract_harmonic] stop and return together.
    When the range test fails, the first raises the [ValueError] of the
    test and the second turns it into [SystemExit]; when it passes, each
    fails with the error of the transform or of the peak search if one of
    them fails; and the first returns a period exactly when the second
    returns a crop. *)
Theorem exp_harm_period_beside_extract `{num : Numerics} (img : ndarray px)
    (harmonicPeriod harmonic_ij : Z * Z) (searchRegion : Z) (isFFT : bool) :
  let range_test :=
    _check_harmonic_inside_image (fst harmonic_ij) (snd harmonic_ij)
      (Z.of_nat (nrows img)) (Z.of_nat (ncols img))
      (resolve_period (fst harmonicPeriod) (Z.of_nat (nrows img)))
      (resolve_period (snd harmonicPeriod) (Z.of_nat (ncols img))) in
  let period :=
    exp_harm_period img harmonicPeriod harmonic_ij searchRegion isFFT in
  let crop :=
    extract_harmonic img harmonicPeriod harmonic_ij searchRegion isFFT in
  (range_test = Err ValueError ->
   period = Err ValueError /\ crop = Err SystemExit)
  /\ (range_test = Ok tt -> forall e, period = Err e <-> crop = Err e)
  /\ ((exists v, period = Ok v) <-> (exists c, crop = Ok c)).
Proof.
  intros range_test period crop.
  assert (range_test = Err ValueError ->
          period = Err ValueError /\ crop = Err SystemExit) as Hfail.
  { intros Hc. split.
    - unfold period, exp_harm_period, shape. fold range_test.
      rewrite Hc. reflexivity.
    - apply extract_harmonic_aborts. exact Hc. }
  assert (range_test = Ok tt ->
          (forall e, period = Err e <-> crop = Err e)
          /\ ((exists v, period = Ok v) <-> (exists c, crop = Ok c)))
    as Hpass.
  { intros Hc.
    pose proof (exp_harm_period_checked img harmonicPeriod harmonic_ij
                  searchRegion isFFT) as Ep.
    pose proof (extract_harmonic_checked img harmonicPeriod harmonic_ij
                  searchRegion isFFT) as Ec.
    cbv zeta in Ep, Ec. fold range_test in Ep, Ec.
    unfold period, crop. rewrite (Ep Hc), (Ec Hc).
    destruct (negb isFFT && is_empty img).
    { split.
      - intros e. split; intros He; injection He as <-; reflexivity.
      - split; intros [x Hx]; discriminate Hx. }
    destruct (_idxPeak_ij_exp _ _ _ _ _ _) as [e'|found]; cbn [bind].
    - split.
      + intros e. split; intros He; injection He as ->; reflexivity.
      + split; intros [x Hx]; discriminate Hx.
    - split.
      + intros e. split; intros He; discriminate He.
      + split; intros _; eauto. }
  split; [exact Hfail|]. split; [apply Hpass|].
  destruct (check_harmonic_total (fst harmonic_ij) (snd harmonic_ij)
              (Z.of_nat (nrows img)) (Z.of_nat (ncols img))
              (resolve_period (fst harmonicPeriod) (Z.of_nat (nrows img)))
              (resolve_period (snd harmonicPeriod) (Z.of_nat (ncols img))))
    as [Hc|Hc].
  - apply Hpass, Hc.
  - destruct (Hfail Hc) as [Hp Hx]. rewrite Hp, Hx.
    split; intros [x Hx']; discriminate Hx'.
Qed.

Lemma exp_harm_period_beside_extract_witness :
  let num := RealPixels.numerics (fun a => a) (fun a => a) in
  (exp_harm_period (RealPixels.constant 8 8 1) (8, 8) (1, 0) 10 true
     = Err ValueError
   /\ extract_harmonic (RealPixels.constant 8 8 1) (8, 8) (1, 0) 10 true
     = Err SystemExit)
  /\ (exp_harm_period (RealPixels.spike 8 8 1 1 NaN) (2, 2) (0, 0) 2 true
        = Err IndexError
      <-> extract_harmonic (RealPixels.spike 8 8 1 1 NaN) (2, 2) (0, 0) 2 true
        = Err IndexError).
Proof.
  intros num. split.
  - exact (proj1 (exp_harm_period_beside_extract (num := num)
                    (RealPixels.constant 8 8 1) (8, 8) (1, 0) 10 true)
             eq_refl).
  - exact (proj1 (proj2 (exp_harm_period_beside_extract (num := num)
                           (RealPixels.spike 8 8 1 1 NaN) (2, 2) (0, 0) 2
                           true)) eq_refl IndexError).
Defined.

(** X9: when the range test passes and the search window lies inside the
    transformed image, which has the shape of the image, finite magnitudes
    and a pixel of non-zero magnitude in the window, [exp_harm_period]
    returns, on each axis, a value within the search radius of the period
    it was given (the extent of the image for a non-positive period). *)
Theorem exp_harm_period_near_period `{num : Numerics} (img : ndarray px)
    (harmonicPeriod harmonic_ij : Z * Z) (searchRegion : Z) (isFFT : bool) :
  let imgFFT := frequency_image img isFFT in
  let periodVert :=
    resolve_period (fst harmonicPeriod) (Z.of_nat (nrows img)) in
  let periodHor :=
    resolve_period (snd harmonicPeriod) (Z.of_nat (ncols img)) in
  let r0 := Z.of_nat (nrows imgFFT) / 2 + fst harmonic_ij * periodVert in
  let c0 := Z.of_nat (ncols imgFFT) / 2 + snd harmonic_ij * periodHor in
  _check_harmonic_inside_image (fst harmonic_ij) (snd harmonic_ij)
    (Z.of_nat (nrows img)) (Z.of_nat (ncols img)) periodVert periodHor
    = Ok tt ->
  0 < searchRegion ->
  shape imgFFT = shape img ->
  rectangular imgFFT = true -> finite_magnitudes imgFFT = true ->
  0 <= r0 - searchRegion -> r0 + searchRegion <= Z.of_nat (nrows imgFFT) ->
  0 <= c0 - searchRegion -> c0 + searchRegion <= Z.of_nat (ncols imgFFT) ->
  (exists i0 j0 p0 q0,
     (r0 - searchRegion <= Z.of_nat i0 < r0 + searchRegion
      /\ c0 - searchRegion <= Z.of_nat j0 < c0 + searchRegion)
     /\ get2 imgFFT i0 j0 = Some p0 /\ np_abs p0 = Fin q0 /\ (0 < q0)%Q) ->
  exists expVert expHor,
    exp_harm_period img harmonicPeriod harmonic_ij searchRegion isFFT
      = Ok (expVert, expHor)
    /\ periodVert - searchRegion <= expVert < periodVert + searchRegion
    /\ periodHor - searchRegion <= expHor < periodHor + searchRegion.
Proof.
  intros imgFFT periodVert periodHor r0 c0 Hc Hs Hshape Hrect Hfin
         Hr0 Hr1 Hc0 Hc1 [i0 [j0 [p0 [q0 [Hw0 [Hp0 [Hq0 Hpos]]]]]]].
  assert (is_empty img = false) as He.
  { destruct (get2_some_bounds _ _ _ _ Hrect Hp0) as [Hi0 Hj0].
    unfold shape in Hshape. injection Hshape as HsR HsC.
    apply is_empty_false. lia. }
  assert (forall i j,
            search_window imgFFT (fst harmonic_ij) (snd harmonic_ij)
              periodVert periodHor searchRegion i j = true
            <-> (r0 - searchRegion <= Z.of_nat i < r0 + searchRegion
                 /\ c0 - searchRegion <= Z.of_nat j < c0 + searchRegion))
    as Hwin.
  { intros i j. apply search_window_in_bounds; assumption. }
  destruct (idxPeak_ij_exp_masked_argmax imgFFT (fst harmonic_ij)
              (snd harmonic_ij) periodVert periodHor searchRegion Hrect Hfin)
    as [i [j [p [m [Hloc [Hp [Hin _]]]]]]].
  - exists i0, j0, p0, q0. rewrite Hwin. auto.
  - apply Hwin in Hin.
    pose proof (exp_harm_period_checked img harmonicPeriod harmonic_ij
                  searchRegion isFFT) as Ep.
    cbv zeta in Ep. fold imgFFT periodVert periodHor in Ep.
    rewrite (Ep Hc), He, Bool.andb_false_r, Hloc. cbn [bind fst snd].
    eexists. eexists. split; [reflexivity|].
    fold r0 c0. lia.
Qed.

Lemma exp_harm_period_near_period_witness :
  let num := RealPixels.numerics (fun a => a) (fun a => a) in
  exists expVert expHor,
    exp_harm_period (RealPixels.spike 8 8 7 4 (Fin 8)) (2, 2) (1, 0) 2 true
      = Ok (expVert, expHor)
    /\ 2 - 2 <= expVert < 2 + 2 /\ 2 - 2 <= expHor < 2 + 2.
Proof.
  intros num.
  apply (exp_harm_period_near_period (num := num)
           (RealPixels.spike 8 8 7 4 (Fin 8)) (2, 2) (1, 0) 2 true);
    try reflexivity; try (cbn; lia).
  exists 7%nat, 4%nat, (Fin 8), 8%Q.
  repeat split; cbn; try lia; reflexivity.
Defined.

(** ** Extraction on an image of finite magnitudes *)

Lemma extract_harmonic_ok_inv `{num : Numerics} (imgFFT : ndarray px)
    (harmonicPeriod harmonic_ij : Z * Z) (searchRegion : Z)
    (crop : ndarray px) :
  rectangular imgFFT = true ->
  extract_harmonic imgFFT harmonicPeriod harmonic_ij searchRegion true
    = Ok crop ->
  _check_harmonic_inside_image (fst harmonic_ij) (snd harmonic_ij)
    (Z.of_nat (nrows imgFFT)) (Z.of_nat (ncols imgFFT))
    (resolve_period (fst harmonicPeriod) (Z.of_nat (nrows imgFFT)))
    (resolve_period (snd harmonicPeriod) (Z.of_nat (ncols imgFFT))) = Ok tt
  /\ (0 < nrows imgFFT)%nat /\ (0 < ncols imgFFT)%nat.
Proof.
  intros Hrect Hex.
  destruct (check_harmonic_total (fst harmonic_ij) (snd harmonic_ij)
              (Z.of_nat (nrows imgFFT)) (Z.of_nat (ncols imgFFT))
              (resolve_period (fst harmonicPeriod) (Z.of_nat (nrows imgFFT)))
              (resolve_period (snd harmonicPeriod) (Z.of_nat (ncols imgFFT))))
    as [Hc|Hc].
  2: { rewrite extract_harmonic_aborts in Hex by exact Hc. discriminate. }
  split; [exact Hc|].
  pose proof (extract_harmonic_checked imgFFT harmonicPeriod harmonic_ij
                searchRegion true) as E.
  cbv zeta in E. rewrite (E Hc) in Hex. clear E.
  change (frequency_image imgFFT true) with imgFFT in Hex.
  destruct (_idxPeak_ij_exp imgFFT _ _ _ _ _) as [e|p] eqn:Eloc;
    cbn [bind] in Hex; [discriminate|].
  eapply idxPeak_ij_exp_nonempty; eauto.
Qed.

(** On a non-empty image of finite magnitudes the extraction stops only at
    the range test. *)
Lemma extract_harmonic_finite `{num : Numerics} (imgFFT : ndarray px)
    (harmonicPeriod harmonic_ij : Z * Z) (searchRegion : Z) :
  let range_test :=
    _check_harmonic_inside_image (fst harmonic_ij) (snd harmonic_ij)
      (Z.of_nat (nrows imgFFT)) (Z.of_nat (ncols imgFFT))
      (resolve_period (fst harmonicPeriod) (Z.of_nat (nrows imgFFT)))
      (resolve_period (snd harmonicPeriod) (Z.of_nat (ncols imgFFT))) in
  let idxPeak_ij :=
    _idxPeak_ij (fst harmonic_ij) (snd harmonic_ij)
      (Z.of_nat (nrows imgFFT)) (Z.of_nat (ncols imgFFT))
      (resolve_period (fst harmonicPeriod) (Z.of_nat (nrows imgFFT)))
      (resolve_period (snd harmonicPeriod) (Z.of_nat (ncols imgFFT))) in
  rectangular imgFFT = true -> finite_magnitudes imgFFT = true ->
  (0 < nrows imgFFT)%nat -> (0 < ncols imgFFT)%nat ->
  (range_test = Err ValueError
   /\ extract_harmonic imgFFT harmonicPeriod harmonic_ij searchRegion true
      = Err SystemExit)
  \/ (range_test = Ok tt
      /\ extract_harmonic imgFFT harmonicPeriod harmonic_ij searchRegion true
         = Ok (slice2 imgFFT
                 (fst idxPeak_ij
                  - resolve_period (fst harmonicPeriod)
                      (Z.of_nat (nrows imgFFT)) / 2)
                 (fst idxPeak_ij
                  + resolve_period (fst harmonicPeriod)
                      (Z.of_nat (nrows imgFFT)) / 2)
                 (snd idxPeak_ij
                  - resolve_period (snd harmonicPeriod)
                      (Z.of_nat (ncols imgFFT)) / 2)
                 (snd idxPeak_ij
                  + resolve_period (snd harmonicPeriod)
                      (Z.of_nat (ncols imgFFT)) / 2))).
Proof.
  intros range_test idxPeak_ij Hrect Hfin Hr Hc.
  destruct (check_harmonic_total (fst harmonic_ij) (snd harmonic_ij)
              (Z.of_nat (nrows imgFFT)) (Z.of_nat (ncols imgFFT))
              (resolve_period (fst harmonicPeriod) (Z.of_nat (nrows imgFFT)))
              (resolve_period (snd harmonicPeriod) (Z.of_nat (ncols imgFFT))))
    as [Hk|Hk]; fold range_test in Hk.
  - right. split; [exact Hk|].
    pose proof (extract_harmonic_checked imgFFT harmonicPeriod harmonic_ij
                  searchRegion true) as E.
    cbv zeta in E. rewrite (E Hk). clear E.
    change (frequency_image imgFFT true) with imgFFT.
    destruct (idxPeak_ij_exp_total imgFFT (fst harmonic_ij) (snd harmonic_ij)
                (resolve_period (fst harmonicPeriod) (Z.of_nat (nrows imgFFT)))
                (resolve_period (snd harmonicPeriod) (Z.of_nat (ncols imgFFT)))
                searchRegion Hrect Hfin Hr Hc) as [i [j [p [Hloc _]]]].
    rewrite Hloc. reflexivity.
  - left. split; [exact Hk|]. apply extract_harmonic_aborts, Hk.
Qed.

(** The harmonic set is returned only from a non-empty image in which
    three periods fit on each axis. *)
Lemma harmonic_images_ok_inv `{num : Numerics} (img : ndarray px)
    (harmonicPeriod : Z * Z) (searchRegion : Z)
    (set : ndarray px * ndarray px * ndarray px) :
  let imgFFT := fftshift (fft2 img) in
  rectangular imgFFT = true ->
  single_grating_harmonic_images img harmonicPeriod searchRegion = Ok set ->
  (0 < nrows imgFFT)%nat /\ (0 < ncols imgFFT)%nat
  /\ 3 * resolve_period (fst harmonicPeriod) (Z.of_nat (nrows imgFFT))
     <= Z.of_nat (nrows imgFFT)
  /\ 3 * resolve_period (snd harmonicPeriod) (Z.of_nat (ncols imgFFT))
     <= Z.of_nat (ncols imgFFT).
Proof.
  intros imgFFT Hrect Hs. destruct set as [[h00 h01] h10].
  destruct (harmonic_images_inv img harmonicPeriod searchRegion h00 h01 h10 Hs)
    as [_ [c00 [c01 [c10 [_ [E01 [E10 _]]]]]]].
  fold imgFFT in E01, E10.
  destruct (extract_harmonic_ok_inv _ _ _ _ _ Hrect E01) as [C01 [Hr Hc]].
  destruct (extract_harmonic_ok_inv _ _ _ _ _ Hrect E10) as [C10 _].
  apply check_harmonic_ok_iff in C01. apply check_harmonic_ok_iff in C10.
  cbn [fst snd] in C01, C10. repeat split; try assumption; lia.
Qed.

(** X10: the harmonic set cannot be had from a 1D grating.  With a
    non-positive period on an axis, the period becomes the extent of the
    image on that axis and the first harmonic of that axis fails the range
    test: [single_grating_harmonic_images] never returns, and neither does
    [single_2Dgrating_analyses]; on a non-empty image whose transform, of
    the shape of the image, has finite magnitudes, the call ends in
    [SystemExit]. *)
Theorem harmonic_images_reject_1D_grating `{num : Numerics} (img : ndarray px)
    (periodVert periodHor searchRegion : Z) :
  let imgFFT := fftshift (fft2 img) in
  rectangular imgFFT = true ->
  periodVert <= 0 \/ periodHor <= 0 ->
  (forall set,
     single_grating_harmonic_images img (periodVert, periodHor) searchRegion
       <> Ok set)
  /\ (forall img_ref unwrapFlag maps,
        single_2Dgrating_analyses img img_ref (periodVert, periodHor)
          unwrapFlag <> Ok maps)
  /\ (shape imgFFT = shape img ->
      finite_magnitudes imgFFT = true ->
      (0 < nrows imgFFT)%nat -> (0 < ncols imgFFT)%nat ->
      single_grating_harmonic_images img (periodVert, periodHor) searchRegion
        = Err SystemExit).
Proof.
  intros imgFFT Hrect Hper.
  assert (forall region set,
            single_grating_harmonic_images img (periodVert, periodHor) region
              <> Ok set) as Hset.
  { intros region set Hs.
    destruct (harmonic_images_ok_inv img (periodVert, periodHor) region set
                Hrect Hs) as [Hr [Hc [HV HH]]].
    fold imgFFT in Hr, Hc, HV, HH. cbn [fst snd] in HV, HH.
    unfold resolve_period in HV, HH.
    destruct Hper as [Hp|Hp].
    - destruct (periodVert <=? 0) eqn:E; lia.
    - destruct (periodHor <=? 0) eqn:E; lia. }
  split; [apply Hset|]. split.
  - intros img_ref unwrapFlag maps Hm.
    unfold single_2Dgrating_analyses in Hm.
    destruct (single_grating_harmonic_images img (periodVert, periodHor) 10)
      as [e|set] eqn:Es; cbn [bind] in Hm; [discriminate|].
    exact (Hset 10 set Es).
  - intros Hshape Hfin Hr Hc.
    assert (is_empty img = false) as He.
    { unfold shape in Hshape. injection Hshape as HsR HsC.
      apply is_empty_false. lia. }
    destruct (single_grating_harmonic_images img (periodVert, periodHor)
                searchRegion) as [e|set] eqn:Es;
      [|exfalso; exact (Hset searchRegion set Es)].
    rewrite (harmonic_images_of_transform img (periodVert, periodHor)
               searchRegion He) in Es.
    cbv zeta in Es. fold imgFFT in Es.
    destruct (extract_harmonic_finite imgFFT (periodVert, periodHor) (0, 0)
                searchRegion Hrect Hfin Hr Hc) as [[_ E]|[_ E]];
      rewrite E in Es; cbn [bind] in Es; [symmetry; exact Es|].
    destruct (extract_harmonic_finite imgFFT (periodVert, periodHor) (0, 1)
                searchRegion Hrect Hfin Hr Hc) as [[_ E']|[K' E']];
      rewrite E' in Es; cbn [bind] in Es; [symmetry; exact Es|].
    destruct (extract_harmonic_finite imgFFT (periodVert, periodHor) (1, 0)
                searchRegion Hrect Hfin Hr Hc) as [[_ E'']|[K'' E'']];
      rewrite E'' in Es; cbn [bind] in Es; [symmetry; exact Es|].
    exfalso. apply check_harmonic_ok_iff in K'.
    apply check_harmonic_ok_iff in K''. cbn [fst snd] in K', K''.
    unfold resolve_period in K', K''.
    destruct Hper as [Hp|Hp].
    + destruct (periodVert <=? 0) eqn:E1; lia.
    + destruct (periodHor <=? 0) eqn:E1; lia.
Qed.

Lemma harmonic_images_reject_1D_grating_witness :
  let num := RealPixels.numerics (fun a => a) (fun a => a) in
  single_grating_harmonic_images (RealPixels.constant 8 8 1) (0, 2) 10
  = Err SystemExit.
Proof.
  intros num.
  destruct (harmonic_images_reject_1D_grating (num := num)
              (RealPixels.constant 8 8 1) 0 2 10) as [_ [_ Hexit]];
    [reflexivity | left; lia |].
  apply Hexit; [reflexivity | reflexivity | cbn; lia | cbn; lia].
Defined.

(** X11: the search radius never changes what [extract_harmonic] gives on
    an image of finite magnitudes: the peak search only feeds the
    messages, the crop is cut around the theoretical peak. *)
Theorem extract_harmonic_ignores_search_region `{num : Numerics}
    (img : ndarray px) (harmonicPeriod harmonic_ij : Z * Z)
    (searchRegion searchRegion' : Z) (isFFT : bool) :
  rectangular (frequency_image img isFFT) = true ->
  finite_magnitudes (frequency_image img isFFT) = true ->
  extract_harmonic img harmonicPeriod harmonic_ij searchRegion isFFT
  = extract_harmonic img harmonicPeriod harmonic_ij searchRegion' isFFT.
Proof.
  intros Hrect Hfin.
  destruct (check_harmonic_total (fst harmonic_ij) (snd harmonic_ij)
              (Z.of_nat (nrows img)) (Z.of_nat (ncols img))
              (resolve_period (fst harmonicPeriod) (Z.of_nat (nrows img)))
              (resolve_period (snd harmonicPeriod) (Z.of_nat (ncols img))))
    as [Hc|Hc].
  - pose proof (extract_harmonic_checked img harmonicPeriod harmonic_ij
                  searchRegion isFFT) as E.
    pose proof (extract_harmonic_checked img harmonicPeriod harmonic_ij
                  searchRegion' isFFT) as E'.
    cbv zeta in E, E'. rewrite (E Hc), (E' Hc). clear E E'.
    destruct (Nat.eq_dec (nrows (frequency_image img isFFT)) 0) as [Hr|Hr];
      [|destruct (Nat.eq_dec (ncols (frequency_image img isFFT)) 0)
          as [Hk|Hk]].
    + rewrite !idxPeak_ij_exp_empty by auto. reflexivity.
    + rewrite !idxPeak_ij_exp_empty by auto. reflexivity.
    + destruct (idxPeak_ij_exp_total (frequency_image img isFFT)
                  (fst harmonic_ij) (snd harmonic_ij)
                  (resolve_period (fst harmonicPeriod) (Z.of_nat (nrows img)))
                  (resolve_period (snd harmonicPeriod) (Z.of_nat (ncols img)))
                  searchRegion Hrect Hfin ltac:(lia) ltac:(lia))
        as [i [j [p [-> _]]]].
      destruct (idxPeak_ij_exp_total (frequency_image img isFFT)
                  (fst harmonic_ij) (snd harmonic_ij)
                  (resolve_period (fst harmonicPeriod) (Z.of_nat (nrows img)))
                  (resolve_period (snd harmonicPeriod) (Z.of_nat (ncols img)))
                  searchRegion' Hrect Hfin ltac:(lia) ltac:(lia))
        as [i' [j' [p' [-> _]]]].
      reflexivity.
  - rewrite !extract_harmonic_aborts by exact Hc. reflexivity.
Qed.

Lemma extract_harmonic_ignores_search_region_witness :
  let num := RealPixels.numerics (fun a => a) (fun a => a) in
  extract_harmonic (RealPixels.spike 8 8 5 3 (Fin 8)) (2, 2) (0, 0) 1 true
  = extract_harmonic (RealPixels.spike 8 8 5 3 (Fin 8)) (2, 2) (0, 0) 3 true.
Proof.
  intros num.
  exact (extract_harmonic_ignores_search_region (num := num)
           (RealPixels.spike 8 8 5 3 (Fin 8)) (2, 2) (0, 0) 1 3 true
           eq_refl eq_refl).
Defined.

(** ** The zero order with the periods left to the image *)

Lemma slice_full {A} (l : list A) : slice l 0 (Z.of_nat (length l)) = l.
Proof.
  unfold slice. rewrite !slice_bound_id by lia.
  rewrite Z.sub_0_r, Nat2Z.id. cbn [Z.to_nat skipn]. apply firstn_all.
Qed.

Lemma slice2_full {A} (a : ndarray A) :
  rectangular a = true ->
  slice2 a 0 (Z.of_nat (nrows a)) 0 (Z.of_nat (ncols a)) = a.
Proof.
  intros Hrect. destruct a as [c rs]. unfold slice2, nrows.
  cbn [rows ncols] in *. rewrite !slice_bound_id by lia.
  rewrite Z.sub_0_r, Nat2Z.id. f_equal.
  rewrite slice_full. rewrite <- (map_id rs) at 2.
  apply map_ext_in. intros r Hr.
  unfold rectangular in Hrect. cbn [rows ncols] in Hrect.
  rewrite forallb_forall in Hrect. apply Hrect, Nat.eqb_eq in Hr.
  rewrite <- Hr. apply slice_full.
Qed.

(** X12: with both periods non-positive (the periods are then the extents
    of the image) the harmonic 00 always passes the range test, and on an
    image of finite magnitudes with an even number of rows and of columns
    [extract_harmonic] returns the whole frequency image. *)
Theorem extract_zero_order_of_whole_image `{num : Numerics}
    (imgFFT : ndarray px) (periodVert periodHor searchRegion : Z) :
  periodVert <= 0 -> periodHor <= 0 ->
  rectangular imgFFT = true -> finite_magnitudes imgFFT = true ->
  (0 < nrows imgFFT)%nat -> (0 < ncols imgFFT)%nat ->
  Z.even (Z.of_nat (nrows imgFFT)) = true ->
  Z.even (Z.of_nat (ncols imgFFT)) = true ->
  extract_harmonic imgFFT (periodVert, periodHor) (0, 0) searchRegion true
  = Ok imgFFT.
Proof.
  intros HpV HpH Hrect Hfin Hr Hc HeR HeC.
  destruct (extract_harmonic_finite imgFFT (periodVert, periodHor) (0, 0)
              searchRegion Hrect Hfin Hr Hc) as [[Hk _]|[_ E]].
  - exfalso.
    assert (_check_harmonic_inside_image 0 0 (Z.of_nat (nrows imgFFT))
              (Z.of_nat (ncols imgFFT))
              (resolve_period periodVert (Z.of_nat (nrows imgFFT)))
              (resolve_period periodHor (Z.of_nat (ncols imgFFT))) = Ok tt)
      as Hok.
    { apply check_harmonic_ok_iff. unfold resolve_period.
      destruct (periodVert <=? 0) eqn:EV; [|apply Z.leb_gt in EV; lia].
      destruct (periodHor <=? 0) eqn:EH; [|apply Z.leb_gt in EH; lia].
      lia. }
    cbv zeta in Hk. cbn [fst snd] in Hk. congruence.
  - rewrite E. cbn [fst snd]. unfold _idxPeak_ij. cbn [fst snd].
    replace (resolve_period periodVert (Z.of_nat (nrows imgFFT)))
      with (Z.of_nat (nrows imgFFT))
      by (unfold resolve_period; destruct (periodVert <=? 0) eqn:EV;
          [reflexivity|apply Z.leb_gt in EV; lia]).
    replace (resolve_period periodHor (Z.of_nat (ncols imgFFT)))
      with (Z.of_nat (ncols imgFFT))
      by (unfold resolve_period; destruct (periodHor <=? 0) eqn:EH;
          [reflexivity|apply Z.leb_gt in EH; lia]).
    apply twice_half_iff_even in HeR. apply twice_half_iff_even in HeC.
    replace (Z.of_nat (nrows imgFFT) / 2 + 0 * Z.of_nat (nrows imgFFT)
             - Z.of_nat (nrows imgFFT) / 2) with 0 by lia.
    replace (Z.of_nat (nrows imgFFT) / 2 + 0 * Z.of_nat (nrows imgFFT)
             + Z.of_nat (nrows imgFFT) / 2)
      with (Z.of_nat (nrows imgFFT)) by lia.
    replace (Z.of_nat (ncols imgFFT) / 2 + 0 * Z.of_nat (ncols imgFFT)
             - Z.of_nat (ncols imgFFT) / 2) with 0 by lia.
    replace (Z.of_nat (ncols imgFFT) / 2 + 0 * Z.of_nat (ncols imgFFT)
             + Z.of_nat (ncols imgFFT) / 2)
      with (Z.of_nat (ncols imgFFT)) by lia.
    rewrite slice2_full by exact Hrect. reflexivity.
Qed.

Lemma extract_zero_order_of_whole_image_witness :
  let num := RealPixels.numerics (fun a => a) (fun a => a) in
  extract_harmonic (RealPixels.spike 4 6 2 3 (Fin 8)) (0, -1) (0, 0) 1 true
  = Ok (RealPixels.spike 4 6 2 3 (Fin 8)).
Proof.
  intros num.
  apply (extract_zero_order_of_whole_image (num := num)
           (RealPixels.spike 4 6 2 3 (Fin 8)) 0 (-1) 1);
    try reflexivity; try (cbn; lia).
Defined.

(** ** The crops of different harmonics *)

(** X13: on an image of finite magnitudes and with positive periods, take
    two non-negative harmonics, the second at least the first on both
    axes and passing the range test.  Both are extracted, each crop holds
    the pixels of the image in the rows and columns of its slice, which
    lies inside the image, and the two crops never share a row of the
    image when the harmonics differ vertically (nor a column when they
    differ horizontally): the slice of the lower harmonic ends where, or
    before, the slice of the higher one begins.  The slices of two
    neighbouring harmonics touch exactly when the period is even; with an
    odd period one row (or column) between them belongs to neither. *)
Theorem harmonic_crops_are_disjoint `{num : Numerics} (imgFFT : ndarray px)
    (periodVert periodHor harV harH harV' harH' searchRegion : Z) :
  let nRows := Z.of_nat (nrows imgFFT) in
  let nColumns := Z.of_nat (ncols imgFFT) in
  let idxPeak_ij :=
    _idxPeak_ij harV harH nRows nColumns periodVert periodHor in
  let idxPeak_ij' :=
    _idxPeak_ij harV' harH' nRows nColumns periodVert periodHor in
  let top := fst idxPeak_ij - periodVert / 2 in
  let bottom := fst idxPeak_ij + periodVert / 2 in
  let left := snd idxPeak_ij - periodHor / 2 in
  let right := snd idxPeak_ij + periodHor / 2 in
  let top' := fst idxPeak_ij' - periodVert / 2 in
  let bottom' := fst idxPeak_ij' + periodVert / 2 in
  let left' := snd idxPeak_ij' - periodHor / 2 in
  let right' := snd idxPeak_ij' + periodHor / 2 in
  let holds (crop : ndarray px) (top bottom left right : Z) :=
    forall i j,
      (i < Z.to_nat (bottom - top))%nat -> (j < Z.to_nat (right - left))%nat ->
      get2 crop i j = get2 imgFFT (Z.to_nat top + i) (Z.to_nat left + j) in
  0 < periodVert -> 0 < periodHor ->
  0 <= harV <= harV' -> 0 <= harH <= harH' ->
  _check_harmonic_inside_image harV' harH' nRows nColumns periodVert periodHor
    = Ok tt ->
  rectangular imgFFT = true -> finite_magnitudes imgFFT = true ->
  exists crop crop',
    extract_harmonic imgFFT (periodVert, periodHor) (harV, harH)
      searchRegion true = Ok crop
    /\ extract_harmonic imgFFT (periodVert, periodHor) (harV', harH')
         searchRegion true = Ok crop'
    /\ holds crop top bottom left right
    /\ holds crop' top' bottom' left' right'
    /\ (0 <= top <= bottom /\ 0 <= left <= right)
    /\ (top' <= bottom' <= nRows /\ left' <= right' <= nColumns)
    /\ (harV < harV' -> bottom <= top')
    /\ (harH < harH' -> right <= left')
    /\ (harV' = harV + 1 ->
        (bottom = top' <-> Z.even periodVert = true) /\ top' <= bottom + 1)
    /\ (harH' = harH + 1 ->
        (right = left' <-> Z.even periodHor = true) /\ left' <= right + 1).
Proof.
  intros nRows nColumns idxPeak_ij idxPeak_ij' top bottom left right
         top' bottom' left' right' holds HpV HpH HhV HhH Hc' Hrect Hfin.
  assert (_check_harmonic_inside_image harV harH nRows nColumns
            periodVert periodHor = Ok tt) as Hc.
  { apply check_harmonic_ok_iff. apply check_harmonic_ok_iff in Hc'.
    destruct Hc' as [HV HH].
    assert (0 <= (harV' - harV) * periodVert)
      by (apply Z.mul_nonneg_nonneg; lia).
    assert (0 <= (harH' - harH) * periodHor)
      by (apply Z.mul_nonneg_nonneg; lia).
    split; lia. }
  destruct (extract_harmonic_crop_entries imgFFT (periodVert, periodHor)
              (harV, harH) searchRegion true HpV HpH
              ltac:(cbn [fst]; lia) ltac:(cbn [snd]; lia) Hc Hrect eq_refl Hfin)
    as [crop [Hcrop Hentries]].
  destruct (extract_harmonic_crop_entries imgFFT (periodVert, periodHor)
              (harV', harH') searchRegion true HpV HpH
              ltac:(cbn [fst]; lia) ltac:(cbn [snd]; lia) Hc' Hrect eq_refl
              Hfin)
    as [crop' [Hcrop' Hentries']].
  cbn [fst snd] in Hentries, Hentries'.
  change (frequency_image imgFFT true) with imgFFT in Hentries, Hentries'.
  fold nRows nColumns idxPeak_ij idxPeak_ij' in Hentries, Hentries'.
  fold top left top' left' in Hentries, Hentries'.
  apply check_harmonic_ok_iff in Hc. apply check_harmonic_ok_iff in Hc'.
  destruct Hc as [HcV HcH]. destruct Hc' as [HcV' HcH'].
  assert (0 <= harV') as HhV' by lia. assert (0 <= harH') as HhH' by lia.
  destruct (crop_bounds _ _ _ HpV (proj1 HhV) HcV) as [HV0 [HV1 HV2]].
  destruct (crop_bounds _ _ _ HpH (proj1 HhH) HcH) as [HH0 [HH1 HH2]].
  destruct (crop_bounds _ _ _ HpV HhV' HcV') as [HV0' [HV1' HV2']].
  destruct (crop_bounds _ _ _ HpH HhH' HcH') as [HH0' [HH1' HH2']].
  assert (bottom - top = 2 * (periodVert / 2)) as EV
    by (unfold bottom, top; lia).
  assert (right - left = 2 * (periodHor / 2)) as EH
    by (unfold right, left; lia).
  assert (bottom' - top' = 2 * (periodVert / 2)) as EV'
    by (unfold bottom', top'; lia).
  assert (right' - left' = 2 * (periodHor / 2)) as EH'
    by (unfold right', left'; lia).
  exists crop, crop'. split; [exact Hcrop|]. split; [exact Hcrop'|].
  split; [unfold holds; rewrite EV, EH; exact Hentries|].
  split; [unfold holds; rewrite EV', EH'; exact Hentries'|].
  unfold top, bottom, left, right, top', bottom', left', right',
         idxPeak_ij, idxPeak_ij', _idxPeak_ij in *.
  cbn [fst snd] in *.
  rewrite <- !twice_half_iff_even.
  pose proof (Z.div_mod periodVert 2 ltac:(lia)) as DV.
  pose proof (Z.mod_pos_bound periodVert 2 ltac:(lia)) as MV.
  pose proof (Z.div_mod periodHor 2 ltac:(lia)) as DH.
  pose proof (Z.mod_pos_bound periodHor 2 ltac:(lia)) as MH.
  split; [lia|]. split; [lia|].
  repeat split; intros; subst; nia.
Qed.

Lemma harmonic_crops_are_disjoint_witness :
  let num := RealPixels.numerics (fun a => a) (fun a => a) in
  let imgFFT := RealPixels.constant 12 8 1 in
  exists crop crop',
    extract_harmonic imgFFT (3, 2) (0, 0) 2 true = Ok crop
    /\ extract_harmonic imgFFT (3, 2) (1, 0) 2 true = Ok crop'
    /\ (forall i j, (i < 2)%nat -> (j < 2)%nat ->
          get2 crop i j = get2 imgFFT (5 + i) (3 + j))
    /\ (forall i j, (i < 2)%nat -> (j < 2)%nat ->
          get2 crop' i j = get2 imgFFT (8 + i) (3 + j)).
Proof.
  intros num imgFFT.
  destruct (harmonic_crops_are_disjoint (num := num) imgFFT 3 2 0 0 1 0 2)
    as [crop [crop' [Hcrop [Hcrop' [Hholds [Hholds' _]]]]]];
    try reflexivity; try lia.
  exists crop, crop'. split; [exact Hcrop|]. split; [exact Hcrop'|].
  split; [exact Hholds|exact Hholds'].
Defined.

(** ** The range test across harmonics *)

(** X14: the range test is monotone: with positive periods, a harmonic
    that passes on an image passes on every image at least as large, and
    so does every harmonic of lower or equal index on both axes.  A
    negative index on an axis always passes the test of that axis.  The
    extents, periods and harmonics are those on which the test computes
    exactly in double precision ([double_exact]). *)
Theorem range_validator_monotone
    (harV harH harV' harH' nRows nColumns nRows' nColumns'
       periodVert periodHor : Z) :
  0 < periodVert -> 0 < periodHor ->
  double_exact harV periodVert nRows -> double_exact harH periodHor nColumns ->
  (_check_harmonic_inside_image harV harH nRows nColumns periodVert periodHor
     = Ok tt ->
   harV' <= harV -> harH' <= harH ->
   nRows <= nRows' -> nColumns <= nColumns' ->
   double_exact harV' periodVert nRows' ->
   double_exact harH' periodHor nColumns' ->
   _check_harmonic_inside_image harV' harH' nRows' nColumns'
     periodVert periodHor = Ok tt)
  /\ (harV < 0 -> 0 <= nRows ->
      (_check_harmonic_inside_image harV harH nRows nColumns
         periodVert periodHor = Ok tt
       <-> (2 * harH + 1) * periodHor <= nColumns))
  /\ (harH < 0 -> 0 <= nColumns ->
      (_check_harmonic_inside_image harV harH nRows nColumns
         periodVert periodHor = Ok tt
       <-> (2 * harV + 1) * periodVert <= nRows)).
Proof.
  intros HpV HpH _ _. rewrite !check_harmonic_ok_iff.
  repeat split; intros; try nia.
  all: intuition nia.
Qed.

Lemma range_validator_monotone_witness :
  _check_harmonic_inside_image 0 1 8 8 2 2 = Ok tt
  /\ _check_harmonic_inside_image (-3) 0 8 8 2 2 = Ok tt.
Proof.
  destruct (range_validator_monotone 1 1 0 1 8 8 8 8 2 2) as [Hlow _];
    try (unfold double_exact; cbn; lia).
  destruct (range_validator_monotone (-3) 0 0 0 8 8 8 8 2 2)
    as [_ [Hneg _]];
    try (unfold double_exact; cbn; lia).
  split.
  - apply Hlow; try lia; try (unfold double_exact; cbn; lia). reflexivity.
  - apply Hneg; lia.
Defined.

(** ** The shape of the maps *)

Lemma arr_map2_shape {A B C} (f : A -> B -> C) (a : ndarray A) (b : ndarray B) :
  conformable a b ->
  rectangular (arr_map2 f a b) = true /\ shape (arr_map2 f a b) = shape a.
Proof.
  intros Hab. pose proof (arr_map2_conformable_left f a b Hab) as Hc.
  split; [apply Hc|]. symmetry. apply conformable_shape, Hc.
Qed.

Lemma arr_map_shape {A B} (f : A -> B) (a : ndarray A) :
  shape (arr_map f a) = shape a.
Proof. unfold shape, nrows, arr_map. cbn [rows ncols]. rewrite length_map. reflexivity. Qed.

(** X15: with positive periods the seven maps of
    [single_2Dgrating_analyses] all have the shape of the crops,
    [(2 * (periodVert // 2), 2 * (periodHor // 2))], whatever the shapes of
    the sample and of the reference: a reference of another shape than the
    sample is not refused, since the crops depend on the periods alone. *)
Theorem grating_analyses_map_shapes `{num : Numerics} (img ref : ndarray px)
    (periodVert periodHor unwrapFlag : Z)
    (sample_set ref_set : ndarray px * ndarray px * ndarray px) :
  shape_preserving (fun a => fftshift (fft2 a)) ->
  shape_preserving (fun a => ifft2 (ifftshift a)) ->
  shape_preserving unwrap_phase ->
  rectangular img = true -> rectangular ref = true ->
  0 < periodVert -> 0 < periodHor ->
  single_grating_harmonic_images img (periodVert, periodHor) 10
    = Ok sample_set ->
  single_grating_harmonic_images ref (periodVert, periodHor) 10
    = Ok ref_set ->
  exists maps,
    single_2Dgrating_analyses img (Some ref) (periodVert, periodHor)
      unwrapFlag = Ok maps
    /\ length maps = 7%nat
    /\ Forall (fun m =>
                 rectangular m = true
                 /\ shape m = (2 * (periodVert / 2), 2 * (periodHor / 2)))
              maps.
Proof.
  intros Hfwd Hinv Hunw Hri Hrr HpV HpH Himg Href.
  destruct sample_set as [[h00 h01] h10]. destruct ref_set as [[r00 r01] r10].
  destruct (Hfwd img Hri) as [_ [HFi _]].
  destruct (Hfwd ref Hrr) as [_ [HFr _]].
  destruct (harmonic_images_shape img (periodVert, periodHor) 10 h00 h01 h10
              HFi Hinv Himg) as [[A0 S0] [[A1 S1] [A2 S2]]].
  destruct (harmonic_images_shape ref (periodVert, periodHor) 10 r00 r01 r10
              HFr Hinv Href) as [[B0 T0] [[B1 T1] [B2 T2]]].
  cbn [fst snd] in S0, S1, S2, T0, T1, T2.
  rewrite !resolve_period_positive in S0, S1, S2, T0, T1, T2 by assumption.
  assert (conformable h00 h01) as H01
    by (apply conformable_of_shape; congruence).
  assert (conformable h00 h10) as H10
    by (apply conformable_of_shape; congruence).
  assert (conformable h00 r00) as R00
    by (apply conformable_of_shape; congruence).
  assert (conformable h00 r01) as R01
    by (apply conformable_of_shape; congruence).
  assert (conformable h00 r10) as R10
    by (apply conformable_of_shape; congruence).
  destruct (grating_analyses_conformable img ref (periodVert, periodHor)
              unwrapFlag h00 h01 h10 r00 r01 r10 Himg Href
              H01 H10 R00 R01 R10) as [Hmaps _].
  eexists. split; [exact Hmaps|]. split; [reflexivity|].
  assert (forall (f : px -> float64) (g : float64 -> float64 -> float64)
                 (h r : ndarray px),
            conformable h00 h -> conformable h00 r ->
            rectangular (arr_map2 g (arr_map f h) (arr_map f r)) = true
            /\ shape (arr_map2 g (arr_map f h) (arr_map f r))
               = (2 * (periodVert / 2), 2 * (periodHor / 2))) as Hpair.
  { intros f g h r Hh Hr.
    destruct (arr_map2_shape g (arr_map f h) (arr_map f r)) as [K1 K2].
    - apply arr_map_conformable. exact (conformable_via _ _ _ Hh Hr).
    - split; [exact K1|].
      rewrite K2, arr_map_shape, <- (conformable_shape _ _ Hh). exact S0. }
  assert (conformable h00 h00) as H00 by (apply conformable_refl, A0).
  assert (forall m : ndarray float64,
            rectangular m = true
            /\ shape m = (2 * (periodVert / 2), 2 * (periodHor / 2)) ->
            rectangular (if unwrapFlag =? 1 then unwrap_phase m else m) = true
            /\ shape (if unwrapFlag =? 1 then unwrap_phase m else m)
               = (2 * (periodVert / 2), 2 * (periodHor / 2))) as Hun.
  { intros m [Hm Hs]. destruct (unwrapFlag =? 1); [|auto].
    pose proof (Hunw m Hm) as Hc. split; [apply Hc|].
    rewrite <- (conformable_shape _ _ Hc). exact Hs. }
  assert (forall a b : ndarray float64,
            rectangular a = true
            /\ shape a = (2 * (periodVert / 2), 2 * (periodHor / 2)) ->
            rectangular b = true
            /\ shape b = (2 * (periodVert / 2), 2 * (periodHor / 2)) ->
            rectangular (arr_map2 f_div a b) = true
            /\ shape (arr_map2 f_div a b)
               = (2 * (periodVert / 2), 2 * (periodHor / 2))) as Hdiv.
  { intros a b [Ha Sa] [Hb Sb].
    destruct (arr_map2_shape f_div a b) as [K1 K2].
    - apply conformable_of_shape; congruence.
    - split; [exact K1|congruence]. }
  repeat apply Forall_cons; try apply Forall_nil;
    first [ apply Hpair; assumption
          | apply Hdiv; apply Hpair; assumption
          | apply Hun; apply Hpair; assumption ].
Qed.

Lemma grating_analyses_map_shapes_witness :
  let num := RealPixels.numerics (fun a => a) (fun a => a) in
  exists maps,
    single_2Dgrating_analyses (RealPixels.constant 8 8 1)
      (Some (RealPixels.constant 6 10 4)) (2, 2) 1 = Ok maps
    /\ length maps = 7%nat
    /\ Forall (fun m => rectangular m = true /\ shape m = (2, 2)) maps.
Proof.
  intros num.
  apply (grating_analyses_map_shapes (num := num)
           (RealPixels.constant 8 8 1) (RealPixels.constant 6 10 4) 2 2 1
           (RealPixels.constant 2 2 1, RealPixels.constant 2 2 1,
            RealPixels.constant 2 2 1)
           (RealPixels.constant 2 2 4, RealPixels.constant 2 2 4,
            RealPixels.constant 2 2 4)
           r_fftshift_shape_preserving r_ifftshift_shape_preserving);
    try reflexivity; try lia; try (vm_compute; reflexivity).
  intros a Ha. apply conformable_refl, Ha.
Defined.

(** ** The flag [isFFT] *)

(** X16: on an image without an axis of length zero, whose transform keeps
    its shape, extracting a harmonic from the real-space image is
    extracting it from the shifted transform of the image with [isFFT]
    set; the harmonic set, which transforms once, is what three
    extractions from the real-space image give. *)
Theorem extract_harmonic_of_real_image `{num : Numerics} (img : ndarray px)
    (harmonicPeriod : Z * Z) (searchRegion : Z) :
  shape (fftshift (fft2 img)) = shape img ->
  is_empty img = false ->
  (forall harmonic_ij,
     extract_harmonic img harmonicPeriod harmonic_ij searchRegion false
     = extract_harmonic (fftshift (fft2 img)) harmonicPeriod harmonic_ij
         searchRegion true)
  /\ single_grating_harmonic_images img harmonicPeriod searchRegion
     = (imgFFT00 <-
          extract_harmonic img harmonicPeriod (0, 0) searchRegion false ;;
        imgFFT01 <-
          extract_harmonic img harmonicPeriod (0, 1) searchRegion false ;;
        imgFFT10 <-
          extract_harmonic img harmonicPeriod (1, 0) searchRegion false ;;
        img00 <- np_fft_ifft2 (ifftshift imgFFT00) ;;
        img01 <-
          (if np_all (arr_map np_isfinite imgFFT01)
           then np_fft_ifft2 (ifftshift imgFFT01) else Ok imgFFT01) ;;
        img10 <-
          (if np_all (arr_map np_isfinite imgFFT10)
           then np_fft_ifft2 (ifftshift imgFFT10) else Ok imgFFT10) ;;
        Ok (img00, img01, img10)).
Proof.
  intros Hshape He.
  assert (forall harmonic_ij,
            extract_harmonic img harmonicPeriod harmonic_ij searchRegion false
            = extract_harmonic (fftshift (fft2 img)) harmonicPeriod
                harmonic_ij searchRegion true) as Hflag.
  { intros harmonic_ij. unfold extract_harmonic, np_fft_fft2.
    rewrite Hshape, He. reflexivity. }
  split; [exact Hflag|].
  rewrite !Hflag.
  exact (harmonic_images_of_transform img harmonicPeriod searchRegion He).
Qed.

Lemma extract_harmonic_of_real_image_witness :
  let num := RealPixels.numerics RealPixels.table_ones44 (fun a => a) in
  extract_harmonic (RealPixels.constant 4 4 1) (2, 2) (0, 0) 1 false
  = extract_harmonic (RealPixels.spike 4 4 2 2 (Fin 4)) (2, 2) (0, 0) 1 true.
Proof.
  intros num.
  exact (proj1 (extract_harmonic_of_real_image (num := num)
                  (RealPixels.constant 4 4 1) (2, 2) 1 eq_refl eq_refl)
           (0, 0)).
Defined.

(** ** When the harmonic set is returned *)

Lemma crop_is_empty {A} (crop : ndarray A) (periodVert periodHor : Z) :
  0 < periodVert -> 0 < periodHor ->
  shape crop = (2 * (periodVert / 2), 2 * (periodHor / 2)) ->
  (is_empty crop = false <-> 2 <= periodVert /\ 2 <= periodHor).
Proof.
  intros HpV HpH Hs.
  assert (Z.of_nat (nrows crop) = 2 * (periodVert / 2)) as HsR
    by exact (f_equal fst Hs).
  assert (Z.of_nat (ncols crop) = 2 * (periodHor / 2)) as HsC
    by exact (f_equal snd Hs).
  rewrite is_empty_false. split.
  - intros [Hr Hc]. split; Z.div_mod_to_equations; lia.
  - intros [HV HH]. split; Z.div_mod_to_equations; lia.
Qed.

Lemma shape_preserving_is_empty {A B} (t : ndarray A -> ndarray B)
    (a : ndarray A) :
  shape_preserving t -> rectangular a = true -> is_empty (t a) = is_empty a.
Proof.
  intros Ht Ha. destruct (Ht a Ha) as [_ [_ [Hr Hc]]].
  unfold is_empty. rewrite Hr, Hc. reflexivity.
Qed.

(** X17: on a non-empty image whose transform, of the shape of the image,
    has finite magnitudes, [single_grating_harmonic_images] returns the
    three images exactly when three periods fit in the transformed image
    on each axis, [3 * periodVert <= nRows] and [3 * periodHor <= nColumns],
    and each period is at least 2.  When three periods do not fit, the call
    ends in [SystemExit]; when they fit and a period is 1, the crops have
    an axis of length zero and the call ends in the [ValueError] of the
    inverse transform. *)
Theorem harmonic_images_returned_iff `{num : Numerics} (img : ndarray px)
    (harmonicPeriod : Z * Z) (searchRegion : Z) :
  let imgFFT := fftshift (fft2 img) in
  let periodVert :=
    resolve_period (fst harmonicPeriod) (Z.of_nat (nrows imgFFT)) in
  let periodHor :=
    resolve_period (snd harmonicPeriod) (Z.of_nat (ncols imgFFT)) in
  let fit :=
    3 * periodVert <= Z.of_nat (nrows imgFFT)
    /\ 3 * periodHor <= Z.of_nat (ncols imgFFT) in
  shape imgFFT = shape img -> shape_preserving ifftshift ->
  rectangular imgFFT = true -> finite_magnitudes imgFFT = true ->
  (0 < nrows imgFFT)%nat -> (0 < ncols imgFFT)%nat ->
  ((exists set,
      single_grating_harmonic_images img harmonicPeriod searchRegion = Ok set)
   <-> fit /\ 2 <= periodVert /\ 2 <= periodHor)
  /\ (single_grating_harmonic_images img harmonicPeriod searchRegion
        = Err SystemExit <-> ~ fit)
  /\ (single_grating_harmonic_images img harmonicPeriod searchRegion
        = Err ValueError <-> fit /\ (periodVert = 1 \/ periodHor = 1)).
Proof.
  intros imgFFT periodVert periodHor fit Hshape Hshift Hrect Hfin Hr Hc.
  assert (is_empty img = false) as He.
  { unfold shape in Hshape. injection Hshape as HsR HsC.
    apply is_empty_false. lia. }
  assert (0 < periodVert) as HpV
    by (apply resolve_period_extent_positive; lia).
  assert (0 < periodHor) as HpH
    by (apply resolve_period_extent_positive; lia).
  assert (forall harmonic_ij,
            0 <= fst harmonic_ij -> 0 <= snd harmonic_ij ->
            (~ ((2 * fst harmonic_ij + 1) * periodVert
                  <= Z.of_nat (nrows imgFFT)
                /\ (2 * snd harmonic_ij + 1) * periodHor
                  <= Z.of_nat (ncols imgFFT))
             /\ extract_harmonic imgFFT harmonicPeriod harmonic_ij
                  searchRegion true = Err SystemExit)
            \/ (((2 * fst harmonic_ij + 1) * periodVert
                   <= Z.of_nat (nrows imgFFT)
                 /\ (2 * snd harmonic_ij + 1) * periodHor
                   <= Z.of_nat (ncols imgFFT))
                /\ exists crop,
                     extract_harmonic imgFFT harmonicPeriod harmonic_ij
                       searchRegion true = Ok crop
                     /\ rectangular crop = true
                     /\ shape crop
                        = (2 * (periodVert / 2), 2 * (periodHor / 2))))
    as Hcases.
  { intros harmonic_ij HhV HhH.
    destruct (extract_harmonic_finite imgFFT harmonicPeriod harmonic_ij
                searchRegion Hrect Hfin Hr Hc) as [[K E]|[K E]].
    - left. split; [|exact E]. intros Hok.
      apply check_harmonic_ok_iff in Hok.
      fold imgFFT periodVert periodHor in K. congruence.
    - right. split; [apply check_harmonic_ok_iff; exact K|].
      eexists. split; [exact E|].
      destruct (extract_harmonic_inv imgFFT harmonicPeriod harmonic_ij
                  searchRegion _ Hrect HhV HhH E) as [_ [Hcr Hcs]].
      split; assumption. }
  assert ((~ fit
           /\ single_grating_harmonic_images img harmonicPeriod searchRegion
              = Err SystemExit)
          \/ (fit /\ (2 <= periodVert /\ 2 <= periodHor)
              /\ exists set,
                   single_grating_harmonic_images img harmonicPeriod
                     searchRegion = Ok set)
          \/ (fit /\ (periodVert = 1 \/ periodHor = 1)
              /\ single_grating_harmonic_images img harmonicPeriod
                   searchRegion = Err ValueError)) as Hclass.
  { rewrite (harmonic_images_of_transform img harmonicPeriod searchRegion He).
    cbv zeta. fold imgFFT. unfold fit.
    destruct (Hcases (0, 0) ltac:(cbn; lia) ltac:(cbn; lia))
      as [[K E]|[K [c [E [Rc Sc]]]]]; cbn [fst snd] in K; rewrite E;
      cbn [bind]; [left; split; [lia|reflexivity]|].
    destruct (Hcases (0, 1) ltac:(cbn; lia) ltac:(cbn; lia))
      as [[K' E']|[K' [c' [E' [Rc' Sc']]]]]; cbn [fst snd] in K'; rewrite E';
      cbn [bind]; [left; split; [lia|reflexivity]|].
    destruct (Hcases (1, 0) ltac:(cbn; lia) ltac:(cbn; lia))
      as [[K'' E'']|[K'' [c'' [E'' [Rc'' Sc'']]]]]; cbn [fst snd] in K'';
      rewrite E''; cbn [bind]; [left; split; [lia|reflexivity]|].
    right.
    pose proof (crop_is_empty c _ _ HpV HpH Sc) as N.
    pose proof (crop_is_empty c' _ _ HpV HpH Sc') as N'.
    pose proof (crop_is_empty c'' _ _ HpV HpH Sc'') as N''.
    rewrite <- (shape_preserving_is_empty ifftshift c Hshift Rc) in N.
    rewrite <- (shape_preserving_is_empty ifftshift c' Hshift Rc') in N'.
    rewrite <- (shape_preserving_is_empty ifftshift c'' Hshift Rc'') in N''.
    unfold np_fft_ifft2.
    destruct (is_empty (ifftshift c)) eqn:Ec.
    - right. split; [lia|]. split; [|reflexivity].
      destruct (Z_lt_le_dec periodVert 2) as [HV|HV]; [left; lia|].
      destruct (Z_lt_le_dec periodHor 2) as [HH|HH]; [right; lia|].
      exfalso. assert (true = false) by (apply N; lia). discriminate.
    - left. split; [lia|]. pose proof (proj1 N eq_refl) as Hbig.
      split; [exact Hbig|].
      rewrite (proj2 N' Hbig), (proj2 N'' Hbig). cbn [bind].
      destruct (np_all (arr_map np_isfinite c'));
        destruct (np_all (arr_map np_isfinite c'')); cbn [bind]; eauto. }
  destruct Hclass as [[Hn Hs]|[[Hf [Hb [set Hs]]]|[Hf [Hb Hs]]]]; rewrite Hs.
  - split; [|split].
    + split; [intros [set Hx]; discriminate Hx|intros [Hf _]; tauto].
    + tauto.
    + split; [discriminate|intros [Hf _]; tauto].
  - split; [|split].
    + split; [tauto|eauto].
    + split; [discriminate|tauto].
    + split; [discriminate|lia].
  - split; [|split].
    + split; [intros [set Hx]; discriminate Hx|lia].
    + split; [discriminate|tauto].
    + tauto.
Qed.

Lemma harmonic_images_returned_iff_witness :
  let num := RealPixels.numerics (fun a => a) (fun a => a) in
  (exists set,
     single_grating_harmonic_images (RealPixels.constant 6 8 1) (2, 2) 10
       = Ok set)
  /\ single_grating_harmonic_images (RealPixels.constant 6 8 1) (3, 2) 10
     = Err SystemExit
  /\ single_grating_harmonic_images (RealPixels.constant 6 8 1) (1, 2) 10
     = Err ValueError.
Proof.
  intros num.
  split; [|split].
  - apply (proj1 (harmonic_images_returned_iff (num := num)
                    (RealPixels.constant 6 8 1) (2, 2) 10
                    eq_refl r_ifftshift_shape_preserving eq_refl eq_refl
                    ltac:(cbn; lia) ltac:(cbn; lia))).
    cbn. lia.
  - apply (proj1 (proj2 (harmonic_images_returned_iff (num := num)
                           (RealPixels.constant 6 8 1) (3, 2) 10
                           eq_refl r_ifftshift_shape_preserving eq_refl eq_refl
                           ltac:(cbn; lia) ltac:(cbn; lia)))).
    cbn. lia.
  - apply (proj2 (proj2 (harmonic_images_returned_iff (num := num)
                           (RealPixels.constant 6 8 1) (1, 2) 10
                           eq_refl r_ifftshift_shape_preserving eq_refl eq_refl
                           ltac:(cbn; lia) ltac:(cbn; lia)))).
    cbn. lia.
Defined.
